(** * Shape interpreter of the runtime (src/rt/rust_shape.cpp)

    A shallow embedding of the three walkers of [rust_shape.cpp]: the
    size-of walker ([size_of]), the structural comparison glue ([cmp]) and
    the string case of the logger ([log::walk_string2]), together with the
    entry point [shape_cmp_type].

    The C++ objects are records; a member function that mutates [this] takes
    the record and returns the new one.  Functions that may loop or recurse
    through the shape take a fuel argument and return [None] when it runs
    out, and also where the C++ aborts. *)

From Stdlib Require Import ZArith List Bool Lia String Ascii.
From Stdlib Require Import Floats.SpecFloat.
Import ListNotations.
Local Open Scope Z_scope.

Set Implicit Arguments.

(** ** A small option monad for the fallible walkers *)

Definition bind {A B : Type} (m : option A) (k : A -> option B) : option B :=
  match m with
  | Some a => k a
  | None => None
  end.

Notation "x <- m ;; k" := (bind m (fun x => k))
  (at level 61, m at next level, right associativity).

(** ** Size and alignment *)

(** Modelled from the spec: [size_align] is declared in rust_shape.h, which
    is not among the sources.  It is the (size, alignment) pair of the data
    model; the constructor's default is the accumulator (0, 1) that
    [walk_struct1] starts from. *)
Record size_align : Type := mk_sa { size : Z; alignment : Z }.

Definition sa_default : size_align := mk_sa 0 1.

(** Modelled from the spec: [align_to] is declared in rust_shape.h.  It pads
    a size up to a multiple of the alignment. *)
Definition align_to (sz al : Z) : Z := ((sz + al - 1) / al) * al.

(** Modelled from the spec: [size_align::add] is declared in rust_shape.h.
    Of the combination rule (pad, add the size, take the larger alignment)
    the padding is the [align_to] call that [walk_struct1] and
    [compute_tag_size] make themselves before they call [add]; [add] is the
    rest of the rule. *)
Definition sa_add (acc : size_align) (extra_size extra_align : Z) : size_align :=
  mk_sa (size acc + extra_size) (Z.max (alignment acc) extra_align).

(** Modelled from the spec: [size_align::is_set] is declared in
    rust_shape.h.  The memoised pair of a [tag_info] is unset when it is the
    pair (0, 0) that [compute_tag_size] resets it to, which no computed
    result has as its alignment. *)
Definition is_set (sa : size_align) : bool := negb (alignment sa =? 0).

(** ** The shape stream and the side tables *)

(** The shape bytes and the tables of a type descriptor live in one
    read-only byte memory; [sp], the table pointers and the variant pointers
    are addresses into it.  A read outside it is undefined in the source and
    gives 0 here. *)
Definition shape_mem : Type := list Z.

Definition get_u8 (rom : shape_mem) (p : Z) : Z :=
  if p <? 0 then 0 else nth (Z.to_nat p) rom 0.

(** Modelled from the spec: [get_u16] and [get_u16_bump] are declared in
    rust_shape.h; operands are little-endian integers and reading advances
    the cursor by the bytes consumed. *)
Definition get_u16 (rom : shape_mem) (p : Z) : Z :=
  get_u8 rom p + 256 * get_u8 rom (p + 1).

Definition get_u16_bump (rom : shape_mem) (p : Z) : Z * Z :=
  (get_u16 rom p, p + 2).

Record rust_shape_tables : Type := mk_tables { tags : Z; resources : Z }.

(** Modelled from the spec: [tag_info] is declared in rust_shape.h: tag id,
    variant count, largest-variants pointer and the memoised size and
    alignment; [info_ptr] points at the variant offsets of the tag. *)
Record tag_info : Type := mk_tinfo {
  tag_id : Z;
  info_ptr : Z;
  variant_count : Z;
  largest_variants_ptr : Z;
  tag_sa : size_align
}.

Definition set_tag_sa (t : tag_info) (sa : size_align) : tag_info :=
  mk_tinfo (tag_id t) (info_ptr t) (variant_count t) (largest_variants_ptr t) sa.

Definition set_largest_variants_ptr (t : tag_info) (p : Z) : tag_info :=
  mk_tinfo (tag_id t) (info_ptr t) (variant_count t) p (tag_sa t).

(** Modelled from the spec: [get_variant_sp] is declared in rust_shape.h.
    It resolves a variant id to the (start, end) range of the variant's
    shape through the tables: the tag's info holds one 16-bit offset per
    variant, and the variant's shape is prefixed by its 16-bit length. *)
Definition get_variant_sp (rom : shape_mem) (tb : rust_shape_tables)
    (tinfo : tag_info) (variant_id : Z) : Z * Z :=
  let variant_offset := get_u16 rom (info_ptr tinfo + variant_id * 2) in
  let '(variant_len, variant_ptr) := get_u16_bump rom (tags tb + variant_offset) in
  (variant_ptr, variant_ptr + variant_len).

(** ** Opcodes *)

(** Modelled from the spec: the opcode numbering is declared in
    rust_shape.h.  The spec fixes the opcode classes only; the numbers of
    [decode] are those of the runtime's header as far as this file needs
    them, and any other byte is a bad opcode, on which [walk] aborts. *)
Inductive number_kind : Type :=
  | U8 | U16 | U32 | U64 | I8 | I16 | I32 | I64 | F32 | F64.

Inductive opcode : Type :=
  | SHAPE_NUMBER (k : number_kind)
  | SHAPE_BOX | SHAPE_VEC | SHAPE_TAG | SHAPE_STRUCT | SHAPE_FN | SHAPE_OBJ
  | SHAPE_RES | SHAPE_UNIQ | SHAPE_TRAIT | SHAPE_TYDESC | SHAPE_RPTR
  | SHAPE_FIXEDVEC | SHAPE_SLICE | SHAPE_UNBOXED_VEC.

Definition decode (b : Z) : option opcode :=
  match b with
  | 0 => Some (SHAPE_NUMBER U8) | 1 => Some (SHAPE_NUMBER U16)
  | 2 => Some (SHAPE_NUMBER U32) | 3 => Some (SHAPE_NUMBER U64)
  | 4 => Some (SHAPE_NUMBER I8) | 5 => Some (SHAPE_NUMBER I16)
  | 6 => Some (SHAPE_NUMBER I32) | 7 => Some (SHAPE_NUMBER I64)
  | 8 => Some (SHAPE_NUMBER F32) | 9 => Some (SHAPE_NUMBER F64)
  | 10 => Some SHAPE_BOX | 11 => Some SHAPE_VEC | 12 => Some SHAPE_TAG
  | 17 => Some SHAPE_STRUCT | 18 => Some SHAPE_FN | 19 => Some SHAPE_OBJ
  | 20 => Some SHAPE_RES | 22 => Some SHAPE_UNIQ | 24 => Some SHAPE_TRAIT
  | 28 => Some SHAPE_TYDESC | 31 => Some SHAPE_RPTR
  | 32 => Some SHAPE_FIXEDVEC | 33 => Some SHAPE_SLICE
  | 34 => Some SHAPE_UNBOXED_VEC
  | _ => None
  end.

(** [sizeof(T)] of the numeric kinds. *)
Definition sizeof_number (k : number_kind) : Z :=
  match k with
  | U8 | I8 => 1
  | U16 | I16 => 2
  | U32 | I32 | F32 => 4
  | U64 | I64 | F64 => 8
  end.

(** The constants that rust_shape.h and the compilation target fix and this
    file only names: the size and alignment of a pointer, of the
    discriminant type [tag_variant_t] and of [tag_align_t], and
    [rust_alignof<T>()] of the numeric kinds.  They are parameters of the
    walkers. *)
Record target : Type := mk_target {
  sizeof_ptr : Z;
  alignof_ptr : Z;
  sizeof_tag_variant_t : Z;
  alignof_tag_align_t : Z;
  alignof_number : number_kind -> Z
}.

(** A 64-bit target, on which every scalar is aligned to its size, and a
    32-bit one, on which nothing is aligned to more than four bytes. *)
Definition target64 : target := mk_target 8 8 8 8 sizeof_number.

Definition target32 : target :=
  mk_target 4 4 4 4 (fun k => Z.min 4 (sizeof_number k)).

(** ** Operands of the opcodes *)

(** Modelled from the spec: the skeleton's [walk_struct0], [walk_vec0],
    [walk_box0] and their like are declared in rust_shape.h.  Every opcode
    that has a nested shape carries that shape's 16-bit length, so that the
    skeleton can put the cursor at the declared end once the operation
    returns.  [delimited rom p] reads the length at [p] and gives the start
    and the end of the nested shape. *)
Definition delimited (rom : shape_mem) (p : Z) : Z * Z :=
  let '(sp_size, p1) := get_u16_bump rom p in (p1, p1 + sp_size).

(** Modelled from the spec: [walk_tag0] is declared in rust_shape.h.  The
    tag's id indexes the tag table, whose entry locates the tag's info: the
    variant count, the offset of the largest-variants table, the
    precalculated size (16 bits) and alignment (8 bits), then the variant
    offsets that [get_variant_sp] reads. *)
Definition read_tag_info (rom : shape_mem) (tb : rust_shape_tables) (p : Z)
    : tag_info * Z :=
  let '(id, p1) := get_u16_bump rom p in
  let info_offset := get_u16 rom (tags tb + id * 2) in
  let ip := tags tb + info_offset in
  let '(count, ip1) := get_u16_bump rom ip in
  let '(largest_offset, ip2) := get_u16_bump rom ip1 in
  let '(sz, ip3) := get_u16_bump rom ip2 in
  let al := get_u8 rom ip3 in
  (mk_tinfo id (ip3 + 1) count (tags tb + largest_offset) (mk_sa sz al), p1).

(** ** The size-of walker *)

Module size_of.

(** The members of [class size_of] that the walk reads or writes. *)
Record t : Type := mk {
  sp : Z;
  tables : rust_shape_tables;
  align : bool;
  sa : size_align
}.

Definition set_sp (c : t) (p : Z) : t := mk p (tables c) (align c) (sa c).
Definition set_align (c : t) (b : bool) : t := mk (sp c) (tables c) b (sa c).
Definition set_sa (c : t) (s : size_align) : t := mk (sp c) (tables c) (align c) s.

(** [size_of sub(other, in_sp, NULL)]: the cursor is replaced, the tables
    and the alignment flag are copied, [sa] is default-constructed. *)
Definition make_sub (other : t) (in_sp : Z) : t :=
  mk in_sp (tables other) (align other) sa_default.

Section Walkers.

Variable tgt : target.
Variable rom : shape_mem.

(** [walk] of the traversal skeleton, at the fuel the caller has left. *)
Variable walk : t -> option t.

(** The [while (sp != end_sp)] loop of [walk_struct1]. *)
Fixpoint walk_struct1_loop (fuel : nat) (end_sp : Z) (first : bool)
    (struct_sa : size_align) (c : t) : option (size_align * t) :=
  if sp c =? end_sp then Some (struct_sa, c)
  else
    match fuel with
    | O => None
    | S fuel' =>
        let struct_sa1 :=
          if first then struct_sa
          else mk_sa (align_to (size struct_sa) (alignment (sa c)))
                     (alignment struct_sa) in
        c1 <- walk c ;;
        let c2 := set_align c1 true in
        walk_struct1_loop fuel' end_sp false
          (sa_add struct_sa1 (size (sa c2)) (alignment (sa c2))) c2
    end.

Definition walk_struct1 (fuel : nat) (end_sp : Z) (c : t) : option t :=
  r <- walk_struct1_loop fuel end_sp true (mk_sa 0 1) c ;;
  Some (set_sa (snd r) (fst r)).

(** The inner loop of [compute_tag_size], over the fields of one variant,
    run on the sub-walker [sub]. *)
Fixpoint variant_size_loop (fuel : nat) (variant_end : Z) (first : bool)
    (variant_sa : size_align) (sub : t) : option (size_align * t) :=
  if sp sub =? variant_end then Some (variant_sa, sub)
  else
    match fuel with
    | O => None
    | S fuel' =>
        let variant_sa1 :=
          if first then variant_sa
          else mk_sa (align_to (size variant_sa) (alignment (sa sub)))
                     (alignment variant_sa) in
        sub1 <- walk sub ;;
        let sub2 := set_align sub1 true in
        variant_size_loop fuel' variant_end false
          (sa_add variant_sa1 (size (sa sub2)) (alignment (sa sub2))) sub2
    end.

(** The [for] loop of [compute_tag_size] over the largest-variants table;
    [n] is the number of entries still to read. *)
Fixpoint largest_variants_loop (fuel : nat) (c : t) (n : nat)
    (tinfo : tag_info) : option tag_info :=
  match n with
  | O => Some tinfo
  | S n' =>
      let '(variant_id, lvp) := get_u16_bump rom (largest_variants_ptr tinfo) in
      let tinfo1 := set_largest_variants_ptr tinfo lvp in
      let '(variant_ptr, variant_end) :=
        get_variant_sp rom (tables c) tinfo1 variant_id in
      let sub := set_align (make_sub c variant_ptr) false in
      r <- variant_size_loop fuel variant_end true sa_default sub ;;
      let variant_sa := fst r in
      let tinfo2 :=
        if size (tag_sa tinfo1) <? size variant_sa
        then set_tag_sa tinfo1 variant_sa else tinfo1 in
      largest_variants_loop fuel c n' tinfo2
  end.

Definition compute_tag_size (fuel : nat) (c : t) (tinfo : tag_info)
    : option tag_info :=
  if is_set (tag_sa tinfo) then Some tinfo
  else
    let '(n_largest_variants, lvp) :=
      get_u16_bump rom (largest_variants_ptr tinfo) in
    let tinfo1 := set_tag_sa (set_largest_variants_ptr tinfo lvp) (mk_sa 0 0) in
    tinfo2 <- largest_variants_loop fuel c (Z.to_nat n_largest_variants) tinfo1 ;;
    if variant_count tinfo2 =? 1 then
      if size (tag_sa tinfo2) =? 0
      then Some (set_tag_sa tinfo2 (mk_sa 1 1))
      else Some tinfo2
    else
      Some (set_tag_sa tinfo2
              (sa_add (tag_sa tinfo2) (sizeof_tag_variant_t tgt)
                 (alignof_tag_align_t tgt))).

(** [walk_tag1] hands the tag to the static [compute_tag_size], which sizes
    it on a copy of the walker, and takes the tag's pair as its own. *)
Definition walk_tag1 (fuel : nat) (tinfo : tag_info) (c : t)
    : option (tag_info * t) :=
  tinfo1 <- compute_tag_size fuel c tinfo ;;
  Some (tinfo1, set_sa c (tag_sa tinfo1)).

End Walkers.

(** Modelled from the spec: [ctxt<T>::walk] is declared in rust_shape.h.
    It reads the opcode at the cursor and dispatches on its class; for
    size-of, a number has the size and alignment of its type, indirections,
    vectors and type-descriptor slots are one pointer, function and object
    values and slices are a pair of pointers, a fixed vector is its count
    times its element, and structs and tags go to [walk_struct1] and
    [walk_tag1].  Sizing a resource or an unboxed vector aborts. *)
Fixpoint walk (tgt : target) (rom : shape_mem) (fuel : nat) (c : t)
    : option t :=
  match fuel with
  | O => None
  | S fuel' =>
      op <- decode (get_u8 rom (sp c)) ;;
      let c := set_sp c (sp c + 1) in
      let pointers n :=
        mk_sa (n * sizeof_ptr tgt) (alignof_ptr tgt) in
      match op with
      | SHAPE_NUMBER k =>
          Some (set_sa c (mk_sa (sizeof_number k) (alignof_number tgt k)))
      | SHAPE_STRUCT =>
          let '(body, end_sp) := delimited rom (sp c) in
          c1 <- walk_struct1 (walk tgt rom fuel') fuel' end_sp (set_sp c body) ;;
          Some (set_sp c1 end_sp)
      | SHAPE_TAG =>
          let '(tinfo, p1) := read_tag_info rom (tables c) (sp c) in
          r <- walk_tag1 tgt rom (walk tgt rom fuel') fuel' tinfo (set_sp c p1) ;;
          Some (snd r)
      | SHAPE_BOX | SHAPE_UNIQ | SHAPE_RPTR | SHAPE_TRAIT =>
          let '(_, end_sp) := delimited rom (sp c) in
          Some (set_sp (set_sa c (pointers 1)) end_sp)
      | SHAPE_VEC =>
          let '(_, end_sp) := delimited rom (sp c + 1) in
          Some (set_sp (set_sa c (pointers 1)) end_sp)
      | SHAPE_SLICE =>
          let '(_, end_sp) := delimited rom (sp c + 2) in
          Some (set_sp (set_sa c (pointers 2)) end_sp)
      | SHAPE_FIXEDVEC =>
          let '(n_elts, p1) := get_u16_bump rom (sp c) in
          let '(body, end_sp) := delimited rom (p1 + 1) in
          sub <- walk tgt rom fuel' (make_sub c body) ;;
          Some (set_sp
                  (set_sa c (mk_sa (size (sa sub) * n_elts) (alignment (sa sub))))
                  end_sp)
      | SHAPE_FN | SHAPE_OBJ => Some (set_sa c (pointers 2))
      | SHAPE_TYDESC => Some (set_sa c (pointers 1))
      | SHAPE_RES | SHAPE_UNBOXED_VEC => None
      end
  end.

(** The static [size_of::compute_tag_size(other_cx, tinfo)] that the data
    walkers call: the tag is sized by a size-of walker made from the
    caller's tables. *)
Definition compute_tag_size_for (tgt : target) (rom : shape_mem) (fuel : nat)
    (tb : rust_shape_tables) (tinfo : tag_info) : option tag_info :=
  compute_tag_size tgt rom (walk tgt rom fuel) fuel
    (mk 0 tb false sa_default) tinfo.

End size_of.

(** *** A struct of a byte and a 32-bit word

    The shape [struct { u8, u32 }]: opcode 17, the length 2 of the body,
    then the two field opcodes. *)
Definition shape_u8_u32 : shape_mem := [17; 2; 0; 0; 2].

(** The shape [struct { struct { u64, u8 }, u8 }]: the inner struct is the
    first field, of five shape bytes, and the body of the outer one has
    six. *)
Definition shape_nested : shape_mem := [17; 6; 0; 17; 2; 0; 3; 0; 0].

Definition no_tables : rust_shape_tables := mk_tables 0 0.

Definition size_of_start (tb : rust_shape_tables) (p : Z) : size_of.t :=
  size_of.mk p tb false sa_default.

(** *** Tagged unions in the side tables

    [tag_rom]: the stream is the single opcode [tag 0] at address 0; the
    tables start at address 3.  The tag's offset (2) leads to its info at
    address 5: one variant, the largest-variants table at offset 11, no
    precalculated size, and the offset (15) of variant 0, whose shape is the
    one field [u32].  [empty_tag_rom] is the same tag with a variant that
    has no field. *)
Definition tag_rom : shape_mem :=
  [12; 0; 0;
   2; 0;
   1; 0;  11; 0;  0; 0;  0;  15; 0;
   1; 0;  0; 0;
   1; 0;  2].

Definition empty_tag_rom : shape_mem :=
  [12; 0; 0;
   2; 0;
   1; 0;  11; 0;  0; 0;  0;  15; 0;
   1; 0;  0; 0;
   0; 0].

(** [two_variant_rom]: a tag with the two variants [u32] and [u32, u32],
    both listed in the largest-variants table (at offset 13). *)
Definition two_variant_rom : shape_mem :=
  [12; 0; 0;
   2; 0;
   2; 0;  13; 0;  0; 0;  0;  19; 0;  22; 0;
   2; 0;  0; 0;  1; 0;
   1; 0;  2;
   2; 0;  2; 2].

Definition tag_tables : rust_shape_tables := mk_tables 3 0.

(** The tags of the two memories, as [walk_tag0] reads them for the opcode
    at address 0. *)
Definition tag_rom_info : tag_info := fst (read_tag_info tag_rom tag_tables 1).

Definition empty_tag_rom_info : tag_info :=
  fst (read_tag_info empty_tag_rom tag_tables 1).

(** ** Live data *)

(** The memory that holds the instances: a byte at every address.  Data
    cursors are addresses into it. *)
Definition data_mem : Type := Z -> Z.

Definition load_u8 (m : data_mem) (a : Z) : Z := m a mod 256.

(** The [n] bytes at [a], little-endian, as an unsigned integer. *)
Fixpoint load_le (m : data_mem) (a : Z) (n : nat) : Z :=
  match n with
  | O => 0
  | S n' => load_u8 m a + 256 * load_le m (a + 1) n'
  end.

(** A [bits]-bit pattern read as a two's complement integer. *)
Definition to_signed (bits : Z) (x : Z) : Z :=
  let y := x mod 2 ^ bits in
  if y <? 2 ^ (bits - 1) then y else y - 2 ^ bits.

(** An IEEE 754 bit pattern with [mbits] mantissa bits and [ebits] exponent
    bits, as the value it denotes. *)
Definition float_of_bits (mbits ebits : Z) (x : Z) : spec_float :=
  let m := x mod 2 ^ mbits in
  let e := (x / 2 ^ mbits) mod 2 ^ ebits in
  let s := Z.odd (x / 2 ^ (mbits + ebits)) in
  let bias := 2 ^ (ebits - 1) - 1 in
  if e =? 0 then
    match m with
    | Zpos p => S754_finite s p (1 - bias - mbits)
    | _ => S754_zero s
    end
  else if e =? 2 ^ ebits - 1 then
    if m =? 0 then S754_infinity s else S754_nan
  else
    match m + 2 ^ mbits with
    | Zpos p => S754_finite s p (e - bias - mbits)
    | _ => S754_nan
    end.

(** A scalar read from memory: an integer or a floating-point value. *)
Inductive number : Type :=
  | Int (z : Z)
  | Float (f : spec_float).

Definition load_number (m : data_mem) (k : number_kind) (a : Z) : number :=
  let raw := load_le m a (Z.to_nat (sizeof_number k)) in
  match k with
  | U8 | U16 | U32 | U64 => Int raw
  | I8 | I16 | I32 | I64 => Int (to_signed (8 * sizeof_number k) raw)
  | F32 => Float (float_of_bits 23 8 raw)
  | F64 => Float (float_of_bits 52 11 raw)
  end.

(** [<] and [==] of the scalar types. *)
Definition number_ltb (x y : number) : bool :=
  match x, y with
  | Int a, Int b => a <? b
  | Float a, Float b => SFltb a b
  | _, _ => false
  end.

Definition number_eqb (x y : number) : bool :=
  match x, y with
  | Int a, Int b => a =? b
  | Float a, Float b => SFeqb a b
  | _, _ => false
  end.

(** ** The string case of the logger *)

Module log.

Definition quote_char : ascii := ascii_of_nat 34.
Definition backslash_char : ascii := ascii_of_nat 92.

Definition str1 (c : ascii) : string := String c EmptyString.
Definition str2 (c d : ascii) : string := String c (String d EmptyString).

(** [isprint] of the C library in the C locale: the bytes from the space to
    the tilde. *)
Definition isprint (b : Z) : bool := (32 <=? b) && (b <=? 126).

Definition hex_digit (d : Z) : ascii :=
  ascii_of_nat (Z.to_nat (if d <? 10 then 48 + d else 87 + d)).

(** [out << std::hex << std::setw(2) << std::setfill('0') << n] for the
    value of an unsigned char: lower-case digits, padded to two. *)
Definition hex2 (b : Z) : string :=
  str2 (hex_digit (b / 16)) (hex_digit (b mod 16)).

(** What one iteration of the loop of [walk_string2] sends to [out] for the
    byte [b]. *)
Definition escape_byte (b : Z) : string :=
  if b =? 10 then str2 backslash_char "n"
  else if b =? 13 then str2 backslash_char "r"
  else if b =? 9 then str2 backslash_char "t"
  else if b =? 92 then str2 backslash_char backslash_char
  else if b =? 34 then str2 backslash_char quote_char
  else if isprint b then str1 (ascii_of_nat (Z.to_nat b))
  else if negb (b =? 0) then (str2 backslash_char "x" ++ hex2 b)%string
  else EmptyString.

(** The loop [while (subdp < data.second)], [n] bytes before the end. *)
Fixpoint walk_string2_loop (m : data_mem) (subdp : Z) (n : nat)
    (out : string) : string :=
  match n with
  | O => out
  | S n' =>
      walk_string2_loop m (subdp + 1) n'
        (out ++ escape_byte (load_u8 m subdp))%string
  end.

(** [log::walk_string2]: [out] is the text written so far, the result the
    text after the call. *)
Definition walk_string2 (m : data_mem) (prefix : string) (data : Z * Z)
    (out : string) : string :=
  let out1 := (out ++ prefix ++ str1 quote_char)%string in
  let out2 :=
    walk_string2_loop m (fst data) (Z.to_nat (snd data - fst data)) out1 in
  (out2 ++ str1 quote_char)%string.

End log.

(** A memory that holds the bytes [bs] from address [base] on and zero
    elsewhere. *)
Definition mem_of_bytes (base : Z) (bs : list Z) : data_mem :=
  fun a => if a <? base then 0 else nth (Z.to_nat (a - base)) bs 0.

(** ** Structural comparison *)

(** Modelled from the spec: [ptr_pair] and [data_pair<T>] are declared in
    rust_shape.h.  A [ptr_pair] holds the two data cursors that compare
    advances in lockstep; it is before another one when both of its cursors
    are, so that a loop over two ranges stops at the end of the shorter. *)
Module ptr_pair.

Record t : Type := make { fst : Z; snd : Z }.

Definition add (p : t) (n : Z) : t := make (fst p + n) (snd p + n).

Definition lt (a b : t) : bool := (fst a <? fst b) && (snd a <? snd b).

Definition align_to (p : t) (n : Z) : t :=
  make (align_to (fst p) n) (align_to (snd p) n).

End ptr_pair.

Module data_pair.

Record t (T : Type) : Type := make { fst : T; snd : T }.

End data_pair.

(** The layout of vectors, slices and boxes in memory is fixed by headers
    that are not among the sources; the walkers take it as a parameter.
    Each range function is given the memory and the address of the value
    and returns the first and the past-the-end address of the elements;
    [box_body] maps the pointer stored in a box slot to the address of the
    box's contents. *)
Record layout : Type := mk_layout {
  get_vec_data_range : data_mem -> Z -> Z * Z;
  get_unboxed_vec_data_range : data_mem -> Z -> Z * Z;
  get_slice_data_range : bool -> data_mem -> Z -> Z * Z;
  box_body : Z -> Z
}.

(** The range function [f] on both cursors: the pair of the starts and the
    pair of the ends. *)
Definition pair_range (f : Z -> Z * Z) (dp : ptr_pair.t)
    : ptr_pair.t * ptr_pair.t :=
  let '(s0, e0) := f (ptr_pair.fst dp) in
  let '(s1, e1) := f (ptr_pair.snd dp) in
  (ptr_pair.make s0 s1, ptr_pair.make e0 e1).

(** Modelled from the spec: [get_fixedvec_data_range] is declared in
    rust_shape.h; a fixed vector is stored in place, [n_elts] elements of
    [elt_sz] bytes from the cursor on. *)
Definition get_fixedvec_data_range (n_elts elt_sz : Z) (dp : ptr_pair.t)
    : ptr_pair.t * ptr_pair.t :=
  (dp, ptr_pair.add dp (n_elts * elt_sz)).

Module cmp.

(** The members of [class cmp] and of its base [data<cmp,ptr_pair>]. *)
Record t : Type := mk {
  sp : Z;
  tables : rust_shape_tables;
  align : bool;
  dp : ptr_pair.t;
  end_dp : ptr_pair.t;
  result : Z
}.

Definition set_sp (c : t) (p : Z) : t :=
  mk p (tables c) (align c) (dp c) (end_dp c) (result c).
Definition set_align (c : t) (b : bool) : t :=
  mk (sp c) (tables c) b (dp c) (end_dp c) (result c).
Definition set_dp (c : t) (d : ptr_pair.t) : t :=
  mk (sp c) (tables c) (align c) d (end_dp c) (result c).
Definition set_end_dp (c : t) (d : ptr_pair.t) : t :=
  mk (sp c) (tables c) (align c) (dp c) d (result c).
Definition set_result (c : t) (r : Z) : t :=
  mk (sp c) (tables c) (align c) (dp c) (end_dp c) r.

Definition null_pair : ptr_pair.t := ptr_pair.make 0 0.

(** [cmp(task, in_align, in_sp, in_tables, in_data_0, in_data_1)]. *)
Definition make (in_align : bool) (in_sp : Z) (in_tables : rust_shape_tables)
    (in_data_0 in_data_1 : Z) : t :=
  mk in_sp in_tables in_align (ptr_pair.make in_data_0 in_data_1) null_pair 0.

(** [cmp(other, in_sp, in_tables, in_dp)]. *)
Definition make_at (other : t) (in_sp : Z) (in_tables : rust_shape_tables)
    (in_dp : ptr_pair.t) : t :=
  mk in_sp in_tables (align other) in_dp null_pair 0.

(** [cmp(other, in_sp)], with the default [in_tables = NULL]: the
    sub-walker at the shape address [in_sp].  [walk_variant2] passes the
    start of a variant's shape, which is an address of the shape memory and
    not the null pointer. *)
Definition make_sp (other : t) (in_sp : Z) : t :=
  mk in_sp (tables other) (align other) (dp other) null_pair 0.

(** [cmp(other, in_dp)]. *)
Definition make_dp (other : t) (in_dp : ptr_pair.t) : t :=
  mk (sp other) (tables other) (align other) in_dp null_pair 0.

(** [cmp_number]: the three-way comparison of a pair of scalars, written to
    [result].  The specialisation at [int32_t] has the same body. *)
Definition three_way (nums : data_pair.t number) : Z :=
  if number_ltb (data_pair.fst nums) (data_pair.snd nums) then -1
  else if number_eqb (data_pair.fst nums) (data_pair.snd nums) then 0
  else 1.

Definition cmp_number (nums : data_pair.t number) (c : t) : t :=
  set_result c (three_way nums).

(** A pair of integers (pointers, discriminants, lengths) as scalars. *)
Definition ints (p : data_pair.t Z) : data_pair.t number :=
  data_pair.make (Int (data_pair.fst p)) (Int (data_pair.snd p)).

Section Walkers.

Variable tgt : target.
Variable lay : layout.
Variable rom : shape_mem.
Variable m : data_mem.

(** Modelled from the spec: the macro [ALIGN_TO] is declared in
    rust_shape.h.  When the alignment flag is set it pads both data cursors
    up to the alignment; the flag is off before the first field or element
    of a walk. *)
Definition ALIGN_TO (al : Z) (c : t) : t :=
  if align c then set_dp c (ptr_pair.align_to (dp c) al) else c.

(** Modelled from the spec: [get_dp<T>] and [bump_dp<T>] are declared in
    rust_shape.h.  [get_dp] reads the scalar under each cursor; [bump_dp]
    also moves the cursors past it. *)
Definition get_dp (k : number_kind) (d : ptr_pair.t) : data_pair.t number :=
  data_pair.make (load_number m k (ptr_pair.fst d))
                 (load_number m k (ptr_pair.snd d)).

Definition load_word (n : Z) (a : Z) : Z := load_le m a (Z.to_nat n).

Definition bump_dp_word (n : Z) (c : t) : data_pair.t Z * t :=
  (data_pair.make (load_word n (ptr_pair.fst (dp c)))
                  (load_word n (ptr_pair.snd (dp c))),
   set_dp c (ptr_pair.add (dp c) n)).

Definition cmp_two_pointers (c : t) : t :=
  let c0 := ALIGN_TO (alignof_ptr tgt) c in
  let '(fst_words, c1) := bump_dp_word (sizeof_ptr tgt) c0 in
  let '(snd_words, c2) := bump_dp_word (sizeof_ptr tgt) c1 in
  let c3 := cmp_number (ints fst_words) c2 in
  if result c3 =? 0 then cmp_number (ints snd_words) c3 else c3.

Definition cmp_pointer (c : t) : t :=
  let c0 := ALIGN_TO (alignof_ptr tgt) c in
  let '(words, c1) := bump_dp_word (sizeof_ptr tgt) c0 in
  cmp_number (ints words) c1.

Definition walk_number2 (k : number_kind) (c : t) : t :=
  cmp_number (get_dp k (dp c)) c.

Definition walk_tydesc2 (c : t) : t := cmp_pointer c.
Definition walk_fn2 (c : t) : t := cmp_two_pointers c.
Definition walk_obj2 (c : t) : t := cmp_two_pointers c.

(** [walk_res2] looks at neither the destructor nor the end of the fields. *)
Definition walk_res2 (dtor : Z) (end_sp : Z) (c : t) : t :=
  cmp_two_pointers c.

(** [walk] of the traversal skeleton, at the fuel the caller has left. *)
Variable walk : t -> option t.

(** Modelled from the spec: [walk_reset] is declared in rust_shape.h; it
    walks one shape and puts the shape cursor back where it was, so that the
    next element is walked over the same shape. *)
Definition walk_reset (c : t) : option t :=
  c1 <- walk c ;;
  Some (set_sp c1 (sp c)).

(** On the sub-walker of a box, a unique box or a borrowed pointer. *)
Definition walk_box_contents2 (sub : t) (c : t) : option t :=
  sub1 <- walk (set_align sub true) ;;
  Some (set_result c (result sub1)).

Definition walk_uniq_contents2 := walk_box_contents2.
Definition walk_rptr_contents2 := walk_box_contents2.

(** The loop of [walk_struct2]. *)
Fixpoint walk_struct2 (fuel : nat) (end_sp : Z) (c : t) : option t :=
  if (result c =? 0) && negb (sp c =? end_sp) then
    match fuel with
    | O => None
    | S fuel' =>
        c1 <- walk c ;;
        walk_struct2 fuel' end_sp (set_align c1 true)
    end
  else Some c.

(** The loop of [walk_variant2]: [res] is [this->result], [sub] the
    sub-walker. *)
Fixpoint walk_variant2_loop (fuel : nat) (variant_end : Z) (res : Z)
    (sub : t) : option (Z * t) :=
  if (res =? 0) && (sp sub <? variant_end) then
    match fuel with
    | O => None
    | S fuel' =>
        sub1 <- walk sub ;;
        walk_variant2_loop fuel' variant_end (result sub1) (set_align sub1 true)
    end
  else Some (res, sub).

Definition walk_variant2 (fuel : nat) (tinfo : tag_info) (variant_id : Z)
    (variant_ptr_and_end : Z * Z) (c : t) : option t :=
  let sub := make_sp c (fst variant_ptr_and_end) in
  let variant_end := snd variant_ptr_and_end in
  r <- walk_variant2_loop fuel variant_end (result c) sub ;;
  Some (set_result c (fst r)).

(** Modelled from the spec: [data<T,U>::walk_variant1] is declared in
    rust_shape.h; it resolves the variant through the tables and hands its
    range to [walk_variant2]. *)
Definition walk_variant1 (fuel : nat) (tinfo : tag_info) (variant_id : Z)
    (c : t) : option t :=
  walk_variant2 fuel tinfo variant_id
    (get_variant_sp rom (tables c) tinfo variant_id) c.

Definition walk_tag2 (fuel : nat) (tinfo : tag_info)
    (tag_variants : data_pair.t Z) (c : t) : option t :=
  let c1 := cmp_number (ints tag_variants) c in
  if negb (result c1 =? 0) then Some c1
  else walk_variant1 fuel tinfo (data_pair.fst tag_variants) c1.

(** The loop of [walk_vec2]: [res] is [this->result]. *)
Fixpoint walk_vec2_loop (fuel : nat) (data_end : ptr_pair.t) (res : Z)
    (sub : t) : option (Z * t) :=
  if (res =? 0) && ptr_pair.lt (dp sub) data_end then
    match fuel with
    | O => None
    | S fuel' =>
        sub1 <- walk_reset sub ;;
        walk_vec2_loop fuel' data_end (result sub1) (set_align sub1 true)
    end
  else Some (res, sub).

(** [int len = second - first]: the difference of the pointers, kept in 32
    bits. *)
Definition int_of_ptrdiff (d : Z) : Z := to_signed 32 d.

Definition walk_vec2 (fuel : nat) (is_pod : bool)
    (data_range : ptr_pair.t * ptr_pair.t) (c : t) : option t :=
  let sub := make_dp c (fst data_range) in
  let data_end := snd data_range in
  let sub := set_end_dp sub data_end in
  r <- walk_vec2_loop fuel data_end (result c) sub ;;
  let c1 := set_result c (fst r) in
  if result c1 =? 0 then
    let len_fst :=
      int_of_ptrdiff (ptr_pair.fst (snd data_range) - ptr_pair.fst (fst data_range)) in
    let len_snd :=
      int_of_ptrdiff (ptr_pair.snd (snd data_range) - ptr_pair.snd (fst data_range)) in
    Some (cmp_number (ints (data_pair.make len_fst len_snd)) c1)
  else Some c1.

Definition walk_vec2_boxed (fuel : nat) (is_pod : bool) (c : t) : option t :=
  walk_vec2 fuel is_pod (pair_range (get_vec_data_range lay m) (dp c)) c.

Definition walk_unboxed_vec2 (fuel : nat) (is_pod : bool) (c : t) : option t :=
  walk_vec2 fuel is_pod (pair_range (get_unboxed_vec_data_range lay m) (dp c)) c.

Definition walk_slice2 (fuel : nat) (is_pod is_str : bool) (c : t) : option t :=
  walk_vec2 fuel is_pod (pair_range (get_slice_data_range lay is_str m) (dp c)) c.

Definition walk_fixedvec2 (fuel : nat) (n_elts elt_sz : Z) (is_pod : bool)
    (c : t) : option t :=
  walk_vec2 fuel is_pod (get_fixedvec_data_range n_elts elt_sz (dp c)) c.

End Walkers.

(** Modelled from the spec: [ctxt<T>::walk] and the [walk_*1] members of
    [data<T,U>] are declared in rust_shape.h.  [walk] reads the opcode at
    the shape cursor and dispatches on its class.  A scalar, a function or
    object value and a type-descriptor slot are aligned, compared and
    skipped; a struct, a tag and a resource go to the operation, after which
    the shape cursor is put at the declared end; a tag is sized first, its
    discriminant read when it has more than one variant, and the data
    cursors put at its end; a vector, slice or fixed vector has its element
    range computed and handed to the operation; a box is dereferenced once
    and its contents walked by a sub-walker over the pointee shape. *)
Fixpoint walk (tgt : target) (lay : layout) (rom : shape_mem) (m : data_mem)
    (fuel : nat) (c : t) : option t :=
  match fuel with
  | O => None
  | S fuel' =>
      let walk' := walk tgt lay rom m fuel' in
      op <- decode (get_u8 rom (sp c)) ;;
      let c := set_sp c (sp c + 1) in
      match op with
      | SHAPE_NUMBER k =>
          let c0 := ALIGN_TO (alignof_number tgt k) c in
          let next_dp := ptr_pair.add (dp c0) (sizeof_number k) in
          Some (set_dp (walk_number2 m k c0) next_dp)
      | SHAPE_STRUCT =>
          let '(body, end_sp) := delimited rom (sp c) in
          c1 <- walk_struct2 walk' fuel' end_sp (set_sp c body) ;;
          Some (set_sp c1 end_sp)
      | SHAPE_TAG =>
          let '(tinfo, p1) := read_tag_info rom (tables c) (sp c) in
          let c := set_sp c p1 in
          tinfo1 <- size_of.compute_tag_size_for tgt rom fuel' (tables c) tinfo ;;
          let has_tag := 1 <? variant_count tinfo1 in
          let c0 := if has_tag then ALIGN_TO (alignof_tag_align_t tgt) c else c in
          let next_dp := ptr_pair.add (dp c0) (size (tag_sa tinfo1)) in
          let '(tag_variant, c1) :=
            if has_tag then bump_dp_word m (sizeof_tag_variant_t tgt) c0
            else (data_pair.make 0 0, c0) in
          c2 <- walk_tag2 rom walk' fuel' tinfo1 tag_variant c1 ;;
          Some (set_dp c2 next_dp)
      | SHAPE_BOX | SHAPE_UNIQ | SHAPE_RPTR | SHAPE_TRAIT =>
          let '(body, end_sp) := delimited rom (sp c) in
          let c0 := ALIGN_TO (alignof_ptr tgt) (set_sp c body) in
          let next_dp := ptr_pair.add (dp c0) (sizeof_ptr tgt) in
          let '(box_ptr, c1) := bump_dp_word m (sizeof_ptr tgt) c0 in
          let body_dp :=
            ptr_pair.make (box_body lay (data_pair.fst box_ptr))
                          (box_body lay (data_pair.snd box_ptr)) in
          let sub := make_at c1 (sp c1) (tables c1) body_dp in
          c2 <- walk_box_contents2 walk' sub c1 ;;
          Some (set_sp (set_dp c2 next_dp) end_sp)
      | SHAPE_VEC =>
          let is_pod := negb (get_u8 rom (sp c) =? 0) in
          let '(body, end_sp) := delimited rom (sp c + 1) in
          let c0 := ALIGN_TO (alignof_ptr tgt) (set_sp c body) in
          let next_dp := ptr_pair.add (dp c0) (sizeof_ptr tgt) in
          c1 <- walk_vec2_boxed lay m walk' fuel' is_pod c0 ;;
          Some (set_sp (set_dp c1 next_dp) end_sp)
      | SHAPE_UNBOXED_VEC =>
          let is_pod := negb (get_u8 rom (sp c) =? 0) in
          let '(body, end_sp) := delimited rom (sp c + 1) in
          let c0 := set_sp c body in
          let next_dp :=
            snd (pair_range (get_unboxed_vec_data_range lay m) (dp c0)) in
          c1 <- walk_unboxed_vec2 lay m walk' fuel' is_pod c0 ;;
          Some (set_sp (set_dp c1 next_dp) end_sp)
      | SHAPE_SLICE =>
          let is_pod := negb (get_u8 rom (sp c) =? 0) in
          let is_str := negb (get_u8 rom (sp c + 1) =? 0) in
          let '(body, end_sp) := delimited rom (sp c + 2) in
          let c0 := ALIGN_TO (alignof_ptr tgt) (set_sp c body) in
          let next_dp := ptr_pair.add (dp c0) (2 * sizeof_ptr tgt) in
          c1 <- walk_slice2 lay m walk' fuel' is_pod is_str c0 ;;
          Some (set_sp (set_dp c1 next_dp) end_sp)
      | SHAPE_FIXEDVEC =>
          let '(n_elts, p1) := get_u16_bump rom (sp c) in
          let is_pod := negb (get_u8 rom p1 =? 0) in
          let '(body, end_sp) := delimited rom (p1 + 1) in
          elt <- size_of.walk tgt rom fuel'
                   (size_of.mk body (tables c) false sa_default) ;;
          let elt_sa := size_of.sa elt in
          let c0 := ALIGN_TO (alignment elt_sa) (set_sp c body) in
          let next_dp := ptr_pair.add (dp c0) (n_elts * size elt_sa) in
          c1 <- walk_fixedvec2 walk' fuel' n_elts (size elt_sa) is_pod c0 ;;
          Some (set_sp (set_dp c1 next_dp) end_sp)
      | SHAPE_FN =>
          let c0 := ALIGN_TO (alignof_ptr tgt) c in
          let next_dp := ptr_pair.add (dp c0) (2 * sizeof_ptr tgt) in
          Some (set_dp (walk_fn2 tgt m c0) next_dp)
      | SHAPE_OBJ =>
          let c0 := ALIGN_TO (alignof_ptr tgt) c in
          let next_dp := ptr_pair.add (dp c0) (2 * sizeof_ptr tgt) in
          Some (set_dp (walk_obj2 tgt m c0) next_dp)
      | SHAPE_TYDESC =>
          let c0 := ALIGN_TO (alignof_ptr tgt) c in
          let next_dp := ptr_pair.add (dp c0) (sizeof_ptr tgt) in
          Some (set_dp (walk_tydesc2 tgt m c0) next_dp)
      | SHAPE_RES =>
          let '(dtor, p1) := get_u16_bump rom (sp c) in
          let '(body, end_sp) := delimited rom p1 in
          Some (set_sp (walk_res2 tgt m dtor end_sp (set_sp c body)) end_sp)
      end
  end.

End cmp.

(** ** The entry point *)

Definition CMP_EQ : Z := 0.
Definition CMP_LT : Z := 1.
Definition CMP_LE : Z := 2.

(** The two members of [type_desc] that the walk reads. *)
Record type_desc : Type := mk_tydesc {
  shape : Z;
  shape_tables : rust_shape_tables
}.

Definition Z_of_bool (b : bool) : Z := if b then 1 else 0.

(** [shape_cmp_type]: [old] is the byte that [result] points to before the
    call, the value returned is that byte after it. *)
Definition shape_cmp_type (tgt : target) (lay : layout) (rom : shape_mem)
    (m : data_mem) (fuel : nat) (old : Z) (tydesc : type_desc)
    (data_0 data_1 : Z) (cmp_type : Z) : option Z :=
  c <- cmp.walk tgt lay rom m fuel
         (cmp.make true (shape tydesc) (shape_tables tydesc) data_0 data_1) ;;
  Some (if cmp_type =? CMP_EQ then Z_of_bool (cmp.result c =? 0)
        else if cmp_type =? CMP_LT then Z_of_bool (cmp.result c <? 0)
        else if cmp_type =? CMP_LE then Z_of_bool (cmp.result c <=? 0)
        else old).

(** *** A sample layout

    Vectors are a pointer to a block that starts with the 8-byte count of
    bytes in use followed by the elements; an unboxed vector is that block
    in place; a slice is a pointer and a byte count, which for strings
    counts a terminator that is not part of the range; a box's contents
    follow a header of one word. *)
Definition word64 (m : data_mem) (a : Z) : Z := load_le m a 8.

Definition layout64 : layout :=
  mk_layout
    (fun m a => let p := word64 m a in (p + 8, p + 8 + word64 m p))
    (fun m a => (a + 8, a + 8 + word64 m a))
    (fun is_str m a =>
       let p := word64 m a in
       (p, p + word64 m (a + 8) - (if is_str then 1 else 0)))
    (fun p => p + 8).

(** The shape [vec of u8]: opcode 11, the flag [is_pod], the length 1 of the
    element shape, and the element opcode. *)
Definition shape_vec_u8 : shape_mem := [11; 1; 1; 0; 0].

(** Two vector slots, at addresses 0 and 8, that point to the blocks at 16
    and 32; the blocks hold the byte vectors [xs] and [ys]. *)
Definition two_vecs (xs ys : list Z) : data_mem :=
  fun a =>
    if a =? 0 then 16
    else if a =? 8 then 32
    else if a =? 16 then Z.of_nat (List.length xs)
    else if a =? 32 then Z.of_nat (List.length ys)
    else if (24 <=? a) && (a <? 32) then nth (Z.to_nat (a - 24)) xs 0
    else if 40 <=? a then nth (Z.to_nat (a - 40)) ys 0
    else 0.

Definition tydesc_vec_u8 : type_desc := mk_tydesc 0 no_tables.


Unset Implicit Arguments.

(** ** The logger's aggregates *)

(** The members of [class log] beside the string case: the walker of
    [data<log,ptr>] with its one data cursor, the separator [prefix] that
    is written before a value, and the text written so far to the stream
    [out].  The stream is a reference that a sub-walker shares with its
    maker: a sub-walker starts from the maker's text, and the maker goes on
    from the sub-walker's. *)
Module log_data.

Local Open Scope string_scope.
Local Open Scope Z_scope.

Record t : Type := mk {
  sp : Z;
  tables : rust_shape_tables;
  align : bool;
  dp : Z;
  end_dp : Z;
  prefix : string;
  out : string
}.

Definition set_sp (c : t) (p : Z) : t :=
  mk p (tables c) (align c) (dp c) (end_dp c) (prefix c) (out c).
Definition set_align (c : t) (b : bool) : t :=
  mk (sp c) (tables c) b (dp c) (end_dp c) (prefix c) (out c).
Definition set_dp (c : t) (d : Z) : t :=
  mk (sp c) (tables c) (align c) d (end_dp c) (prefix c) (out c).
Definition set_end_dp (c : t) (d : Z) : t :=
  mk (sp c) (tables c) (align c) (dp c) d (prefix c) (out c).
Definition set_prefix (c : t) (s : string) : t :=
  mk (sp c) (tables c) (align c) (dp c) (end_dp c) s (out c).
Definition set_out (c : t) (s : string) : t :=
  mk (sp c) (tables c) (align c) (dp c) (end_dp c) (prefix c) s.

(** [out << s]. *)
Definition put (c : t) (s : string) : t := set_out c (out c ++ s).

(** Modelled from the spec: the constructors of [log] are declared in
    rust_shape.h.  As those of [cmp], [log sub(other, in_dp)] copies the
    shape cursor and replaces the data cursor, and [log sub(other, in_sp)]
    replaces the shape cursor by the start of a variant's shape, which is
    an address of the shape memory and not the null pointer; the stream is
    shared and the sub-walker's separator is empty, the first member of an
    aggregate being written without one. *)
Definition make_dp (other : t) (in_dp : Z) : t :=
  mk (sp other) (tables other) (align other) in_dp 0 EmptyString (out other).

Definition make_sp (other : t) (in_sp : Z) : t :=
  mk in_sp (tables other) (align other) (dp other) 0 EmptyString (out other).

Section Walkers.

Variable rom : shape_mem.
Variable m : data_mem.

(** [walk] of the traversal skeleton, at the fuel the caller has left. *)
Variable walk : t -> option t.

(** Modelled from the spec: [walk_reset], as for [cmp]. *)
Definition walk_reset (c : t) : option t :=
  c1 <- walk c ;;
  Some (set_sp c1 (sp c)).

(** The loop [while (sp != end_sp)] that [walk_struct2] and [walk_res2]
    both have, with the same text. *)
Fixpoint walk_fields (fuel : nat) (end_sp : Z) (first : bool) (c : t)
    : option t :=
  if sp c =? end_sp then Some c
  else
    match fuel with
    | O => None
    | S fuel' =>
        let c0 := if first then c else put c ", " in
        c1 <- walk c0 ;;
        walk_fields fuel' end_sp false (set_align c1 true)
    end.

Definition walk_struct2 (fuel : nat) (end_sp : Z) (c : t) : option t :=
  let c0 := set_prefix (put (put c (prefix c)) "(") EmptyString in
  c1 <- walk_fields fuel end_sp true c0 ;;
  Some (put c1 ")").

Definition walk_res2 (fuel : nat) (dtor : Z) (end_sp : Z) (c : t)
    : option t :=
  let c0 := put (put c (prefix c)) "res" in
  if sp c0 =? end_sp then Some c0
  else
    c1 <- walk_fields fuel end_sp true (put c0 "(") ;;
    Some (put c1 ")").

(** Modelled from the spec: [peek] is declared in rust_shape.h; it reads
    the opcode under the shape cursor without consuming it. *)
Definition peek_is_u8 (c : t) : bool :=
  match decode (get_u8 rom (sp c)) with
  | Some (SHAPE_NUMBER U8) => true
  | _ => false
  end.

(** The loop of [walk_vec2] over the elements, on the sub-walker. *)
Fixpoint walk_elements (fuel : nat) (data_end : Z) (sub : t) : option t :=
  if dp sub <? data_end then
    match fuel with
    | O => None
    | S fuel' =>
        sub1 <- walk_reset sub ;;
        walk_elements fuel' data_end
          (set_prefix (set_align sub1 true) ", ")
    end
  else Some sub.

Definition walk_vec2 (fuel : nat) (is_pod : bool) (data : Z * Z) (c : t)
    : option t :=
  if peek_is_u8 c then
    let c0 := set_sp c (sp c + 1) in
    Some (set_out c0 (log.walk_string2 m (prefix c0) data (out c0)))
  else
    let c0 := put (put c (prefix c)) "[" in
    let sub := set_end_dp (make_dp c0 (fst data)) (snd data) in
    sub1 <- walk_elements fuel (snd data) sub ;;
    Some (put (set_out c0 (out sub1)) "]").

(** The loop of [walk_variant2], on the sub-walker. *)
Fixpoint walk_variant_fields (fuel : nat) (variant_end : Z) (first : bool)
    (sub : t) : option (bool * t) :=
  if sp sub <? variant_end then
    match fuel with
    | O => None
    | S fuel' =>
        sub1 <- walk (put sub (if first then "(" else ", ")) ;;
        walk_variant_fields fuel' variant_end false (set_align sub1 true)
    end
  else Some (first, sub).

Definition walk_variant2 (fuel : nat) (tinfo : tag_info) (variant_id : Z)
    (variant_ptr_and_end : Z * Z) (c : t) : option t :=
  let sub := make_sp c (fst variant_ptr_and_end) in
  r <- walk_variant_fields fuel (snd variant_ptr_and_end) true sub ;;
  let c1 := set_out c (out (snd r)) in
  Some (if fst r then c1 else put c1 ")").

End Walkers.

End log_data.

(** ** The shape printer *)

(** [class print], the debugging printer of shapes: it has no data cursor,
    and [DPRINT] writes to the debugging sink, whose text so far is
    [out]. *)
Module print.

Local Open Scope string_scope.
Local Open Scope Z_scope.

Record t : Type := mk {
  sp : Z;
  tables : rust_shape_tables;
  out : string
}.

Definition set_sp (c : t) (p : Z) : t := mk p (tables c) (out c).

(** [DPRINT(s)] for a format without conversions. *)
Definition DPRINT (c : t) (s : string) : t := mk (sp c) (tables c) (out c ++ s).

Section Walkers.

(** The conversions [%u] and [%p] of the C library. *)
Variable fmt_u : Z -> string.
Variable fmt_p : Z -> string.

Variable walk : t -> option t.

Definition walk_tag1 (tinfo : tag_info) (c : t) : t :=
  DPRINT c ("tag" ++ fmt_u (tag_id tinfo)).

(** The loop [while (sp != end_sp)] that [walk_struct1] and [walk_res1]
    both have. *)
Fixpoint walk_fields (fuel : nat) (end_sp : Z) (first : bool) (c : t)
    : option t :=
  if sp c =? end_sp then Some c
  else
    match fuel with
    | O => None
    | S fuel' =>
        let c0 := if first then c else DPRINT c "," in
        c1 <- walk c0 ;;
        walk_fields fuel' end_sp false c1
    end.

Definition walk_struct1 (fuel : nat) (end_sp : Z) (c : t) : option t :=
  c1 <- walk_fields fuel end_sp true (DPRINT c "(") ;;
  Some (DPRINT c1 ")").

Definition walk_res1 (fuel : nat) (dtor : Z) (end_sp : Z) (c : t)
    : option t :=
  let c0 := DPRINT c ("res@" ++ fmt_p dtor) in
  if sp c0 =? end_sp then Some c0
  else
    c1 <- walk_fields fuel end_sp true (DPRINT c0 "(") ;;
    Some (DPRINT c1 ")").

Definition walk_number1 (k : number_kind) (c : t) : t :=
  DPRINT c
    match k with
    | U8 => "u8" | U16 => "u16" | U32 => "u32" | U64 => "u64"
    | I8 => "i8" | I16 => "i16" | I32 => "i32" | I64 => "i64"
    | F32 => "f32" | F64 => "f64"
    end.

End Walkers.

End print.

(** * Reference definitions

    Definitions that follow the wording of the specification, to be
    compared with the walkers above. *)

Unset Implicit Arguments.

(** A size-of walker over a given list of fields: with the cursor at [i] it
    reports the [i]-th pair of [fields] and moves to [i + 1]. *)
Definition field_walker (fields : list size_align) (c : size_of.t)
    : option size_of.t :=
  if size_of.sp c <? 0 then None
  else
    match nth_error fields (Z.to_nat (size_of.sp c)) with
    | Some f => Some (size_of.set_sa (size_of.set_sp c (size_of.sp c + 1)) f)
    | None => None
    end.

Fixpoint map_option {A B : Type} (f : A -> option B) (l : list A)
    : option (list B) :=
  match l with
  | [] => Some []
  | a :: l' =>
      b <- f a ;;
      bs <- map_option f l' ;;
      Some (b :: bs)
  end.

(** The size of a tagged union, as the specification words it, but for the
    layout of a variant, which [variant_as_struct] takes from the struct
    loop of the code; [tag_rule_spec] below lays the variant out by the
    combination rule of the specification instead. *)
Module tag_size_spec.

Section Spec.

Variable tgt : target.
Variable rom : shape_mem.
Variable walk : size_of.t -> option size_of.t.

(** The [n] ids of the largest-variants table whose entries start at [p]. *)
Fixpoint table_ids (p : Z) (n : nat) : list Z :=
  match n with
  | O => []
  | S n' => get_u16 rom p :: table_ids (p + 2) n'
  end.

(** The variant [id] sized as the code sizes a struct over its fields, by
    [size_of.walk_struct1]. *)
Definition variant_as_struct (fuel : nat) (c : size_of.t) (tinfo : tag_info)
    (id : Z) : option size_align :=
  let '(variant_ptr, variant_end) :=
    get_variant_sp rom (size_of.tables c) tinfo id in
  c1 <- size_of.walk_struct1 walk fuel variant_end
          (size_of.set_align (size_of.make_sub c variant_ptr) false) ;;
  Some (size_of.sa c1).

(** Keep the strictly larger of the two, by size. *)
Definition keep_larger (best v : size_align) : size_align :=
  if size best <? size v then v else best.

(** The largest payload among the variants that the table lists. *)
Definition largest_payload (fuel : nat) (c : size_of.t) (tinfo : tag_info)
    : option size_align :=
  let n := get_u16 rom (largest_variants_ptr tinfo) in
  let ids := table_ids (largest_variants_ptr tinfo + 2) (Z.to_nat n) in
  sas <- map_option (variant_as_struct fuel c tinfo) ids ;;
  Some (fold_left keep_larger sas (mk_sa 0 0)).

Definition tag_size (fuel : nat) (c : size_of.t) (tinfo : tag_info)
    : option size_align :=
  if is_set (tag_sa tinfo) then Some (tag_sa tinfo)
  else
    payload <- largest_payload fuel c tinfo ;;
    Some (if variant_count tinfo =? 1 then
            if size payload =? 0 then mk_sa 1 1 else payload
          else
            sa_add payload (sizeof_tag_variant_t tgt) (alignof_tag_align_t tgt)).

End Spec.

End tag_size_spec.

(** The combination rule of the specification: pad the running size up to
    a multiple of the incoming alignment, add the incoming size, take the
    larger of the alignments. *)
Definition sa_combine (acc f : size_align) : size_align :=
  mk_sa (align_to (size acc) (alignment f) + size f)
        (Z.max (alignment acc) (alignment f)).

(** A struct over fields of the given sizes and alignments: the fields are
    accumulated by the combination rule from (0, 1). *)
Definition struct_by_rule (fs : list size_align) : size_align :=
  fold_left sa_combine fs (mk_sa 0 1).

(** The size of a tagged union, as the specification words it: as
    [tag_size_spec.tag_size], with every variant sized as a struct over its
    fields by the combination rule. *)
Module tag_rule_spec.

Section Spec.

Variable tgt : target.
Variable rom : shape_mem.
Variable walk : size_of.t -> option size_of.t.

(** The sizes and alignments that the walker reports for the fields from
    the cursor to [end_sp]. *)
Fixpoint field_sizes (fuel : nat) (end_sp : Z) (c : size_of.t)
    : option (list size_align) :=
  if size_of.sp c =? end_sp then Some []
  else
    match fuel with
    | O => None
    | S fuel' =>
        c1 <- walk c ;;
        fs <- field_sizes fuel' end_sp (size_of.set_align c1 true) ;;
        Some (size_of.sa c1 :: fs)
    end.

Definition variant_by_rule (fuel : nat) (c : size_of.t) (tinfo : tag_info)
    (id : Z) : option size_align :=
  let '(variant_ptr, variant_end) :=
    get_variant_sp rom (size_of.tables c) tinfo id in
  fs <- field_sizes fuel variant_end
          (size_of.set_align (size_of.make_sub c variant_ptr) false) ;;
  Some (struct_by_rule fs).

Definition largest_payload (fuel : nat) (c : size_of.t) (tinfo : tag_info)
    : option size_align :=
  let n := get_u16 rom (largest_variants_ptr tinfo) in
  let ids :=
    tag_size_spec.table_ids rom (largest_variants_ptr tinfo + 2) (Z.to_nat n) in
  sas <- map_option (variant_by_rule fuel c tinfo) ids ;;
  Some (fold_left tag_size_spec.keep_larger sas (mk_sa 0 0)).

Definition tag_size (fuel : nat) (c : size_of.t) (tinfo : tag_info)
    : option size_align :=
  if is_set (tag_sa tinfo) then Some (tag_sa tinfo)
  else
    payload <- largest_payload fuel c tinfo ;;
    Some (if variant_count tinfo =? 1 then
            if size payload =? 0 then mk_sa 1 1 else payload
          else
            sa_add payload (sizeof_tag_variant_t tgt) (alignof_tag_align_t tgt)).

End Spec.

End tag_rule_spec.

(** [byte_word_tag_rom]: the tag of [tag_rom] with the single variant
    [u8, u64], whose shape is at address 20.  [byte_word_pair] holds two
    instances of it, at the addresses 0 and 16: the byte 7 and, from the
    offset 8 on, a 64-bit word that differs in its last byte, 1 in the
    first instance and 2 in the second. *)
Definition byte_word_tag_rom : shape_mem :=
  [12; 0; 0;
   2; 0;
   1; 0;  11; 0;  0; 0;  0;  15; 0;
   1; 0;  0; 0;
   2; 0;  0; 3].

Definition byte_word_tag_info : tag_info :=
  fst (read_tag_info byte_word_tag_rom tag_tables 1).

Definition byte_word_pair : data_mem :=
  mem_of_bytes 0
    [7; 0; 0; 0; 0; 0; 0; 0;  0; 0; 0; 0; 0; 0; 0; 1;
     7; 0; 0; 0; 0; 0; 0; 0;  0; 0; 0; 0; 0; 0; 0; 2].

(** The rendering of a byte-vector, as the specification words it, with the
    zero byte set apart. *)
Module log_spec.

Import log.

(** The bytes that have a two-character escape, with the character that
    follows the backslash. *)
Definition two_char_escapes : list (Z * ascii) :=
  [(10, "n"%char); (13, "r"%char); (9, "t"%char);
   (92, backslash_char); (34, quote_char)].

Fixpoint lookup (b : Z) (l : list (Z * ascii)) : option ascii :=
  match l with
  | [] => None
  | (k, c) :: l' => if b =? k then Some c else lookup b l'
  end.

Definition hex_digits : list ascii :=
  list_ascii_of_string "0123456789abcdef".

Definition digit (d : Z) : ascii := nth (Z.to_nat d) hex_digits "0"%char.

Definition printable (b : Z) : bool := (32 <=? b) && (b <=? 126).

Definition render_byte (b : Z) : string :=
  match lookup b two_char_escapes with
  | Some c => str2 backslash_char c
  | None =>
      if printable b then str1 (ascii_of_nat (Z.to_nat b))
      else if b =? 0 then EmptyString
      else String backslash_char
             (String "x"%char (str2 (digit (b / 16)) (digit (b mod 16))))
  end.

Definition flatten (l : list string) : string :=
  fold_right append EmptyString l.

(** The [n] bytes of the memory from [a] on. *)
Fixpoint data_bytes (m : data_mem) (a : Z) (n : nat) : list Z :=
  match n with
  | O => []
  | S n' => load_u8 m a :: data_bytes m (a + 1) n'
  end.

Definition render (bs : list Z) : string :=
  (str1 quote_char ++ flatten (map render_byte bs) ++ str1 quote_char)%string.

End log_spec.

(** The bytes ['A'], newline, double quote, at address 100. *)
Definition sample_string : data_mem := mem_of_bytes 100 [65; 10; 34].

(** A single zero byte, at address 100. *)
Definition nul_string : data_mem := mem_of_bytes 100 [0].

(** The order of two word pairs, first words first: [a1] and [a2] are the
    words of the first instance, [b1] and [b2] those of the second. *)
Definition word_pair_order (a1 b1 a2 b2 : Z) : Z :=
  match a1 ?= b1 with
  | Lt => -1
  | Gt => 1
  | Eq => match a2 ?= b2 with Lt => -1 | Eq => 0 | Gt => 1 end
  end.

(** The shape of a resource with destructor 0 and one trailing [u8] field:
    opcode 20, the destructor's index, the length 1 of the fields, the
    field. *)
Definition shape_res_u8 : shape_mem := [20; 0; 0; 1; 0; 0].

(** Two resources, at addresses 0 and 24, with the same two words (7, 9)
    and different trailing bytes (1 and 2). *)
Definition two_resources : data_mem :=
  mem_of_bytes 0
    [7; 0; 0; 0; 0; 0; 0; 0;  9; 0; 0; 0; 0; 0; 0; 0;  1; 0; 0; 0; 0; 0; 0; 0;
     7; 0; 0; 0; 0; 0; 0; 0;  9; 0; 0; 0; 0; 0; 0; 0;  2; 0; 0; 0; 0; 0; 0; 0].

(** Where the shape cursor is after the shape that starts at [p], read off
    the shape stream alone: past the opcode for a scalar, a function or
    object value and a type-descriptor slot, past the tag id for a tag, and
    at the declared end for an opcode with a nested shape. *)
Definition shape_end (rom : shape_mem) (p : Z) : option Z :=
  op <- decode (get_u8 rom p) ;;
  let operands := p + 1 in
  Some match op with
       | SHAPE_NUMBER _ | SHAPE_FN | SHAPE_OBJ | SHAPE_TYDESC => operands
       | SHAPE_TAG => operands + 2
       | SHAPE_STRUCT | SHAPE_BOX | SHAPE_UNIQ | SHAPE_RPTR | SHAPE_TRAIT =>
           snd (delimited rom operands)
       | SHAPE_VEC | SHAPE_UNBOXED_VEC => snd (delimited rom (operands + 1))
       | SHAPE_SLICE | SHAPE_RES => snd (delimited rom (operands + 2))
       | SHAPE_FIXEDVEC => snd (delimited rom (operands + 2 + 1))
       end.

(** The shape [struct { u8, u8 }] and three instances of it, at addresses
    0, 2 and 4: (1, 5), (2, 5) and (1, 5). *)
Definition shape_u8_u8 : shape_mem := [17; 2; 0; 0; 0].

Definition three_pairs : data_mem := mem_of_bytes 0 [1; 5; 2; 5; 1; 5].

(** The order of two vectors, as the specification words it: element-wise
    in order, the first pair that does not tie decides, and when every
    compared pair ties the lengths decide. *)
Module vec_spec.

Section Spec.

(** The size of an element and the three-way result of comparing the
    elements at two addresses. *)
Variable k : Z.
Variable elt : Z -> Z -> Z.

(** The addresses of the elements of the range from [a] to [e]. *)
Definition count (a e : Z) : nat := Z.to_nat ((e - a + k - 1) / k).

Definition elements (a e : Z) : list Z :=
  map (fun i => a + Z.of_nat i * k) (seq 0 (count a e)).

Fixpoint first_mismatch (ps : list (Z * Z)) : Z :=
  match ps with
  | [] => 0
  | (x, y) :: ps' => if elt x y =? 0 then first_mismatch ps' else elt x y
  end.

Definition length_order (la lb : Z) : Z :=
  match la ?= lb with Lt => -1 | Eq => 0 | Gt => 1 end.

(** The pairs that are compared are those below both lengths: [combine]
    stops at the end of the shorter vector. *)
Definition compared_pairs (first last : ptr_pair.t) : list (Z * Z) :=
  combine (elements (ptr_pair.fst first) (ptr_pair.fst last))
          (elements (ptr_pair.snd first) (ptr_pair.snd last)).

Definition vec_order (first last : ptr_pair.t) : Z :=
  let r := first_mismatch (compared_pairs first last) in
  if r =? 0 then
    length_order (ptr_pair.fst last - ptr_pair.fst first)
                 (ptr_pair.snd last - ptr_pair.snd first)
  else r.

End Spec.

End vec_spec.

(** The order of the bytes at two addresses. *)
Definition byte_order (m : data_mem) (a b : Z) : Z :=
  vec_spec.length_order (load_u8 m a) (load_u8 m b).

(** A vector of 2^31 zero bytes and an empty vector: the slots at 0 and 8
    point to the blocks at 16 and 32, whose counts are 2^31 and 0. *)
Definition huge_vec : data_mem :=
  fun a =>
    if a =? 0 then 16
    else if a =? 8 then 32
    else if a =? 19 then 128
    else 0.

(** ** Well-formed instances

    [value_ok tb al p d p' d']: the memory at [d] holds a value of the shape
    at [p], of which the walk, started with the alignment flag [al], ends
    with the shape cursor at [p'] and the data cursor at [d'].  Each rule is
    one opcode class of the traversal skeleton.  The fields of a struct or
    of a variant and the elements of a vector are values in turn, an
    indirection points to a value, a tag's size is computable, its
    discriminant selects a variant of the tables, and a floating-point
    scalar is not a NaN (it equals itself). *)
Section WellFormed.

Variable tgt : target.
Variable lay : layout.
Variable rom : shape_mem.
Variable m : data_mem.

Definition aligned (al : bool) (d a : Z) : Z :=
  if al then align_to d a else d.

(** The loop condition of a field list: [sp < end] for the fields of a
    variant, [sp != end] for those of a struct. *)
Definition more_fields (strict : bool) (p e : Z) : bool :=
  if strict then p <? e else negb (p =? e).

Definition is_indirection (op : opcode) : bool :=
  match op with
  | SHAPE_BOX | SHAPE_UNIQ | SHAPE_RPTR | SHAPE_TRAIT => true
  | _ => false
  end.

Definition is_word_pair (op : opcode) : bool :=
  match op with
  | SHAPE_FN | SHAPE_OBJ => true
  | _ => false
  end.

Inductive value_ok (tb : rust_shape_tables)
    : bool -> Z -> Z -> Z -> Z -> Prop :=
  | ok_number al p d k :
      decode (get_u8 rom p) = Some (SHAPE_NUMBER k) ->
      let d0 := aligned al d (alignof_number tgt k) in
      number_eqb (load_number m k d0) (load_number m k d0) = true ->
      value_ok tb al p d (p + 1) (d0 + sizeof_number k)
  | ok_struct al p d body end_sp d' :
      decode (get_u8 rom p) = Some SHAPE_STRUCT ->
      delimited rom (p + 1) = (body, end_sp) ->
      fields_ok tb false al body end_sp d d' ->
      value_ok tb al p d end_sp d'
  | ok_tag al p d tinfo p1 n tinfo1 vp ve d' :
      decode (get_u8 rom p) = Some SHAPE_TAG ->
      read_tag_info rom tb (p + 1) = (tinfo, p1) ->
      size_of.compute_tag_size_for tgt rom n tb tinfo = Some tinfo1 ->
      let has_tag := 1 <? variant_count tinfo1 in
      let d0 := if has_tag then aligned al d (alignof_tag_align_t tgt) else d in
      let v := if has_tag
               then load_le m d0 (Z.to_nat (sizeof_tag_variant_t tgt)) else 0 in
      let d1 := if has_tag then d0 + sizeof_tag_variant_t tgt else d0 in
      get_variant_sp rom tb tinfo1 v = (vp, ve) ->
      fields_ok tb true al vp ve d1 d' ->
      value_ok tb al p d p1 (d0 + size (tag_sa tinfo1))
  | ok_indirection al p d op body end_sp p' d' :
      decode (get_u8 rom p) = Some op ->
      is_indirection op = true ->
      delimited rom (p + 1) = (body, end_sp) ->
      let d0 := aligned al d (alignof_ptr tgt) in
      value_ok tb true body
        (box_body lay (load_le m d0 (Z.to_nat (sizeof_ptr tgt)))) p' d' ->
      value_ok tb al p d end_sp (d0 + sizeof_ptr tgt)
  | ok_vec al p d body end_sp s e :
      decode (get_u8 rom p) = Some SHAPE_VEC ->
      delimited rom (p + 1 + 1) = (body, end_sp) ->
      let d0 := aligned al d (alignof_ptr tgt) in
      get_vec_data_range lay m d0 = (s, e) ->
      elems_ok tb al body s e ->
      value_ok tb al p d end_sp (d0 + sizeof_ptr tgt)
  | ok_unboxed_vec al p d body end_sp s e :
      decode (get_u8 rom p) = Some SHAPE_UNBOXED_VEC ->
      delimited rom (p + 1 + 1) = (body, end_sp) ->
      get_unboxed_vec_data_range lay m d = (s, e) ->
      elems_ok tb al body s e ->
      value_ok tb al p d end_sp e
  | ok_slice al p d body end_sp s e :
      decode (get_u8 rom p) = Some SHAPE_SLICE ->
      delimited rom (p + 1 + 2) = (body, end_sp) ->
      let d0 := aligned al d (alignof_ptr tgt) in
      get_slice_data_range lay (negb (get_u8 rom (p + 1 + 1) =? 0)) m d0
      = (s, e) ->
      elems_ok tb al body s e ->
      value_ok tb al p d end_sp (d0 + 2 * sizeof_ptr tgt)
  | ok_fixedvec al p d body end_sp n elt :
      decode (get_u8 rom p) = Some SHAPE_FIXEDVEC ->
      delimited rom (p + 1 + 2 + 1) = (body, end_sp) ->
      size_of.walk tgt rom n (size_of.mk body tb false sa_default) = Some elt ->
      let elt_sa := size_of.sa elt in
      let d0 := aligned al d (alignment elt_sa) in
      let d1 := d0 + get_u16 rom (p + 1) * size elt_sa in
      elems_ok tb al body d0 d1 ->
      value_ok tb al p d end_sp d1
  | ok_word_pair al p d op :
      decode (get_u8 rom p) = Some op ->
      is_word_pair op = true ->
      value_ok tb al p d (p + 1)
        (aligned al d (alignof_ptr tgt) + 2 * sizeof_ptr tgt)
  | ok_tydesc al p d :
      decode (get_u8 rom p) = Some SHAPE_TYDESC ->
      value_ok tb al p d (p + 1)
        (aligned al d (alignof_ptr tgt) + sizeof_ptr tgt)
  | ok_res al p d body end_sp :
      decode (get_u8 rom p) = Some SHAPE_RES ->
      delimited rom (p + 1 + 2) = (body, end_sp) ->
      value_ok tb al p d end_sp
        (aligned al d (alignof_ptr tgt) + sizeof_ptr tgt + sizeof_ptr tgt)

with fields_ok (tb : rust_shape_tables)
    : bool -> bool -> Z -> Z -> Z -> Z -> Prop :=
  | fields_done strict al p e d :
      more_fields strict p e = false ->
      fields_ok tb strict al p e d d
  | fields_next strict al p e d p1 d1 d' :
      more_fields strict p e = true ->
      value_ok tb al p d p1 d1 ->
      fields_ok tb strict true p1 e d1 d' ->
      fields_ok tb strict al p e d d'

with elems_ok (tb : rust_shape_tables) : bool -> Z -> Z -> Z -> Prop :=
  | elems_done al p d e :
      (d <? e) = false ->
      elems_ok tb al p d e
  | elems_next al p d e p1 d1 :
      (d <? e) = true ->
      value_ok tb al p d p1 d1 ->
      elems_ok tb true p d1 e ->
      elems_ok tb al p d e.

(** An instance at [data] of the type that [tydesc] describes, as
    [shape_cmp_type] walks it: from the descriptor's shape, with the
    alignment flag set. *)
Definition instance_ok (tydesc : type_desc) (data : Z) : Prop :=
  exists p' d', value_ok (shape_tables tydesc) true (shape tydesc) data p' d'.

End WellFormed.

Scheme value_ok_ind3 := Minimality for value_ok Sort Prop
  with fields_ok_ind3 := Minimality for fields_ok Sort Prop
  with elems_ok_ind3 := Minimality for elems_ok Sort Prop.

Combined Scheme value_ok_mutind
  from value_ok_ind3, fields_ok_ind3, elems_ok_ind3.

(** [w'] returns whatever [w] returns: the walk with more fuel extends the
    walk with less. *)
Definition extends {A : Type} (w w' : A -> option A) : Prop :=
  forall c r, w c = Some r -> w' c = Some r.

(** ** The walk of an instance against itself *)

(** Both data cursors at the same address. *)
Definition both (d : Z) : ptr_pair.t := ptr_pair.make d d.

Section SelfWalk.

Import cmp.

Variable tgt : target.
Variable lay : layout.
Variable rom : shape_mem.
Variable m : data_mem.
Variable tb : rust_shape_tables.

(** A walker that is about to walk, with a tie so far, the shape at [p]
    with both data cursors at [d]. *)
Definition at_both (al : bool) (p d : Z) (c : t) : Prop :=
  sp c = p /\ tables c = tb /\ align c = al /\ dp c = both d /\ result c = 0.

(** With enough fuel the walk returns a tie, with the cursors at [p'] and
    at [d']. *)
Definition walk_ties (al : bool) (p d p' d' : Z) : Prop :=
  exists N, forall fuel, (N <= fuel)%nat ->
    forall c, at_both al p d c ->
      exists c',
        walk tgt lay rom m fuel c = Some c'
        /\ sp c' = p' /\ tables c' = tb /\ dp c' = both d' /\ result c' = 0.

(** The same for the loop over the fields of a variant ([strict]) or of a
    struct. *)
Definition fields_tie (strict al : bool) (p e d d' : Z) : Prop :=
  exists N, forall f g, (N <= f)%nat -> (N <= g)%nat ->
    forall c, at_both al p d c ->
      if strict then
        exists sub',
          walk_variant2_loop (walk tgt lay rom m f) g e 0 c = Some (0, sub')
      else
        exists c',
          walk_struct2 (walk tgt lay rom m f) g e c = Some c'
          /\ tables c' = tb /\ dp c' = both d' /\ result c' = 0.

(** The same for the loop over the elements of a vector that ends at
    [e]. *)
Definition elems_tie (al : bool) (p d e : Z) : Prop :=
  exists N, forall f g, (N <= f)%nat -> (N <= g)%nat ->
    forall sub, at_both al p d sub ->
      exists sub',
        walk_vec2_loop (walk tgt lay rom m f) g (both e) 0 sub = Some (0, sub').

End SelfWalk.

(** The shape [f32], and a memory whose four bytes at address 0 are the
    quiet NaN 0x7fc00000. *)
Definition shape_f32 : shape_mem := [8].

Definition nan_mem : data_mem := mem_of_bytes 0 [0; 0; 192; 127].

Definition tydesc_f32 : type_desc := mk_tydesc 0 no_tables.

Definition tydesc_u8_u8 : type_desc := mk_tydesc 0 no_tables.

(** ** Further reference definitions *)

(** The three results of a comparison. *)
Definition three_valued (r : Z) : Prop := r = -1 \/ r = 0 \/ r = 1.

(** A walker that keeps the result among the three values. *)
Definition keeps_range (w : cmp.t -> option cmp.t) : Prop :=
  forall c c', three_valued (cmp.result c) -> w c = Some c' ->
               three_valued (cmp.result c').

(** A compare walker over given field results: with the shape cursor at
    [i] it sets the result to the [i]-th of [rs] and moves to [i + 1]. *)
Definition result_walker (rs : list Z) (c : cmp.t) : option cmp.t :=
  if cmp.sp c <? 0 then None
  else
    match nth_error rs (Z.to_nat (cmp.sp c)) with
    | Some r => Some (cmp.set_result (cmp.set_sp c (cmp.sp c + 1)) r)
    | None => None
    end.

(** The first result that is not a tie, and the number of fields up to and
    including it. *)
Fixpoint first_decided (rs : list Z) : Z :=
  match rs with
  | [] => 0
  | r :: rs' => if r =? 0 then first_decided rs' else r
  end.

Fixpoint fields_walked (rs : list Z) : nat :=
  match rs with
  | [] => O
  | r :: rs' => if r =? 0 then S (fields_walked rs') else 1%nat
  end.

(** The lexicographic order of two lists of bytes; a proper prefix is
    before the longer list. *)
Fixpoint lex_order (xs ys : list Z) : Z :=
  match xs, ys with
  | [], [] => 0
  | [], _ :: _ => -1
  | _ :: _, [] => 1
  | x :: xs', y :: ys' =>
      if x <? y then -1 else if x =? y then lex_order xs' ys' else 1
  end.

(** The walker with its two instances exchanged and its result negated. *)
Definition swap_pair (p : ptr_pair.t) : ptr_pair.t :=
  ptr_pair.make (ptr_pair.snd p) (ptr_pair.fst p).

Definition swap (c : cmp.t) : cmp.t :=
  cmp.mk (cmp.sp c) (cmp.tables c) (cmp.align c) (swap_pair (cmp.dp c))
    (swap_pair (cmp.end_dp c)) (- cmp.result c).

Definition swap_data (p : data_pair.t Z) : data_pair.t Z :=
  data_pair.make (data_pair.snd p) (data_pair.fst p).

Definition swap_loop (r : Z * cmp.t) : Z * cmp.t := (- fst r, swap (snd r)).

(** *** Shapes without floating-point scalars

    [float_free rom tb P]: the set [P] of shape addresses holds the opcodes
    that a walk started inside it can reach, and none of them is the
    opcode of a floating-point scalar.  [P] is closed under the steps of
    the traversal: the fields of a struct, the fields of the variants of a
    tag, the pointee of an indirection and the element of a vector are in
    it again.  The variant of a tag with one variant is variant 0; the
    variant of a tag with more is the one that the discriminant in the
    data names, which the walk does not check against the variant count,
    so that every id counts.  Operands (lengths, ids, flags) and the side
    tables are not opcodes and may hold any byte. *)

(** The floating-point kinds of scalar. *)
Definition is_float (k : number_kind) : bool :=
  match k with
  | F32 | F64 => true
  | _ => false
  end.

Section FloatFree.

Variable rom : shape_mem.
Variable tb : rust_shape_tables.
Variable P : Z -> Prop.

(** The fields from [p] to [e] are in [P]: while the loop goes on ([sp <
    end] for a variant, [sp != end] for a struct) the opcode under the
    cursor is in [P], and so are the fields after the end of its shape. *)
Inductive fields_in (strict : bool) : Z -> Z -> Prop :=
  | fields_in_done p e :
      more_fields strict p e = false -> fields_in strict p e
  | fields_in_more p e :
      more_fields strict p e = true ->
      P p ->
      (forall p', shape_end rom p = Some p' -> fields_in strict p' e) ->
      fields_in strict p e.

Definition float_free_at (p : Z) : Prop :=
  let operands := p + 1 in
  match decode (get_u8 rom p) with
  | Some (SHAPE_NUMBER k) => is_float k = false
  | Some SHAPE_STRUCT =>
      fields_in false (fst (delimited rom operands))
        (snd (delimited rom operands))
  | Some SHAPE_TAG =>
      let tinfo := fst (read_tag_info rom tb operands) in
      forall id,
        id = 0 \/ 1 < variant_count tinfo ->
        fields_in true (fst (get_variant_sp rom tb tinfo id))
          (snd (get_variant_sp rom tb tinfo id))
  | Some SHAPE_BOX | Some SHAPE_UNIQ | Some SHAPE_RPTR | Some SHAPE_TRAIT =>
      P (fst (delimited rom operands))
  | Some SHAPE_VEC | Some SHAPE_UNBOXED_VEC =>
      P (fst (delimited rom (operands + 1)))
  | Some SHAPE_SLICE => P (fst (delimited rom (operands + 2)))
  | Some SHAPE_FIXEDVEC => P (fst (delimited rom (operands + 2 + 1)))
  | Some SHAPE_FN | Some SHAPE_OBJ | Some SHAPE_TYDESC | Some SHAPE_RES
  | None => True
  end.

Definition float_free : Prop := forall p, P p -> float_free_at p.

End FloatFree.

(** The shape of a struct of eight bytes, whose length operand is the
    number of the opcode [f32], and two instances of it, at the addresses
    0 and 8, that differ in their fourth byte. *)
Definition shape_eight_u8 : shape_mem := [17; 8; 0; 0; 0; 0; 0; 0; 0; 0; 0].

Definition eight_u8_opcodes (p : Z) : Prop := p = 0 \/ 3 <= p < 11.

Definition two_eights : data_mem :=
  mem_of_bytes 0 [1; 2; 3; 4; 5; 6; 7; 8;  1; 2; 3; 9; 5; 6; 7; 8].

Definition tydesc_eight_u8 : type_desc := mk_tydesc 0 no_tables.

(** The shape [tydesc], and two slots at addresses 0 and 8 that hold the
    words 3 and 4. *)
Definition shape_tydesc : shape_mem := [28].

Definition two_words : data_mem :=
  mem_of_bytes 0 [3; 0; 0; 0; 0; 0; 0; 0;  4; 0; 0; 0; 0; 0; 0; 0].

(** The layout that the loop of [walk_struct1] gives a list of fields: the
    first field is not padded, and before each later field the running size
    is padded to [prev_al], the alignment of the field walked before it. *)
Fixpoint layout_rest (prev_al : Z) (acc : size_align) (fs : list size_align)
    : size_align :=
  match fs with
  | [] => acc
  | f :: fs' =>
      layout_rest (alignment f)
        (sa_add (mk_sa (align_to (size acc) prev_al) (alignment acc))
           (size f) (alignment f))
        fs'
  end.

Definition struct_layout (fs : list size_align) : size_align :=
  match fs with
  | [] => mk_sa 0 1
  | f :: fs' =>
      layout_rest (alignment f) (sa_add (mk_sa 0 1) (size f) (alignment f)) fs'
  end.

Definition sum_sizes (fs : list size_align) : Z :=
  fold_right Z.add 0 (map size fs).

Definition max_alignment (fs : list size_align) : Z :=
  fold_left Z.max (map alignment fs) 1.

(** ** Renderings *)

Section Renderings.

Local Open Scope string_scope.
Local Open Scope Z_scope.

(** A logging walker over given field texts, the first of which is at the
    shape address [base]: with the shape cursor at [base + i] it writes its
    separator and the [i]-th text and moves the cursor on. *)
Definition text_walker (base : Z) (ts : list string) (c : log_data.t)
    : option log_data.t :=
  if log_data.sp c <? base then None
  else
    match nth_error ts (Z.to_nat (log_data.sp c - base)) with
    | Some t =>
        Some (log_data.set_sp
                (log_data.put (log_data.put c (log_data.prefix c)) t)
                (log_data.sp c + 1))
    | None => None
    end.

(** A logging walker over elements of [k] bytes: it writes its separator
    and the text of the element under the data cursor, and moves both
    cursors on. *)
Definition element_walker (k : Z) (text : Z -> string) (c : log_data.t)
    : option log_data.t :=
  Some (log_data.set_dp
          (log_data.set_sp
             (log_data.put (log_data.put c (log_data.prefix c))
                (text (log_data.dp c)))
             (log_data.sp c + 1))
          (log_data.dp c + k)).

(** A printing walker over given field texts, the first of which is at
    the shape address [base]. *)
Definition print_walker (base : Z) (ts : list string) (c : print.t)
    : option print.t :=
  if print.sp c <? base then None
  else
    match nth_error ts (Z.to_nat (print.sp c - base)) with
    | Some t => Some (print.set_sp (print.DPRINT c t) (print.sp c + 1))
    | None => None
    end.

(** The texts [ts], each after the separator [sep] and the prefix [p]. *)
Definition later_members (sep p : string) (ts : list string) : string :=
  log_spec.flatten (map (fun t => sep ++ p ++ t) ts).

(** The members of an aggregate: each text after the prefix [p], the
    separator [sep] between them. *)
Definition members (sep p : string) (ts : list string) : string :=
  match ts with
  | [] => EmptyString
  | t :: ts' => p ++ t ++ later_members sep p ts'
  end.

(** The members between parentheses, or nothing when there is none. *)
Definition parenthesized (sep p : string) (ts : list string) : string :=
  match ts with
  | [] => EmptyString
  | _ => "(" ++ members sep p ts ++ ")"
  end.

Definition printable_char (ch : ascii) : bool :=
  (32 <=? nat_of_ascii ch)%nat && (nat_of_ascii ch <=? 126)%nat.

Fixpoint printable_text (s : string) : bool :=
  match s with
  | EmptyString => true
  | String ch s' => printable_char ch && printable_text s'
  end.

(** The value of a lower-case hexadecimal digit. *)
Definition hex_value (ch : ascii) : option Z :=
  let n := Z.of_nat (nat_of_ascii ch) in
  if (48 <=? n) && (n <=? 57) then Some (n - 48)
  else if (97 <=? n) && (n <=? 102) then Some (n - 87)
  else None.

(** Reading back the first byte of a logged string: the byte and the rest
    of the text, or nothing at the closing quote and on a text that the
    logger does not write. *)
Definition head_byte (s : string) : option (Z * string) :=
  match s with
  | EmptyString => None
  | String c1 r1 =>
      if Ascii.eqb c1 log.backslash_char then
        match r1 with
        | EmptyString => None
        | String c2 r2 =>
            if Ascii.eqb c2 "n" then Some (10, r2)
            else if Ascii.eqb c2 "r" then Some (13, r2)
            else if Ascii.eqb c2 "t" then Some (9, r2)
            else if Ascii.eqb c2 log.backslash_char then Some (92, r2)
            else if Ascii.eqb c2 log.quote_char then Some (34, r2)
            else if Ascii.eqb c2 "x" then
              match r2 with
              | String h1 (String h2 r4) =>
                  match hex_value h1, hex_value h2 with
                  | Some x, Some y => Some (16 * x + y, r4)
                  | _, _ => None
                  end
              | _ => None
              end
            else None
        end
      else if Ascii.eqb c1 log.quote_char then None
      else Some (Z.of_nat (nat_of_ascii c1), r1)
  end.

(** The text of the byte at [d], a digit for the values below ten. *)
Definition digit_text (m : data_mem) (d : Z) : string :=
  String (ascii_of_nat (48 + Z.to_nat (load_u8 m d))) EmptyString.

End Renderings.

(** A vector of [u32]. *)
Definition shape_vec_u32 : shape_mem := [11; 1; 1; 0; 2].

(** A logger at the shape address [p] with the separator [prefix], which
    has written nothing yet. *)
Definition log_start (p : Z) (prefix : string) : log_data.t :=
  log_data.mk p no_tables false 0 0 prefix EmptyString.

(** * Properties *)

Lemma bind_Some {A B : Type} (m : option A) (k : A -> option B) (b : B) :
  bind m k = Some b -> exists a, m = Some a /\ k a = Some b.
Proof. destruct m as [a|]; simpl; [eauto | discriminate]. Qed.

Lemma bind_ext {A B : Type} (m : option A) (k k' : A -> option B) :
  (forall a, m = Some a -> k a = k' a) -> bind m k = bind m k'.
Proof. destruct m as [a|]; simpl; auto. Qed.

(** ** Size of a struct *)

Section StructSize.

Import size_of.

(** C4, as the code has it.  Appending (s1, a1) then (s2, a2) to the
    accumulator (0, 1), [walk_struct1] pads the running size before it has
    walked the incoming field, with the alignment that the previous field
    left in [sa]: the size is [align_to s1 a1 + s2], the alignment the
    largest of 1, a1 and a2.  The combination rule of the claim gives
    [align_to s1 a2 + s2].  On the real walker, a byte followed by a 32-bit
    word is given 5 bytes where the rule gives 8, and the struct (9, 8) of
    a 64-bit word and a byte followed by a byte is given 17 bytes where the
    rule gives 10. *)
Theorem walk_struct1_pads_to_previous_alignment :
  (forall s1 a1 s2 a2 : Z,
     option_map sa
       (walk_struct1 (field_walker [mk_sa s1 a1; mk_sa s2 a2]) 2 2
          (size_of_start no_tables 0))
     = Some (mk_sa (align_to s1 a1 + s2) (Z.max (Z.max 1 a1) a2)))
  /\ option_map sa (walk target64 shape_u8_u32 3 (size_of_start no_tables 0))
     = Some (mk_sa 5 4)
  /\ align_to 1 4 + 4 = 8
  /\ option_map sa (walk target64 shape_nested 4 (size_of_start no_tables 3))
     = Some (mk_sa 9 8)
  /\ option_map sa (walk target64 shape_nested 4 (size_of_start no_tables 0))
     = Some (mk_sa 17 8)
  /\ align_to 9 1 + 1 = 10.
Proof.
  split; [| repeat split; reflexivity].
  intros s1 a1 s2 a2. reflexivity.
Qed.

End StructSize.

(** ** Size of a tagged union *)

Section TagSize.

Import size_of tag_size_spec.

Variable tgt : target.
Variable rom : shape_mem.
Variable walk : size_of.t -> option size_of.t.

(** The loop over the fields of a variant is the loop of [walk_struct1]. *)
Lemma variant_size_loop_struct fuel :
  forall variant_end first variant_sa sub,
    variant_size_loop walk fuel variant_end first variant_sa sub
    = walk_struct1_loop walk fuel variant_end first variant_sa sub.
Proof.
  induction fuel as [|fuel IH]; intros; simpl; [reflexivity|].
  destruct (sp sub =? variant_end); [reflexivity|].
  apply bind_ext. intros. apply IH.
Qed.

Lemma variant_size_as_struct fuel c tinfo id variant_ptr variant_end :
  get_variant_sp rom (tables c) tinfo id = (variant_ptr, variant_end) ->
  option_map fst
    (variant_size_loop walk fuel variant_end true sa_default
       (set_align (make_sub c variant_ptr) false))
  = variant_as_struct rom walk fuel c tinfo id.
Proof.
  intros H. unfold variant_as_struct. rewrite H.
  rewrite variant_size_loop_struct. unfold walk_struct1, sa_default.
  destruct (walk_struct1_loop walk fuel variant_end true (mk_sa 0 1) _)
    as [[s c1]|]; reflexivity.
Qed.

Lemma variant_as_struct_ext fuel c t1 t2 id :
  info_ptr t1 = info_ptr t2 ->
  variant_as_struct rom walk fuel c t1 id = variant_as_struct rom walk fuel c t2 id.
Proof.
  intros H. unfold variant_as_struct, get_variant_sp. rewrite H. reflexivity.
Qed.

Lemma map_option_ext {A B : Type} (f g : A -> option B) (l : list A) :
  (forall a, f a = g a) -> map_option f l = map_option g l.
Proof.
  intros H. induction l as [|a l IH]; simpl; [reflexivity|].
  rewrite H, IH. reflexivity.
Qed.

(** The table loop reads the ids in order and keeps the strictly largest
    variant; it leaves the variant count alone. *)
Lemma largest_variants_loop_fold fuel c n :
  forall tinfo,
    option_map tag_sa (largest_variants_loop rom walk fuel c n tinfo)
    = (sas <- map_option (variant_as_struct rom walk fuel c tinfo)
                (table_ids rom (largest_variants_ptr tinfo) n) ;;
       Some (fold_left keep_larger sas (tag_sa tinfo)))
    /\ forall tinfo2,
         largest_variants_loop rom walk fuel c n tinfo = Some tinfo2 ->
         variant_count tinfo2 = variant_count tinfo.
Proof.
  induction n as [|n IH]; intros tinfo.
  - simpl. split; [reflexivity|]. intros ? [= <-]. reflexivity.
  - cbn [largest_variants_loop table_ids map_option].
    unfold get_u16_bump.
    set (id := get_u16 rom (largest_variants_ptr tinfo)).
    set (tinfo1 := set_largest_variants_ptr tinfo (largest_variants_ptr tinfo + 2)).
    destruct (get_variant_sp rom (tables c) tinfo1 id) as [vp ve] eqn:Hv.
    pose proof (variant_size_as_struct fuel c tinfo1 id vp ve Hv) as Hs.
    rewrite (variant_as_struct_ext fuel c tinfo1 tinfo id eq_refl) in Hs.
    destruct (variant_size_loop walk fuel ve true sa_default _) as [[vsa sub1]|];
      simpl in Hs; rewrite <- Hs; simpl; [| split; [reflexivity | discriminate]].
    set (tinfo2 := if size (tag_sa tinfo1) <? size vsa
                   then set_tag_sa tinfo1 vsa else tinfo1).
    destruct (IH tinfo2) as [IH1 IH2].
    assert (Hp : largest_variants_ptr tinfo2 = largest_variants_ptr tinfo + 2).
    { unfold tinfo2. destruct (_ <? _); reflexivity. }
    assert (Hc : variant_count tinfo2 = variant_count tinfo).
    { unfold tinfo2. destruct (_ <? _); reflexivity. }
    assert (Hi : info_ptr tinfo2 = info_ptr tinfo).
    { unfold tinfo2. destruct (_ <? _); reflexivity. }
    assert (Ht : tag_sa tinfo2 = keep_larger (tag_sa tinfo) vsa).
    { unfold tinfo2, keep_larger. simpl. destruct (_ <? _); reflexivity. }
    change (largest_variants_loop rom walk fuel c n _)
      with (largest_variants_loop rom walk fuel c n tinfo2).
    split.
    + rewrite IH1, Hp, Ht.
      rewrite (map_option_ext _ (variant_as_struct rom walk fuel c tinfo) _
                 (fun a => variant_as_struct_ext fuel c tinfo2 tinfo a Hi)).
      destruct (map_option (variant_as_struct rom walk fuel c tinfo) _);
        reflexivity.
    + intros t2 H2. rewrite (IH2 t2 H2). exact Hc.
Qed.

(** [compute_tag_size] computes the size that the specification words. *)
Lemma compute_tag_size_refines fuel c tinfo :
  option_map tag_sa (compute_tag_size tgt rom walk fuel c tinfo)
  = tag_size tgt rom walk fuel c tinfo.
Proof.
  unfold compute_tag_size, tag_size, largest_payload.
  destruct (is_set (tag_sa tinfo)); [reflexivity|].
  unfold get_u16_bump.
  set (tinfo1 := set_tag_sa _ _).
  destruct (largest_variants_loop_fold fuel c
              (Z.to_nat (get_u16 rom (largest_variants_ptr tinfo))) tinfo1)
    as [H1 H2].
  replace (largest_variants_ptr tinfo1) with (largest_variants_ptr tinfo + 2)
    in H1 by reflexivity.
  rewrite (map_option_ext _ (variant_as_struct rom walk fuel c tinfo) _
             (fun a => variant_as_struct_ext fuel c tinfo1 tinfo a eq_refl)) in H1.
  destruct (largest_variants_loop rom walk fuel c _ tinfo1) as [tinfo2|] eqn:Hl.
  - simpl in H1. specialize (H2 tinfo2 eq_refl).
    replace (variant_count tinfo1) with (variant_count tinfo) in H2 by reflexivity.
    destruct (map_option _ _) as [sas|]; simpl in H1; [|discriminate].
    injection H1 as H1. simpl. rewrite H2, H1.
    replace (tag_sa tinfo1) with (mk_sa 0 0) by reflexivity.
    destruct (variant_count tinfo =? 1); [destruct (_ =? 0)|];
      simpl; rewrite ?H1; reflexivity.
  - simpl in H1. destruct (map_option _ _); simpl in *; [discriminate|reflexivity].
Qed.

End TagSize.

Section TagSizeClaims.

Import size_of tag_size_spec.

(** C3.  [compute_tag_size] leaves a tag whose pair is already set as it
    is; otherwise it keeps the strictly largest of the variants that the
    largest-variants table lists, forces (1, 1) for a single variant of
    size zero, puts the discriminant's size and alignment on top when the
    variant count is not one, and stores the pair in the tag's info; the
    single variant without fields of [empty_tag_rom] gets size 1 and
    alignment 1.  But it sizes a variant as [walk_struct1] sizes a struct,
    the running size padded to the alignment of the field before: the pair
    it returns is [tag_size_spec.tag_size], not [tag_rule_spec.tag_size].
    The single variant [u8, u64] of [byte_word_tag_rom], whose fields have
    the sizes and alignments (1, 1) and (8, 8), is given 9 bytes where the
    combination rule gives 16; and the compare walker reads the 64-bit
    word of that variant at the offset 8, finding the two instances of
    [byte_word_pair] different in their sixteenth byte, before it moves
    the data cursors by the 9 bytes of the computed size. *)
Theorem compute_tag_size_pads_variants :
  (forall tgt rom walk fuel c tinfo,
     option_map tag_sa (compute_tag_size tgt rom walk fuel c tinfo)
     = tag_size tgt rom walk fuel c tinfo)
  /\ (forall tgt rom walk fuel c tinfo,
        compute_tag_size tgt rom walk fuel c tinfo
        = if is_set (tag_sa tinfo) then Some tinfo
          else compute_tag_size tgt rom walk fuel c
                 (set_tag_sa tinfo (mk_sa 0 0)))
  /\ option_map tag_sa
       (compute_tag_size_for target64 empty_tag_rom 2 tag_tables
          empty_tag_rom_info)
     = Some (mk_sa 1 1)
  /\ tag_rule_spec.field_sizes (walk target64 byte_word_tag_rom 2) 2 22
       (set_align (make_sub (size_of_start tag_tables 0) 20) false)
     = Some [mk_sa 1 1; mk_sa 8 8]
  /\ option_map tag_sa
       (compute_tag_size_for target64 byte_word_tag_rom 2 tag_tables
          byte_word_tag_info)
     = Some (mk_sa 9 8)
  /\ tag_rule_spec.tag_size target64 byte_word_tag_rom
       (walk target64 byte_word_tag_rom 2) 2 (size_of_start tag_tables 0)
       byte_word_tag_info
     = Some (mk_sa 16 8)
  /\ option_map (fun c => (cmp.result c, cmp.dp c))
       (cmp.walk target64 layout64 byte_word_tag_rom byte_word_pair 4
          (cmp.make true 0 tag_tables 0 16))
     = Some (-1, ptr_pair.make 9 25).
Proof.
  split; [| split; [| repeat split; reflexivity]].
  - intros. apply compute_tag_size_refines.
  - intros. unfold compute_tag_size.
    destruct (is_set (tag_sa tinfo)) eqn:E; reflexivity.
Qed.

(** Two variants of sizes 4 and 8, aligned to 4, under a discriminant of
    size and alignment 4: twelve bytes, aligned to 4. *)
Lemma two_variant_tag_size :
  option_map tag_sa
    (compute_tag_size_for target32 two_variant_rom 3 tag_tables
       (fst (read_tag_info two_variant_rom tag_tables 1)))
  = Some (mk_sa 12 4).
Proof. reflexivity. Qed.

(** C9.  A tagged union with one variant whose largest payload has a size
    other than zero is given exactly that payload's size and alignment:
    nothing is forced and no discriminant is added. *)
Theorem single_variant_tag_is_payload tgt rom walk fuel c tinfo p :
  variant_count tinfo = 1 ->
  is_set (tag_sa tinfo) = false ->
  largest_payload rom walk fuel c tinfo = Some p ->
  size p <> 0 ->
  option_map tag_sa (compute_tag_size tgt rom walk fuel c tinfo) = Some p.
Proof.
  intros Hc Hs Hp Hz.
  rewrite compute_tag_size_refines. unfold tag_size.
  rewrite Hs, Hp. simpl. rewrite Hc. simpl.
  apply Z.eqb_neq in Hz. rewrite Hz. reflexivity.
Qed.

Lemma single_variant_tag_is_payload_witness :
  variant_count tag_rom_info = 1
  /\ is_set (tag_sa tag_rom_info) = false
  /\ largest_payload tag_rom (walk target64 tag_rom 1) 1
       (size_of_start tag_tables 0) tag_rom_info = Some (mk_sa 4 4)
  /\ size (mk_sa 4 4) <> 0
  /\ option_map tag_sa
       (compute_tag_size target64 tag_rom (walk target64 tag_rom 1) 1
          (size_of_start tag_tables 0) tag_rom_info)
     = Some (mk_sa 4 4).
Proof.
  assert (Hz : size (mk_sa 4 4) <> 0) by (simpl; discriminate).
  split; [reflexivity|]. split; [reflexivity|]. split; [reflexivity|].
  split; [exact Hz|].
  apply (single_variant_tag_is_payload target64 tag_rom
           (walk target64 tag_rom 1) 1 (size_of_start tag_tables 0)
           tag_rom_info (mk_sa 4 4));
    [reflexivity | reflexivity | reflexivity | exact Hz].
Defined.

End TagSizeClaims.

(** ** The string case of the logger *)

Section LogString.

Import log log_spec.

Local Open Scope string_scope.

Lemma string_app_assoc (s1 s2 s3 : string) :
  (s1 ++ s2) ++ s3 = s1 ++ (s2 ++ s3).
Proof.
  induction s1 as [|c s1 IH]; simpl; [reflexivity|]. rewrite IH. reflexivity.
Qed.

Lemma string_app_nil_r (s : string) : s ++ EmptyString = s.
Proof.
  induction s as [|c s IH]; simpl; [reflexivity|]. rewrite IH. reflexivity.
Qed.

(** One iteration writes what the specification says for the byte, for
    each of the 256 bytes. *)
Lemma escape_byte_table :
  forallb (fun n => String.eqb (escape_byte (Z.of_nat n))
                               (render_byte (Z.of_nat n)))
          (seq 0 256) = true.
Proof. vm_compute. reflexivity. Qed.

Lemma escape_byte_render (m : data_mem) (a : Z) :
  escape_byte (load_u8 m a) = render_byte (load_u8 m a).
Proof.
  unfold load_u8.
  assert (Hb : (0 <= m a mod 256 < 256)%Z) by (apply Z.mod_pos_bound; lia).
  pose proof escape_byte_table as Ht.
  rewrite forallb_forall in Ht.
  specialize (Ht (Z.to_nat (m a mod 256))).
  rewrite Z2Nat.id in Ht by lia.
  apply String.eqb_eq, Ht, in_seq. lia.
Qed.

Lemma walk_string2_loop_flatten (m : data_mem) (n : nat) :
  forall a out,
    walk_string2_loop m a n out
    = out ++ flatten (map render_byte (data_bytes m a n)).
Proof.
  induction n as [|n IH]; intros a out; simpl.
  - symmetry. apply string_app_nil_r.
  - rewrite IH, string_app_assoc, escape_byte_render. reflexivity.
Qed.

(** C6, for the zero byte.  It is neither printable nor one of the five
    escaped bytes, and the loop writes nothing for it where the claim has
    the escape [\x00]: the vector that holds one zero byte is rendered as
    two double quotes. *)
Lemma walk_string2_drops_nul :
  isprint 0 = false
  /\ lookup 0 two_char_escapes = None
  /\ walk_string2 nul_string EmptyString (100, 101)%Z EmptyString
     = str2 quote_char quote_char
  /\ walk_string2 nul_string EmptyString (100, 101)%Z EmptyString
     <> str1 quote_char ++ String backslash_char "x00" ++ str1 quote_char.
Proof.
  split; [reflexivity|]. split; [reflexivity|]. split; [reflexivity|].
  vm_compute. discriminate.
Qed.

(** C6, amended.  [walk_string2] appends to the sink the prefix and the
    quoted rendering of the bytes of the range: backslash and [n], [r],
    [t], backslash or double quote for the five escaped bytes, the byte
    itself when it is printable, nothing for a zero byte, and [\x] with two
    lower-case hexadecimal digits for every other byte.  The bytes ['A'],
    newline, double quote are rendered as the seven characters
    double quote, [A], backslash, [n], backslash, double quote, double
    quote. *)
Theorem walk_string2_renders :
  (forall (m : data_mem) (prefix out : string) (a : Z) (n : nat),
     walk_string2 m prefix (a, a + Z.of_nat n)%Z out
     = out ++ prefix ++ render (data_bytes m a n))
  /\ walk_string2 sample_string EmptyString (100, 103)%Z EmptyString
     = String quote_char
         (String "A"
            (String backslash_char
               (String "n"
                  (String backslash_char
                     (String quote_char (String quote_char EmptyString)))))).
Proof.
  split; [| reflexivity].
  intros m prefix out a n. unfold walk_string2, render. cbn [fst snd].
  replace (a + Z.of_nat n - a)%Z with (Z.of_nat n) by lia.
  rewrite Nat2Z.id, walk_string2_loop_flatten.
  rewrite !string_app_assoc. reflexivity.
Qed.

End LogString.

(** ** The entry point *)

Section EntryPoint.

Variable tgt : target.
Variable lay : layout.
Variable rom : shape_mem.
Variable m : data_mem.

(** C1.  [shape_cmp_type] runs one compare walk from the descriptor's shape
    over the two instances and writes, for the mode EQ, whether the walk's
    result is zero, for LT whether it is negative, for LE whether it is not
    positive; it returns when the walk does. *)
Theorem shape_cmp_type_maps_result :
  forall fuel old tydesc data_0 data_1,
    let r :=
      option_map cmp.result
        (cmp.walk tgt lay rom m fuel
           (cmp.make true (shape tydesc) (shape_tables tydesc) data_0 data_1)) in
    shape_cmp_type tgt lay rom m fuel old tydesc data_0 data_1 CMP_EQ
    = option_map (fun x => Z_of_bool (x =? 0)) r
    /\ shape_cmp_type tgt lay rom m fuel old tydesc data_0 data_1 CMP_LT
       = option_map (fun x => Z_of_bool (x <? 0)) r
    /\ shape_cmp_type tgt lay rom m fuel old tydesc data_0 data_1 CMP_LE
       = option_map (fun x => Z_of_bool (x <=? 0)) r.
Proof.
  intros. unfold r, shape_cmp_type.
  destruct (cmp.walk _ _ _ _ _ _); repeat split; reflexivity.
Qed.

(** C10.  With a mode other than EQ, LT and LE the walk still runs, and
    when it returns the byte that [result] points to is the byte that was
    there before the call. *)
Theorem shape_cmp_type_other_mode :
  forall fuel old tydesc data_0 data_1 cmp_type,
    cmp_type <> CMP_EQ -> cmp_type <> CMP_LT -> cmp_type <> CMP_LE ->
    shape_cmp_type tgt lay rom m fuel old tydesc data_0 data_1 cmp_type
    = option_map (fun _ => old)
        (cmp.walk tgt lay rom m fuel
           (cmp.make true (shape tydesc) (shape_tables tydesc) data_0 data_1)).
Proof.
  intros fuel old tydesc data_0 data_1 cmp_type H0 H1 H2.
  unfold shape_cmp_type.
  apply Z.eqb_neq in H0, H1, H2. rewrite H0, H1, H2.
  destruct (cmp.walk _ _ _ _ _ _); reflexivity.
Qed.

End EntryPoint.

Lemma shape_cmp_type_other_mode_witness :
  3 <> CMP_EQ /\ 3 <> CMP_LT /\ 3 <> CMP_LE
  /\ shape_cmp_type target64 layout64 shape_vec_u8 (two_vecs [1; 2] [1; 2; 3])
       5 77 tydesc_vec_u8 0 8 3
     = Some 77.
Proof.
  assert (H0 : 3 <> CMP_EQ) by discriminate.
  assert (H1 : 3 <> CMP_LT) by discriminate.
  assert (H2 : 3 <> CMP_LE) by discriminate.
  split; [exact H0|]. split; [exact H1|]. split; [exact H2|].
  rewrite (shape_cmp_type_other_mode target64 layout64 shape_vec_u8
             (two_vecs [1; 2] [1; 2; 3]) 5 77 tydesc_vec_u8 0 8 3 H0 H1 H2).
  reflexivity.
Defined.

(** ** Comparison of scalars and of resources *)

Lemma three_way_ints (a b : Z) :
  cmp.three_way (cmp.ints (data_pair.make a b))
  = match a ?= b with Lt => -1 | Eq => 0 | Gt => 1 end.
Proof.
  unfold cmp.three_way, cmp.ints. simpl.
  destruct (Z.ltb_spec a b) as [Hlt|Hge].
  - rewrite (proj2 (Z.compare_lt_iff a b) Hlt). reflexivity.
  - destruct (Z.eqb_spec a b) as [->|Hne].
    + rewrite Z.compare_refl. reflexivity.
    + rewrite (proj2 (Z.compare_gt_iff a b)) by lia. reflexivity.
Qed.

Lemma load_le_ext (m m' : data_mem) (n : nat) :
  forall a,
    (forall x, a <= x < a + Z.of_nat n -> m' x = m x) ->
    load_le m' a n = load_le m a n.
Proof.
  induction n as [|n IH]; intros a H; simpl; [reflexivity|].
  unfold load_u8. rewrite (H a) by lia. rewrite (IH (a + 1)); [reflexivity|].
  intros x Hx. apply H. lia.
Qed.

Lemma cmp_two_pointers_result tgt m c :
  let d := cmp.dp (cmp.ALIGN_TO (alignof_ptr tgt) c) in
  let n := sizeof_ptr tgt in
  let w a := load_le m a (Z.to_nat n) in
  cmp.result (cmp.cmp_two_pointers tgt m c)
  = word_pair_order (w (ptr_pair.fst d)) (w (ptr_pair.snd d))
      (w (ptr_pair.fst d + n)) (w (ptr_pair.snd d + n)).
Proof.
  intros d n w. unfold cmp.cmp_two_pointers, cmp.bump_dp_word, cmp.cmp_number.
  fold d. cbn [cmp.result cmp.set_result cmp.dp cmp.set_dp ptr_pair.add
                ptr_pair.fst ptr_pair.snd].
  rewrite three_way_ints. unfold word_pair_order, cmp.load_word, w. fold n.
  destruct (load_le m (ptr_pair.fst d) (Z.to_nat n)
            ?= load_le m (ptr_pair.snd d) (Z.to_nat n)) eqn:E; simpl;
    try reflexivity.
  rewrite three_way_ints. reflexivity.
Qed.

(** C7.  Walking a resource compares the two words under each data cursor,
    the first words first and the second words on a tie, and nothing else:
    one unit of fuel is enough whatever the resource's fields are, and the
    result is the same in every memory that holds the same two words under
    each cursor. *)
Theorem walk_res_compares_word_pair tgt lay rom m fuel c :
  decode (get_u8 rom (cmp.sp c)) = Some SHAPE_RES ->
  let d := cmp.dp (cmp.ALIGN_TO (alignof_ptr tgt) c) in
  let n := sizeof_ptr tgt in
  let w a := load_le m a (Z.to_nat n) in
  option_map cmp.result (cmp.walk tgt lay rom m (S fuel) c)
  = Some (word_pair_order (w (ptr_pair.fst d)) (w (ptr_pair.snd d))
            (w (ptr_pair.fst d + n)) (w (ptr_pair.snd d + n)))
  /\ forall m' : data_mem,
       (forall a,
          ptr_pair.fst d <= a < ptr_pair.fst d + 2 * n
          \/ ptr_pair.snd d <= a < ptr_pair.snd d + 2 * n ->
          m' a = m a) ->
       option_map cmp.result (cmp.walk tgt lay rom m' (S fuel) c)
       = option_map cmp.result (cmp.walk tgt lay rom m (S fuel) c).
Proof.
  intros Hop d n w.
  assert (Hw : forall m0,
             option_map cmp.result (cmp.walk tgt lay rom m0 (S fuel) c)
             = Some (cmp.result (cmp.cmp_two_pointers tgt m0 c))).
  { intros m0. cbn [cmp.walk]. rewrite Hop. cbn [bind].
    unfold get_u16_bump, delimited, get_u16_bump, cmp.walk_res2.
    cbn [option_map]. f_equal. cbn [cmp.result cmp.set_sp].
    rewrite !cmp_two_pointers_result. unfold cmp.ALIGN_TO.
    cbn [cmp.align cmp.set_sp cmp.dp cmp.set_dp].
    destruct (cmp.align c); reflexivity. }
  split.
  - rewrite Hw, cmp_two_pointers_result. reflexivity.
  - intros m' Hm. rewrite !Hw, !cmp_two_pointers_result. fold d n.
    assert (Hn : 0 <= n \/ n < 0) by lia.
    assert (Hl : forall a,
               (ptr_pair.fst d <= a /\ a + n <= ptr_pair.fst d + 2 * n)
               \/ (ptr_pair.snd d <= a /\ a + n <= ptr_pair.snd d + 2 * n) ->
               load_le m' a (Z.to_nat n) = load_le m a (Z.to_nat n)).
    { intros a Ha. apply load_le_ext. intros x Hx. apply Hm.
      destruct Hn as [Hn|Hn]; [rewrite Z2Nat.id in Hx by lia; lia|].
      replace (Z.to_nat n) with O in Hx by (destruct n; simpl; lia).
      simpl in Hx. lia. }
    destruct Hn as [Hn|Hn].
    + rewrite !Hl by lia. reflexivity.
    + replace (Z.to_nat n) with O by (destruct n; simpl; lia).
      reflexivity.
Qed.

Lemma walk_res_compares_word_pair_witness :
  decode (get_u8 shape_res_u8 0) = Some SHAPE_RES
  /\ option_map cmp.result
       (cmp.walk target64 layout64 shape_res_u8 two_resources 1
          (cmp.make true 0 no_tables 0 24))
     = Some 0.
Proof.
  split; [reflexivity|].
  destruct (walk_res_compares_word_pair target64 layout64 shape_res_u8
              two_resources 0 (cmp.make true 0 no_tables 0 24) eq_refl)
    as [H _].
  exact H.
Defined.

(** ** The members that the comparison steps leave alone *)

Section CmpFrames.

Import cmp.

Lemma set_result_same c : set_result c (result c) = c.
Proof. destruct c; reflexivity. Qed.

Lemma ALIGN_TO_sp al c : sp (ALIGN_TO al c) = sp c.
Proof. unfold ALIGN_TO. destruct (align c); reflexivity. Qed.

Lemma ALIGN_TO_tables al c : tables (ALIGN_TO al c) = tables c.
Proof. unfold ALIGN_TO. destruct (align c); reflexivity. Qed.

Lemma ALIGN_TO_result al c : result (ALIGN_TO al c) = result c.
Proof. unfold ALIGN_TO. destruct (align c); reflexivity. Qed.

Lemma ALIGN_TO_align al c : align (ALIGN_TO al c) = align c.
Proof. unfold ALIGN_TO. destruct (align c) eqn:E; exact E. Qed.

Lemma ALIGN_TO_dp al c :
  dp (ALIGN_TO al c)
  = if align c then ptr_pair.align_to (dp c) al else dp c.
Proof. unfold ALIGN_TO. destruct (align c); reflexivity. Qed.

Lemma cmp_two_pointers_sp tgt m c : sp (cmp_two_pointers tgt m c) = sp c.
Proof.
  unfold cmp_two_pointers, bump_dp_word, cmp_number.
  destruct (result _ =? 0); cbn; apply ALIGN_TO_sp.
Qed.

Lemma cmp_two_pointers_tables tgt m c :
  tables (cmp_two_pointers tgt m c) = tables c.
Proof.
  unfold cmp_two_pointers, bump_dp_word, cmp_number.
  destruct (result _ =? 0); cbn; apply ALIGN_TO_tables.
Qed.

Lemma cmp_two_pointers_dp tgt m c :
  dp (cmp_two_pointers tgt m c)
  = ptr_pair.add (ptr_pair.add (dp (ALIGN_TO (alignof_ptr tgt) c))
                    (sizeof_ptr tgt)) (sizeof_ptr tgt).
Proof.
  unfold cmp_two_pointers, bump_dp_word, cmp_number.
  destruct (result _ =? 0); reflexivity.
Qed.

Lemma cmp_pointer_sp tgt m c : sp (cmp_pointer tgt m c) = sp c.
Proof. unfold cmp_pointer, bump_dp_word, cmp_number. cbn. apply ALIGN_TO_sp. Qed.

Lemma cmp_pointer_tables tgt m c : tables (cmp_pointer tgt m c) = tables c.
Proof.
  unfold cmp_pointer, bump_dp_word, cmp_number. cbn. apply ALIGN_TO_tables.
Qed.

(** [walk_variant2] and [walk_tag2] work on a sub-walker: of the caller
    they change the result only. *)
Lemma walk_variant2_frame walk fuel tinfo id range c c' :
  walk_variant2 walk fuel tinfo id range c = Some c' ->
  c' = set_result c (result c').
Proof.
  unfold walk_variant2. intros H.
  apply bind_Some in H as [r [_ [= <-]]]. reflexivity.
Qed.

Lemma walk_tag2_frame rom walk fuel tinfo tv c c' :
  walk_tag2 rom walk fuel tinfo tv c = Some c' ->
  c' = set_result c (result c').
Proof.
  unfold walk_tag2, walk_variant1. intros H.
  destruct (negb _).
  - injection H as <-. reflexivity.
  - apply walk_variant2_frame in H. rewrite H at 1. reflexivity.
Qed.

Lemma walk_vec2_frame walk fuel is_pod range c c' :
  walk_vec2 walk fuel is_pod range c = Some c' ->
  c' = set_result c (result c').
Proof.
  unfold walk_vec2. intros H.
  apply bind_Some in H as [r [_ H]].
  destruct (result (set_result c (fst r)) =? 0); injection H as <-; reflexivity.
Qed.

End CmpFrames.

(** ** The shape cursor *)

Section ShapeCursor.

Import cmp.

Variable tgt : target.
Variable lay : layout.
Variable rom : shape_mem.

(** Whatever the data, a walk that returns leaves the shape cursor where
    the shape stream says the shape ends. *)
Lemma walk_shape_end m fuel c c' :
  walk tgt lay rom m fuel c = Some c' ->
  shape_end rom (sp c) = Some (sp c').
Proof.
  destruct fuel as [|fuel]; [discriminate|].
  cbn [walk]. unfold shape_end.
  destruct (decode (get_u8 rom (sp c))) as [op|]; [|discriminate].
  cbn [bind]. unfold delimited, get_u16_bump.
  assert (Hfin : forall a b : Z, a = b -> Some a = Some b) by congruence.
  destruct op; intros H.
  4: { unfold read_tag_info, get_u16_bump in H.
       apply bind_Some in H as [tinfo1 [_ H]].
       match type of H with
       | (let '(_, _) := ?x in _) = _ => destruct x as [tv c1] eqn:E
       end.
       apply bind_Some in H as [c2 [H2 [= <-]]].
       apply walk_tag2_frame in H2. rewrite H2.
       destruct (1 <? variant_count tinfo1); injection E as _ <-;
         cbn [sp set_sp set_dp set_result];
         rewrite ?ALIGN_TO_sp; reflexivity. }
  12: { apply bind_Some in H as [elt [_ H]].
        apply bind_Some in H as [c1 [_ [= <-]]]. reflexivity. }
  all: try (injection H as <-);
    try (apply bind_Some in H as [c1 [_ [= <-]]]).
  all: apply Hfin; unfold walk_res2, walk_fn2, walk_obj2, walk_tydesc2, walk_number2, cmp_number;
    cbn [sp set_sp set_dp set_result snd fst];
    rewrite ?cmp_two_pointers_sp, ?cmp_pointer_sp, ?ALIGN_TO_sp;
    reflexivity.
Qed.

End ShapeCursor.

(** ** A decided comparison *)

Section Decided.

Import cmp.

Lemma result_walker_at pre r rs c :
  sp c = Z.of_nat (List.length pre) ->
  result_walker (pre ++ r :: rs) c
  = Some (set_result (set_sp c (sp c + 1)) r).
Proof.
  intros Hsp. unfold result_walker. rewrite Hsp.
  destruct (Z.ltb_spec (Z.of_nat (List.length pre)) 0); [lia|].
  rewrite Nat2Z.id, nth_error_app2, Nat.sub_diag by lia. reflexivity.
Qed.

Lemma walk_struct2_fields rs :
  forall pre extra c,
    sp c = Z.of_nat (List.length pre) -> result c = 0 ->
    exists c',
      walk_struct2 (result_walker (pre ++ rs)) (List.length rs + extra)
        (Z.of_nat (List.length (pre ++ rs))) c = Some c'
      /\ result c' = first_decided rs
      /\ sp c' = Z.of_nat (List.length pre + fields_walked rs).
Proof.
  induction rs as [|r rs IH]; intros pre extra c Hsp Hr.
  - exists c. rewrite app_nil_r, Nat.add_0_r. repeat split; try assumption.
    destruct (List.length [] + extra)%nat; simpl;
      rewrite Hsp, Z.eqb_refl, andb_false_r; reflexivity.
  - cbn [List.length Nat.add walk_struct2].
    rewrite Hr. cbn [Z.eqb andb].
    assert (Hne : (sp c =? Z.of_nat (List.length (pre ++ r :: rs))) = false).
    { apply Z.eqb_neq. rewrite Hsp, length_app. simpl. lia. }
    rewrite Hne. cbn [negb].
    rewrite (result_walker_at pre r rs c Hsp). cbn [bind first_decided fields_walked].
    destruct (r =? 0) eqn:Er.
    + apply Z.eqb_eq in Er. subst r.
      destruct (IH (pre ++ [0]) extra
                  (set_align (set_result (set_sp c (sp c + 1)) 0) true))
        as [c' (Hw & Hres & Hsp')].
      { cbn [sp set_align set_result set_sp]. rewrite Hsp, length_app.
        simpl. lia. }
      { reflexivity. }
      rewrite <- app_assoc in Hw. cbn [app] in Hw.
      exists c'. split; [exact Hw|]. split; [exact Hres|].
      rewrite Hsp', length_app. simpl. lia.
    + eexists. split.
      * destruct (List.length rs + extra)%nat; simpl; rewrite Er; reflexivity.
      * cbn [result sp set_align set_result set_sp]. rewrite Hsp.
        split; [reflexivity | lia].
Qed.

(** The loop of [walk_variant2] over fields of given results. *)
Lemma walk_variant2_loop_fields rs :
  forall pre extra sub,
    sp sub = Z.of_nat (List.length pre) ->
    exists sub',
      walk_variant2_loop (result_walker (pre ++ rs)) (List.length rs + extra)
        (Z.of_nat (List.length (pre ++ rs))) 0 sub
      = Some (first_decided rs, sub').
Proof.
  induction rs as [|r rs IH]; intros pre extra sub Hsp.
  - exists sub. rewrite app_nil_r.
    destruct (List.length [] + extra)%nat; simpl;
      rewrite Hsp, Z.ltb_irrefl; reflexivity.
  - cbn [List.length Nat.add walk_variant2_loop Z.eqb andb].
    assert (Hlt : (sp sub <? Z.of_nat (List.length (pre ++ r :: rs))) = true).
    { apply Z.ltb_lt. rewrite Hsp, length_app. simpl. lia. }
    rewrite Hlt, (result_walker_at pre r rs sub Hsp).
    cbn [bind first_decided result set_result].
    destruct (r =? 0) eqn:Er.
    + apply Z.eqb_eq in Er. subst r.
      destruct (IH (pre ++ [0]) extra
                  (set_align (set_result (set_sp sub (sp sub + 1)) 0) true))
        as [sub' Hw].
      { cbn [sp set_align set_result set_sp]. rewrite Hsp, length_app.
        simpl. lia. }
      rewrite <- app_assoc in Hw. cbn [app] in Hw.
      exists sub'. exact Hw.
    + eexists.
      destruct (List.length rs + extra)%nat; simpl; rewrite Er; reflexivity.
Qed.

(** C5.  Once the result is not zero the loops of [walk_struct2] and of
    [walk_variant2] return at once and leave it as it is, and in both a
    field that makes it non-zero is the last one walked: over fields whose
    comparisons give the results [rs], both return the first result that is
    not a tie, whatever the later ones are.  [walk_variant2] walks the
    fields on a sub-walker and leaves the walker's own cursor alone.
    [walk_struct2] leaves the shape cursor after the field that decided,
    not at the end of the struct: it is the traversal skeleton that puts
    it at the declared end after the call, so that a walk that returns
    leaves the shape cursor at the same place whatever the data and the
    result are, and the next walk over the stream starts from the same
    cursor. *)
Theorem decided_result_is_final tgt lay rom :
  (forall walk fuel end_sp c,
     result c <> 0 -> walk_struct2 walk fuel end_sp c = Some c)
  /\ (forall walk fuel tinfo variant_id range c,
        result c <> 0 ->
        walk_variant2 walk fuel tinfo variant_id range c = Some c)
  /\ (forall walk fuel end_sp c c1,
        result c = 0 -> sp c <> end_sp ->
        walk c = Some c1 -> result c1 <> 0 ->
        walk_struct2 walk (S fuel) end_sp c = Some (set_align c1 true))
  /\ (forall walk fuel tinfo variant_id vp ve c sub1,
        result c = 0 -> vp < ve ->
        walk (make_sp c vp) = Some sub1 -> result sub1 <> 0 ->
        walk_variant2 walk (S fuel) tinfo variant_id (vp, ve) c
        = Some (set_result c (result sub1)))
  /\ (forall rs extra c,
        exists c',
          walk_struct2 (result_walker rs) (List.length rs + extra)
            (Z.of_nat (List.length rs)) (set_result (set_sp c 0) 0)
          = Some c'
          /\ result c' = first_decided rs
          /\ sp c' = Z.of_nat (fields_walked rs))
  /\ (forall rs extra tinfo variant_id c,
        result c = 0 ->
        walk_variant2 (result_walker rs) (List.length rs + extra) tinfo
          variant_id (0, Z.of_nat (List.length rs)) c
        = Some (set_result c (first_decided rs)))
  /\ (forall m1 m2 fuel1 fuel2 c1 c2 c1' c2',
        sp c1 = sp c2 ->
        walk tgt lay rom m1 fuel1 c1 = Some c1' ->
        walk tgt lay rom m2 fuel2 c2 = Some c2' ->
        sp c1' = sp c2').
Proof.
  split; [| split; [| split; [| split; [| split; [| split]]]]].
  - intros walk fuel end_sp c Hr. apply Z.eqb_neq in Hr.
    destruct fuel; simpl; rewrite Hr; reflexivity.
  - intros walk fuel tinfo variant_id range c Hr. apply Z.eqb_neq in Hr.
    unfold walk_variant2.
    destruct fuel; simpl; rewrite Hr; simpl; rewrite set_result_same;
      reflexivity.
  - intros walk fuel end_sp c c1 Hr Hsp Hw Hr1.
    apply Z.eqb_neq in Hsp, Hr1. simpl.
    rewrite Hr, Hsp, Hw. simpl.
    destruct fuel; simpl; rewrite Hr1; reflexivity.
  - intros walk fuel tinfo variant_id vp ve c sub1 Hr Hlt Hw Hr1.
    apply Z.eqb_neq in Hr1. apply Z.ltb_lt in Hlt.
    unfold walk_variant2. cbn [fst snd walk_variant2_loop].
    rewrite Hr. cbn [Z.eqb andb].
    change (sp (make_sp c vp)) with vp. rewrite Hlt, Hw. cbn [bind].
    destruct fuel; simpl; rewrite Hr1; reflexivity.
  - intros rs extra c.
    exact (walk_struct2_fields rs [] extra (set_result (set_sp c 0) 0)
             eq_refl eq_refl).
  - intros rs extra tinfo variant_id c Hr.
    unfold walk_variant2. cbn [fst snd]. rewrite Hr.
    destruct (walk_variant2_loop_fields rs [] extra (make_sp c 0) eq_refl)
      as [sub' Hw].
    cbn [app] in Hw. rewrite Hw. reflexivity.
  - intros m1 m2 fuel1 fuel2 c1 c2 c1' c2' Hsp H1 H2.
    apply walk_shape_end in H1, H2. rewrite Hsp in H1. congruence.
Qed.

End Decided.

(** The pairs (1, 5) and (2, 5) differ in their first field, the pair
    (1, 5) ties with itself; both walks end with the cursor past the
    struct. *)
Lemma decided_result_is_final_witness :
  option_map cmp.result
    (cmp.walk target64 layout64 shape_u8_u8 three_pairs 3
       (cmp.make true 0 no_tables 0 2)) = Some (-1)
  /\ option_map cmp.result
       (cmp.walk target64 layout64 shape_u8_u8 three_pairs 3
          (cmp.make true 0 no_tables 0 4)) = Some 0
  /\ option_map cmp.sp
       (cmp.walk target64 layout64 shape_u8_u8 three_pairs 3
          (cmp.make true 0 no_tables 0 2))
     = option_map cmp.sp
         (cmp.walk target64 layout64 shape_u8_u8 three_pairs 3
            (cmp.make true 0 no_tables 0 4)).
Proof.
  split; [reflexivity|]. split; [reflexivity|].
  destruct (cmp.walk target64 layout64 shape_u8_u8 three_pairs 3
              (cmp.make true 0 no_tables 0 2)) as [c1'|] eqn:E1;
    [|discriminate E1].
  destruct (cmp.walk target64 layout64 shape_u8_u8 three_pairs 3
              (cmp.make true 0 no_tables 0 4)) as [c2'|] eqn:E2;
    [|discriminate E2].
  simpl. f_equal.
  exact (proj2 (proj2 (proj2 (proj2 (proj2 (proj2
           (decided_result_is_final target64 layout64 shape_u8_u8))))))
           three_pairs three_pairs 3%nat 3%nat
           (cmp.make true 0 no_tables 0 2) (cmp.make true 0 no_tables 0 4)
           c1' c2' eq_refl E1 E2).
Defined.

(** ** Comparison of vectors *)

Lemma to_signed_small (x : Z) :
  - 2 ^ 31 <= x < 2 ^ 31 -> to_signed 32 x = x.
Proof.
  intros H. unfold to_signed. change (32 - 1) with 31.
  destruct (Z_lt_le_dec x 0) as [Hn|Hp].
  - assert (Hm : x mod 2 ^ 32 = x + 2 ^ 32).
    { symmetry. apply (Z.mod_unique_pos _ _ (-1)); lia. }
    rewrite Hm. destruct (Z.ltb_spec (x + 2 ^ 32) (2 ^ 31)); lia.
  - rewrite Z.mod_small by lia.
    destruct (Z.ltb_spec x (2 ^ 31)); lia.
Qed.

Section VecCompare.

Import cmp vec_spec.

Variable walk : cmp.t -> option cmp.t.
Variable k : Z.
Variable elt : Z -> Z -> Z.
Variable first last : ptr_pair.t.
Variable elt_sp : Z.
Variable tb : rust_shape_tables.

Hypothesis k_pos : 0 < k.

(** Within both ranges, the walk of the element shape gives the element
    pair's result and, on a tie, moves both cursors past the element. *)
Hypothesis walk_element :
  forall sub,
    sp sub = elt_sp -> tables sub = tb ->
    ptr_pair.lt (dp sub) last = true -> result sub = 0 ->
    exists sub',
      walk sub = Some sub'
      /\ tables sub' = tb
      /\ result sub' = elt (ptr_pair.fst (dp sub)) (ptr_pair.snd (dp sub))
      /\ (result sub' = 0 -> dp sub' = ptr_pair.add (dp sub) k).

Lemma elements_nil a e : e <= a -> elements k a e = [].
Proof.
  intros H. unfold elements, count.
  replace (Z.to_nat ((e - a + k - 1) / k)) with O; [reflexivity|].
  assert ((e - a + k - 1) / k <= 0); [|lia].
  apply Z.lt_succ_r. apply Z.div_lt_upper_bound; lia.
Qed.

Lemma elements_cons a e : a < e -> elements k a e = a :: elements k (a + k) e.
Proof.
  intros H. unfold elements, count.
  replace (e - a + k - 1) with ((e - (a + k) + k - 1) + 1 * k) by lia.
  rewrite Z.div_add by lia.
  assert (0 <= (e - (a + k) + k - 1) / k) by (apply Z.div_pos; lia).
  replace (Z.to_nat ((e - (a + k) + k - 1) / k + 1))
    with (S (Z.to_nat ((e - (a + k) + k - 1) / k))) by lia.
  cbn [seq map]. f_equal; [simpl; lia|].
  rewrite <- seq_shift, map_map. apply map_ext. intros i. lia.
Qed.

Lemma walk_vec2_loop_first_mismatch fuel :
  forall sub,
    sp sub = elt_sp -> tables sub = tb ->
    result sub = 0 ->
    (List.length (compared_pairs k (dp sub) last) <= fuel)%nat ->
    exists sub',
      walk_vec2_loop walk fuel last 0 sub
      = Some (first_mismatch elt (compared_pairs k (dp sub) last), sub').
Proof.
  induction fuel as [|fuel IH]; intros sub Hsp Htb Hr Hn;
    unfold compared_pairs in *.
  - destruct (ptr_pair.lt (dp sub) last) eqn:Hlt.
    + unfold ptr_pair.lt in Hlt. apply andb_prop in Hlt as [H1 H2].
      apply Z.ltb_lt in H1, H2.
      rewrite (elements_cons _ _ H1), (elements_cons _ _ H2) in Hn.
      simpl in Hn. lia.
    + simpl. rewrite Hlt. simpl. exists sub.
      unfold ptr_pair.lt in Hlt. apply andb_false_iff in Hlt as [H|H];
        apply Z.ltb_ge in H; rewrite (elements_nil _ _ H).
      * reflexivity.
      * destruct (elements k _ _); reflexivity.
  - cbn [walk_vec2_loop]. cbn [Z.eqb andb].
    destruct (ptr_pair.lt (dp sub) last) eqn:Hlt.
    + destruct (walk_element sub Hsp Htb Hlt Hr)
        as [sub1 [Hw [Htb1 [Hres Hdp]]]].
      unfold walk_reset. rewrite Hw. cbn [bind result set_sp].
      unfold ptr_pair.lt in Hlt. apply andb_prop in Hlt as [H1 H2].
      apply Z.ltb_lt in H1, H2.
      rewrite (elements_cons _ _ H1), (elements_cons _ _ H2) in *.
      cbn [combine first_mismatch List.length] in *.
      rewrite <- Hres.
      destruct (result sub1 =? 0) eqn:Hz.
      * apply Z.eqb_eq in Hz.
        destruct (IH (set_align (set_sp sub1 (sp sub)) true)) as [sub' Hs].
        { exact Hsp. }
        { exact Htb1. }
        { exact Hz. }
        { cbn [dp set_align set_sp]. rewrite (Hdp Hz).
          cbn [ptr_pair.add ptr_pair.fst ptr_pair.snd]. lia. }
        exists sub'. rewrite Hz. rewrite Hs.
        cbn [dp set_align set_sp]. rewrite (Hdp Hz). reflexivity.
      * exists (set_align (set_sp sub1 (sp sub)) true).
        destruct fuel; simpl; rewrite Hz; reflexivity.
    + exists sub. unfold ptr_pair.lt in Hlt.
      apply andb_false_iff in Hlt as [H|H];
        apply Z.ltb_ge in H; rewrite (elements_nil _ _ H).
      * reflexivity.
      * destruct (elements k _ _); reflexivity.
Qed.

Hypothesis len_fst_int :
  - 2 ^ 31 <= ptr_pair.fst last - ptr_pair.fst first < 2 ^ 31.
Hypothesis len_snd_int :
  - 2 ^ 31 <= ptr_pair.snd last - ptr_pair.snd first < 2 ^ 31.

(** For vectors whose byte lengths fit in an [int], [walk_vec2] computes
    the order of the specification: with fuel for the pairs below both
    lengths, it returns the first result that is not a tie and, when all
    tie, the order of the lengths. *)
Lemma walk_vec2_lexicographic fuel is_pod c :
  sp c = elt_sp -> tables c = tb ->
  result c = 0 ->
  (List.length (compared_pairs k first last) <= fuel)%nat ->
  option_map result (walk_vec2 walk fuel is_pod (first, last) c)
  = Some (vec_order k elt first last).
Proof.
  intros Hsp Htb Hr Hn. unfold walk_vec2. cbn [fst snd]. rewrite Hr.
  destruct (walk_vec2_loop_first_mismatch fuel
              (set_end_dp (make_dp c first) last) Hsp Htb eq_refl Hn)
    as [sub' Hs].
  rewrite Hs. cbn [bind fst result set_result]. unfold vec_order.
  cbn [dp set_end_dp make_dp].
  destruct (first_mismatch elt (compared_pairs k first last) =? 0);
    [| reflexivity].
  cbn [option_map]. unfold cmp_number. cbn [result set_result].
  rewrite three_way_ints. unfold int_of_ptrdiff.
  rewrite !to_signed_small by assumption. reflexivity.
Qed.

End VecCompare.

(** *** Byte vectors *)

Section ByteVectors.

Import cmp vec_spec.

Variable lay : layout.
Variable rom : shape_mem.
Variable m : data_mem.

Lemma load_le_1 (a : Z) : load_le m a 1 = load_u8 m a.
Proof. simpl. lia. Qed.

Lemma align_to_1 (x : Z) : align_to x 1 = x.
Proof. unfold align_to. rewrite Z.div_1_r. lia. Qed.

Lemma walk_byte_element fuel last elt_sp tb sub :
  decode (get_u8 rom elt_sp) = Some (SHAPE_NUMBER U8) ->
  sp sub = elt_sp -> tables sub = tb ->
  ptr_pair.lt (dp sub) last = true -> result sub = 0 ->
  exists sub',
    walk target64 lay rom m (S fuel) sub = Some sub'
    /\ tables sub' = tb
    /\ result sub' = byte_order m (ptr_pair.fst (dp sub)) (ptr_pair.snd (dp sub))
    /\ (result sub' = 0 -> dp sub' = ptr_pair.add (dp sub) 1).
Proof.
  intros Hop Hsp Htb _ _. cbn [walk]. rewrite Hsp, Hop. cbn [bind].
  eexists. split; [reflexivity|].
  unfold walk_number2, cmp_number, get_dp, load_number.
  cbn [tables result dp set_dp set_result sizeof_number Z.to_nat
       Pos.to_nat Pos.iter_op load_le Init.Nat.add].
  rewrite ALIGN_TO_tables, ALIGN_TO_dp.
  cbn [tables set_sp align dp alignof_number target64 sizeof_number].
  assert (Hd : (if align sub then ptr_pair.align_to (dp sub) 1 else dp sub)
               = dp sub).
  { destruct (align sub); [|reflexivity].
    unfold ptr_pair.align_to. rewrite !align_to_1. destruct (dp sub).
    reflexivity. }
  rewrite Hd. split; [exact Htb|]. split; [|reflexivity].
  unfold byte_order, length_order.
  rewrite <- three_way_ints. unfold three_way, ints.
  change (Pos.to_nat 1) with 1%nat. rewrite !load_le_1. reflexivity.
Qed.

(** Two byte vectors whose lengths fit in an [int] are ordered as the
    specification says, by the real walker over the element shape [u8]. *)
Lemma walk_vec2_bytes fuel is_pod first last c :
  decode (get_u8 rom (sp c)) = Some (SHAPE_NUMBER U8) ->
  result c = 0 ->
  - 2 ^ 31 <= ptr_pair.fst last - ptr_pair.fst first < 2 ^ 31 ->
  - 2 ^ 31 <= ptr_pair.snd last - ptr_pair.snd first < 2 ^ 31 ->
  (List.length (compared_pairs 1 first last) <= fuel)%nat ->
  option_map result
    (walk_vec2 (walk target64 lay rom m (S fuel)) fuel is_pod (first, last) c)
  = Some (vec_order 1 (byte_order m) first last).
Proof.
  intros Hop Hr H1 H2 Hn.
  apply (walk_vec2_lexicographic (walk target64 lay rom m (S fuel)) 1
           (byte_order m) first last (sp c) (tables c)); auto; try lia.
  intros sub Hsp Htb Hlt Hres.
  apply (walk_byte_element fuel last (sp c) (tables c)); assumption.
Qed.

End ByteVectors.

(** C2, at a vector of 2^31 bytes.  The byte vectors of the specification's
    examples are ordered as it says: [1, 2] is before [1, 2, 3], and
    [1, 3] is after it.  But the lengths that decide a tie are the
    differences of the pointers kept in an [int]: the vector of 2^31 zero
    bytes is found to be before the empty vector, which is its prefix, where
    the order of the two lengths puts it after. *)
Theorem walk_vec2_length_in_int :
  option_map cmp.result
    (cmp.walk target64 layout64 shape_vec_u8 (two_vecs [1; 2] [1; 2; 3]) 5
       (cmp.make true 0 no_tables 0 8)) = Some (-1)
  /\ option_map cmp.result
       (cmp.walk target64 layout64 shape_vec_u8 (two_vecs [1; 3] [1; 2; 3]) 5
          (cmp.make true 0 no_tables 0 8)) = Some 1
  /\ get_vec_data_range layout64 huge_vec 0 = (24, 24 + 2 ^ 31)
  /\ get_vec_data_range layout64 huge_vec 8 = (40, 40)
  /\ option_map cmp.result
       (cmp.walk target64 layout64 shape_vec_u8 huge_vec 2
          (cmp.make true 0 no_tables 0 8)) = Some (-1)
  /\ shape_cmp_type target64 layout64 shape_vec_u8 huge_vec 2 0
       tydesc_vec_u8 0 8 CMP_LT = Some 1
  /\ vec_spec.length_order (2 ^ 31) 0 = 1.
Proof. repeat split; vm_compute; reflexivity. Qed.

(** ** More fuel does not change a size *)

Section SizeOfFuel.

Import size_of.

Variable tgt : target.
Variable rom : shape_mem.

Lemma walk_struct1_loop_mono w w' n :
  extends w w' ->
  forall n' end_sp first struct_sa c r,
    (n <= n')%nat ->
    walk_struct1_loop w n end_sp first struct_sa c = Some r ->
    walk_struct1_loop w' n' end_sp first struct_sa c = Some r.
Proof.
  intros Hw. induction n as [|n IH]; intros n' end_sp first struct_sa c r Hn H.
  - simpl in H. destruct (sp c =? end_sp) eqn:E; [|discriminate].
    destruct n'; simpl; rewrite E; exact H.
  - simpl in H. destruct (sp c =? end_sp) eqn:E.
    + destruct n'; simpl; rewrite E; exact H.
    + destruct n' as [|n']; [lia|]. simpl. rewrite E.
      apply bind_Some in H as [c1 [H1 H2]].
      rewrite (Hw _ _ H1). simpl. apply IH; [lia | exact H2].
Qed.

Lemma walk_struct1_mono w w' n n' end_sp c r :
  extends w w' -> (n <= n')%nat ->
  walk_struct1 w n end_sp c = Some r ->
  walk_struct1 w' n' end_sp c = Some r.
Proof.
  intros Hw Hn H. unfold walk_struct1 in *.
  apply bind_Some in H as [x [H1 H2]].
  rewrite (walk_struct1_loop_mono w w' n Hw n' _ _ _ _ x Hn H1). exact H2.
Qed.

Lemma largest_variants_loop_mono w w' n n' c :
  extends w w' -> (n <= n')%nat ->
  forall k tinfo r,
    largest_variants_loop rom w n c k tinfo = Some r ->
    largest_variants_loop rom w' n' c k tinfo = Some r.
Proof.
  intros Hw Hn. induction k as [|k IH]; intros tinfo r H; [exact H|].
  cbn [largest_variants_loop] in *.
  destruct (get_u16_bump rom (largest_variants_ptr tinfo)) as [id lvp].
  destruct (get_variant_sp rom (tables c) _ id) as [vp ve].
  apply bind_Some in H as [x [H1 H2]].
  rewrite variant_size_loop_struct in H1 |- *.
  rewrite (walk_struct1_loop_mono w w' n Hw n' _ _ _ _ x Hn H1).
  cbn [bind]. apply IH. exact H2.
Qed.

Lemma compute_tag_size_mono w w' n n' c tinfo r :
  extends w w' -> (n <= n')%nat ->
  compute_tag_size tgt rom w n c tinfo = Some r ->
  compute_tag_size tgt rom w' n' c tinfo = Some r.
Proof.
  intros Hw Hn H. unfold compute_tag_size in *.
  destruct (is_set (tag_sa tinfo)); [exact H|].
  destruct (get_u16_bump rom (largest_variants_ptr tinfo)) as [k lvp].
  apply bind_Some in H as [x [H1 H2]].
  rewrite (largest_variants_loop_mono w w' n n' c Hw Hn _ _ x H1). exact H2.
Qed.

Lemma size_of_walk_mono n :
  forall n', (n <= n')%nat -> extends (walk tgt rom n) (walk tgt rom n').
Proof.
  induction n as [|n IH]; intros n' Hn c r H; [discriminate|].
  destruct n' as [|n']; [lia|].
  assert (Hw : extends (walk tgt rom n) (walk tgt rom n')) by (apply IH; lia).
  cbn [walk] in *.
  destruct (decode (get_u8 rom (sp c))) as [op|]; [|discriminate].
  cbn [bind] in *.
  destruct op; try exact H.
  - (* tag *)
    destruct (read_tag_info rom _ _) as [tinfo p1].
    apply bind_Some in H as [x [H1 H2]].
    unfold walk_tag1 in *.
    apply bind_Some in H1 as [t1 [H1 H3]].
    rewrite (compute_tag_size_mono _ (walk tgt rom n') n n' _ _ t1 Hw
               ltac:(lia) H1).
    cbn [bind]. injection H3 as <-. exact H2.
  - (* struct *)
    destruct (delimited rom _) as [body end_sp].
    apply bind_Some in H as [x [H1 H2]].
    rewrite (walk_struct1_mono _ (walk tgt rom n') n n' _ _ x Hw ltac:(lia) H1).
    exact H2.
  - (* fixed vector *)
    destruct (get_u16_bump rom _) as [n_elts p1].
    destruct (delimited rom _) as [body end_sp].
    apply bind_Some in H as [x [H1 H2]].
    rewrite (Hw _ _ H1). exact H2.
Qed.

Lemma compute_tag_size_for_mono n n' tb tinfo r :
  (n <= n')%nat ->
  compute_tag_size_for tgt rom n tb tinfo = Some r ->
  compute_tag_size_for tgt rom n' tb tinfo = Some r.
Proof.
  intros Hn H. unfold compute_tag_size_for in *.
  apply (compute_tag_size_mono (walk tgt rom n) (walk tgt rom n') n n');
    [apply size_of_walk_mono; exact Hn | exact Hn | exact H].
Qed.

End SizeOfFuel.

(** ** Comparing an instance with itself *)

Section Reflexive.

Import cmp.

Variable tgt : target.
Variable lay : layout.
Variable rom : shape_mem.
Variable m : data_mem.

Lemma three_way_same (v : number) :
  number_eqb v v = true ->
  three_way (data_pair.make v v) = 0.
Proof.
  intros H. unfold three_way. cbn [data_pair.fst data_pair.snd]. rewrite H.
  destruct v as [z|f]; simpl in *.
  - rewrite Z.ltb_irrefl. reflexivity.
  - unfold SFeqb in H. unfold SFltb.
    destruct (SFcompare f f) as [[| |]|]; try discriminate. reflexivity.
Qed.

Lemma three_way_ints_same (z : Z) :
  three_way (ints (data_pair.make z z)) = 0.
Proof. rewrite three_way_ints, Z.compare_refl. reflexivity. Qed.

Lemma ALIGN_TO_both al a c d :
  align c = al -> dp c = both d ->
  dp (ALIGN_TO a c) = both (aligned al d a).
Proof.
  intros Ha Hd. rewrite ALIGN_TO_dp, Ha, Hd. unfold aligned.
  destruct al; reflexivity.
Qed.

Lemma cmp_two_pointers_same c d :
  dp c = both d ->
  result (cmp_two_pointers tgt m c) = 0.
Proof.
  intros Hd. rewrite cmp_two_pointers_result.
  rewrite (ALIGN_TO_both (align c) (alignof_ptr tgt) c d eq_refl Hd).
  unfold word_pair_order, both. cbn [ptr_pair.fst ptr_pair.snd].
  rewrite !Z.compare_refl. reflexivity.
Qed.

Lemma cmp_pointer_same c d :
  dp c = both d ->
  result (cmp_pointer tgt m c) = 0.
Proof.
  intros Hd. unfold cmp_pointer, bump_dp_word, cmp_number.
  cbn [result set_result].
  rewrite (ALIGN_TO_both (align c) (alignof_ptr tgt) c d eq_refl Hd).
  apply three_way_ints_same.
Qed.

(** A vector compared with itself: when the loop over the elements ends in
    a tie, so does the comparison of the lengths. *)
Lemma walk_vec2_same walk fuel is_pod s e c sub' :
  result c = 0 ->
  walk_vec2_loop walk fuel (both e) 0
    (set_end_dp (make_dp c (both s)) (both e)) = Some (0, sub') ->
  walk_vec2 walk fuel is_pod (both s, both e) c = Some (set_result c 0).
Proof.
  intros Hr Hl. unfold walk_vec2. cbn [fst snd]. rewrite Hr, Hl.
  cbn [bind fst result set_result Z.eqb]. unfold cmp_number.
  rewrite three_way_ints_same. destruct c; reflexivity.
Qed.

Lemma set_dp_same c d : dp c = d -> set_dp c d = c.
Proof. intros <-. destruct c; reflexivity. Qed.

(** The discriminants of a tag compared with itself tie, and the walk goes
    on into the variant. *)
Lemma walk_tag2_same walk fuel tinfo v c vp ve sub' :
  get_variant_sp rom (tables c) tinfo v = (vp, ve) ->
  walk_variant2_loop walk fuel ve 0 (make_sp (set_result c 0) vp)
  = Some (0, sub') ->
  walk_tag2 rom walk fuel tinfo (data_pair.make v v) c
  = Some (set_result c 0).
Proof.
  intros Hv Hl. unfold walk_tag2, cmp_number.
  rewrite three_way_ints_same. cbn [result set_result Z.eqb negb].
  unfold walk_variant1, walk_variant2.
  cbn [tables set_result data_pair.fst]. rewrite Hv. cbn [fst snd result set_result].
  rewrite Hl. reflexivity.
Qed.

End Reflexive.

Section ReflexiveWalk.

Import cmp.

Variable tgt : target.
Variable lay : layout.
Variable rom : shape_mem.
Variable m : data_mem.
Variable tb : rust_shape_tables.

Lemma value_ok_ties :
  (forall al p d p' d',
     value_ok tgt lay rom m tb al p d p' d' ->
     walk_ties tgt lay rom m tb al p d p' d')
  /\ (forall strict al p e d d',
        fields_ok tgt lay rom m tb strict al p e d d' ->
        fields_tie tgt lay rom m tb strict al p e d d')
  /\ (forall al p d e,
        elems_ok tgt lay rom m tb al p d e ->
        elems_tie tgt lay rom m tb al p d e).
Proof.
  apply value_ok_mutind.
  - (* number *)
    intros al p d k Hop d0 Hnan. exists 1%nat.
    intros [|fuel] Hf c (Hsp & Htb & Hal & Hdp & Hr); [lia|].
    cbn [walk]. rewrite Hsp, Hop. cbn [bind].
    eexists. split; [reflexivity|].
    unfold walk_number2, cmp_number, get_dp.
    cbn [sp tables dp result set_dp set_result].
    rewrite ALIGN_TO_sp, ALIGN_TO_tables.
    rewrite (ALIGN_TO_both al (alignof_number tgt k) _ d); [|exact Hal|exact Hdp].
    fold d0. cbn [sp tables set_sp both ptr_pair.fst ptr_pair.snd ptr_pair.add].
    repeat split; try assumption. apply three_way_same. exact Hnan.
  - (* struct *)
    intros al p d body end_sp d' Hop Hdel _ [N IH]. exists (S N).
    intros [|fuel] Hf c (Hsp & Htb & Hal & Hdp & Hr); [lia|].
    cbn [walk]. rewrite Hsp, Hop. cbn [bind sp set_sp]. rewrite Hdel.
    destruct (IH fuel fuel ltac:(lia) ltac:(lia)
                (set_sp (set_sp c (p + 1)) body))
      as [c1 (Hw & Htb1 & Hdp1 & Hr1)].
    { repeat split; assumption. }
    rewrite Hw. cbn [bind]. eexists. split; [reflexivity|].
    repeat split; assumption.
  - (* tag *)
    intros al p d tinfo p1 n tinfo1 vp ve d' Hop Hinfo Hsize
           has_tag d0 v d1 Hvar _ [N IH].
    exists (S (Nat.max N n)).
    intros [|fuel] Hf c (Hsp & Htb & Hal & Hdp & Hr); [lia|].
    cbn [walk]. rewrite Hsp, Hop. cbn [bind sp tables set_sp].
    rewrite Htb, Hinfo. cbn [tables set_sp].
    rewrite ?Htb.
    rewrite (compute_tag_size_for_mono tgt rom n fuel tb tinfo tinfo1
               ltac:(lia) Hsize).
    cbn [bind]. fold has_tag.
    set (c0 := if has_tag then ALIGN_TO _ _ else _).
    assert (Hc0 : at_both tb al p1 d0 c0).
    { unfold c0, d0. destruct has_tag.
      - repeat split; rewrite ?ALIGN_TO_sp, ?ALIGN_TO_tables, ?ALIGN_TO_align,
          ?ALIGN_TO_result; try assumption; try reflexivity.
        apply ALIGN_TO_both; assumption.
      - repeat split; assumption. }
    destruct Hc0 as (Hsp0 & Htb0 & Hal0 & Hdp0 & Hr0).
    assert (Hpair :
              (if has_tag then bump_dp_word m (sizeof_tag_variant_t tgt) c0
               else (data_pair.make 0 0, c0))
              = (data_pair.make v v, set_dp c0 (both d1))).
    { unfold v, d1, bump_dp_word, load_word. rewrite Hdp0.
      destruct has_tag; [reflexivity|].
      rewrite <- Hdp0, (set_dp_same c0 _ eq_refl). reflexivity. }
    rewrite Hpair.
    destruct (IH fuel fuel ltac:(lia) ltac:(lia)
                (make_sp (set_result (set_dp c0 (both d1)) 0) vp))
      as [sub' Hl].
    { unfold make_sp. cbn [sp tables align dp result set_result set_dp].
      repeat split; assumption. }
    rewrite (walk_tag2_same rom (walk tgt lay rom m fuel) fuel tinfo1 v
               (set_dp c0 (both d1)) vp ve sub');
      [| cbn [tables set_dp]; rewrite Htb0; exact Hvar | exact Hl].
    cbn [bind]. eexists. split; [reflexivity|].
    cbn [sp tables dp result set_dp set_result]. rewrite Hdp0.
    repeat split; assumption.
  - (* indirection *)
    intros al p d op body end_sp p' d' Hop Hind Hdel d0 _ [N IH].
    exists (S N).
    intros [|fuel] Hf c (Hsp & Htb & Hal & Hdp & Hr); [lia|].
    cbn [walk]. rewrite Hsp, Hop. cbn [bind sp set_sp].
    assert (Hgoal :
      exists c',
        (let '(body, end_sp) := delimited rom (p + 1) in
         let c0 := ALIGN_TO (alignof_ptr tgt) (set_sp (set_sp c (p + 1)) body) in
         let next_dp := ptr_pair.add (dp c0) (sizeof_ptr tgt) in
         let '(box_ptr, c1) := bump_dp_word m (sizeof_ptr tgt) c0 in
         let body_dp :=
           ptr_pair.make (box_body lay (data_pair.fst box_ptr))
                         (box_body lay (data_pair.snd box_ptr)) in
         let sub := make_at c1 (sp c1) (tables c1) body_dp in
         c2 <- walk_box_contents2 (walk tgt lay rom m fuel) sub c1 ;;
         Some (set_sp (set_dp c2 next_dp) end_sp)) = Some c'
        /\ sp c' = end_sp /\ tables c' = tb
        /\ dp c' = both (d0 + sizeof_ptr tgt) /\ result c' = 0).
    { rewrite Hdel. cbn zeta. unfold bump_dp_word, load_word.
      rewrite (ALIGN_TO_both al (alignof_ptr tgt) _ d); [|exact Hal|exact Hdp].
      fold d0. cbn [both ptr_pair.fst ptr_pair.snd data_pair.fst data_pair.snd].
      unfold walk_box_contents2.
      match goal with
      | |- context [walk tgt lay rom m fuel ?sub] =>
          destruct (IH fuel ltac:(lia) sub) as [sub1 (Hw & _ & _ & _ & Hr1)]
      end.
      { unfold make_at. cbn [sp tables align dp result set_align set_dp].
        rewrite ALIGN_TO_sp, ALIGN_TO_tables. repeat split; assumption. }
      rewrite Hw. cbn [bind]. eexists. split; [reflexivity|].
      cbn [sp tables dp result set_sp set_dp set_result].
      rewrite ALIGN_TO_tables. repeat split; assumption. }
    destruct op; try discriminate Hind; exact Hgoal.
  - (* vector *)
    intros al p d body end_sp s e Hop Hdel d0 Hrange _ [N IH].
    exists (S N).
    intros [|fuel] Hf c (Hsp & Htb & Hal & Hdp & Hr); [lia|].
    cbn [walk]. rewrite Hsp, Hop. cbn [bind sp set_sp]. rewrite Hdel.
    cbn zeta. unfold walk_vec2_boxed, pair_range.
    set (c0 := ALIGN_TO _ _).
    assert (Hc0 : at_both tb al body d0 c0).
    { unfold c0, d0.
      repeat split; rewrite ?ALIGN_TO_sp, ?ALIGN_TO_tables, ?ALIGN_TO_align,
        ?ALIGN_TO_result; try assumption; try reflexivity.
      apply ALIGN_TO_both; assumption. }
    destruct Hc0 as (Hsp0 & Htb0 & Hal0 & Hdp0 & Hr0).
    rewrite Hdp0. cbn [both ptr_pair.fst ptr_pair.snd]. rewrite Hrange.
    fold (both s) (both e).
    destruct (IH fuel fuel ltac:(lia) ltac:(lia)
                (set_end_dp (make_dp c0 (both s)) (both e))) as [sub' Hl].
    { repeat split; assumption. }
    rewrite (walk_vec2_same _ _ _ _ _ _ sub' Hr0 Hl).
    cbn [bind]. eexists. split; [reflexivity|].
    cbn [sp tables dp result set_sp set_dp set_result ptr_pair.add both
         ptr_pair.fst ptr_pair.snd].
    repeat split; try assumption; reflexivity.
  - (* unboxed vector *)
    intros al p d body end_sp s e Hop Hdel Hrange _ [N IH].
    exists (S N).
    intros [|fuel] Hf c (Hsp & Htb & Hal & Hdp & Hr); [lia|].
    cbn [walk]. rewrite Hsp, Hop. cbn [bind sp set_sp]. rewrite Hdel.
    cbn zeta. unfold walk_unboxed_vec2, pair_range.
    cbn [dp set_sp]. rewrite Hdp. cbn [both ptr_pair.fst ptr_pair.snd].
    rewrite Hrange. fold (both s) (both e).
    destruct (IH fuel fuel ltac:(lia) ltac:(lia)
                (set_end_dp
                   (make_dp (set_sp (set_sp c (p + 1)) body) (both s))
                   (both e))) as [sub' Hl].
    { repeat split; assumption. }
    rewrite (walk_vec2_same _ _ _ _ _ (set_sp (set_sp c (p + 1)) body)
               sub' Hr Hl).
    cbn [bind]. eexists. split; [reflexivity|].
    cbn [sp tables dp result set_sp set_dp set_result snd].
    repeat split; try assumption; reflexivity.
  - (* slice *)
    intros al p d body end_sp s e Hop Hdel d0 Hrange _ [N IH].
    exists (S N).
    intros [|fuel] Hf c (Hsp & Htb & Hal & Hdp & Hr); [lia|].
    cbn [walk]. rewrite Hsp, Hop. cbn [bind sp set_sp]. rewrite Hdel.
    cbn zeta. unfold walk_slice2, pair_range.
    set (c0 := ALIGN_TO _ _).
    assert (Hc0 : at_both tb al body d0 c0).
    { unfold c0, d0.
      repeat split; rewrite ?ALIGN_TO_sp, ?ALIGN_TO_tables, ?ALIGN_TO_align,
        ?ALIGN_TO_result; try assumption; try reflexivity.
      apply ALIGN_TO_both; assumption. }
    destruct Hc0 as (Hsp0 & Htb0 & Hal0 & Hdp0 & Hr0).
    rewrite Hdp0. cbn [both ptr_pair.fst ptr_pair.snd]. rewrite Hrange.
    fold (both s) (both e).
    destruct (IH fuel fuel ltac:(lia) ltac:(lia)
                (set_end_dp (make_dp c0 (both s)) (both e))) as [sub' Hl].
    { repeat split; assumption. }
    rewrite (walk_vec2_same _ _ _ _ _ _ sub' Hr0 Hl).
    cbn [bind]. eexists. split; [reflexivity|].
    cbn [sp tables dp result set_sp set_dp set_result ptr_pair.add both
         ptr_pair.fst ptr_pair.snd].
    repeat split; try assumption; reflexivity.
  - (* fixed vector *)
    intros al p d body end_sp n elt Hop Hdel Hsize elt_sa d0 d1 _ [N IH].
    exists (S (Nat.max N n)).
    intros [|fuel] Hf c (Hsp & Htb & Hal & Hdp & Hr); [lia|].
    cbn [walk]. rewrite Hsp, Hop. cbn [bind sp tables set_sp].
    unfold get_u16_bump. rewrite Hdel, Htb.
    rewrite (size_of_walk_mono tgt rom n fuel ltac:(lia) _ _ Hsize).
    cbn [bind]. fold elt_sa. unfold walk_fixedvec2, get_fixedvec_data_range.
    set (c0 := ALIGN_TO _ _).
    assert (Hc0 : at_both tb al body d0 c0).
    { unfold c0, d0.
      repeat split; rewrite ?ALIGN_TO_sp, ?ALIGN_TO_tables, ?ALIGN_TO_align,
        ?ALIGN_TO_result; try assumption; try reflexivity.
      apply ALIGN_TO_both; assumption. }
    destruct Hc0 as (Hsp0 & Htb0 & Hal0 & Hdp0 & Hr0).
    rewrite Hdp0. cbn [both ptr_pair.add ptr_pair.fst ptr_pair.snd].
    fold d1. fold (both d0) (both d1).
    destruct (IH fuel fuel ltac:(lia) ltac:(lia)
                (set_end_dp (make_dp c0 (both d0)) (both d1))) as [sub' Hl].
    { repeat split; assumption. }
    rewrite (walk_vec2_same _ _ _ _ _ _ sub' Hr0 Hl).
    cbn [bind]. eexists. split; [reflexivity|].
    cbn [sp tables dp result set_sp set_dp set_result].
    repeat split; try assumption; reflexivity.
  - (* function and object values *)
    intros al p d op Hop Hwp. exists 1%nat.
    intros [|fuel] Hf c (Hsp & Htb & Hal & Hdp & Hr); [lia|].
    cbn [walk]. rewrite Hsp, Hop. cbn [bind].
    set (c0 := ALIGN_TO (alignof_ptr tgt) (set_sp c (p + 1))).
    assert (Hdp0 : dp c0 = both (aligned al d (alignof_ptr tgt)))
      by (apply ALIGN_TO_both; assumption).
    assert (Hgoal :
      exists c',
        Some (set_dp (cmp_two_pointers tgt m c0)
                (ptr_pair.add (dp c0) (2 * sizeof_ptr tgt))) = Some c'
        /\ sp c' = p + 1 /\ tables c' = tb
        /\ dp c' = both (aligned al d (alignof_ptr tgt) + 2 * sizeof_ptr tgt)
        /\ result c' = 0).
    { eexists. split; [reflexivity|].
      cbn [sp tables dp result set_dp].
      rewrite cmp_two_pointers_sp, cmp_two_pointers_tables, Hdp0.
      unfold c0. rewrite ALIGN_TO_sp, ALIGN_TO_tables.
      repeat split; try assumption; try reflexivity.
      apply (cmp_two_pointers_same tgt m _ _ Hdp0). }
    destruct op; try discriminate Hwp; exact Hgoal.
  - (* type descriptor *)
    intros al p d Hop. exists 1%nat.
    intros [|fuel] Hf c (Hsp & Htb & Hal & Hdp & Hr); [lia|].
    cbn [walk]. rewrite Hsp, Hop. cbn [bind].
    set (c0 := ALIGN_TO (alignof_ptr tgt) (set_sp c (p + 1))).
    assert (Hdp0 : dp c0 = both (aligned al d (alignof_ptr tgt)))
      by (apply ALIGN_TO_both; assumption).
    eexists. split; [reflexivity|]. unfold walk_tydesc2.
    cbn [sp tables dp result set_dp].
    rewrite cmp_pointer_sp, cmp_pointer_tables, Hdp0.
    unfold c0. rewrite ALIGN_TO_sp, ALIGN_TO_tables.
    repeat split; try assumption; try reflexivity.
    apply (cmp_pointer_same tgt m _ _ Hdp0).
  - (* resource *)
    intros al p d body end_sp Hop Hdel. exists 1%nat.
    intros [|fuel] Hf c (Hsp & Htb & Hal & Hdp & Hr); [lia|].
    cbn [walk]. rewrite Hsp, Hop. cbn [bind sp set_sp].
    unfold get_u16_bump. rewrite Hdel. unfold walk_res2.
    set (c0 := set_sp (set_sp c (p + 1)) body).
    assert (Hdp0 : dp (ALIGN_TO (alignof_ptr tgt) c0)
                   = both (aligned al d (alignof_ptr tgt)))
      by (apply ALIGN_TO_both; assumption).
    eexists. split; [reflexivity|].
    cbn [sp tables dp result set_sp].
    rewrite cmp_two_pointers_tables, cmp_two_pointers_dp, Hdp0.
    repeat split; try assumption; try reflexivity.
    apply (cmp_two_pointers_same tgt m c0 d). exact Hdp.
  - (* no more fields *)
    intros strict al p e d Hmore. exists 0%nat.
    intros f g _ _ c (Hsp & Htb & Hal & Hdp & Hr).
    unfold more_fields in Hmore. destruct strict.
    + exists c. destruct g; simpl; rewrite Hsp, Hmore; reflexivity.
    + exists c. split; [| repeat split; assumption].
      destruct g; simpl; rewrite Hsp, Hr, Hmore; reflexivity.
  - (* one more field *)
    intros strict al p e d p1 d1 d' Hmore _ [N1 IHv] _ [N2 IHf].
    exists (S (Nat.max N1 N2)).
    intros f [|g] Hf Hg c Hc; [lia|].
    destruct (IHv f ltac:(lia) c Hc) as [c1 (Hw & Hsp1 & Htb1 & Hdp1 & Hr1)].
    destruct Hc as (Hsp & Htb & Hal & Hdp & Hr).
    unfold more_fields in Hmore.
    specialize (IHf f g ltac:(lia) ltac:(lia) (set_align c1 true)
                  ltac:(repeat split; assumption)).
    destruct strict.
    + cbn [walk_variant2_loop Z.eqb andb]. rewrite Hsp, Hmore, Hw.
      cbn [bind]. rewrite Hr1. exact IHf.
    + cbn [walk_struct2]. rewrite Hsp, Hr, Hmore, Hw.
      cbn [bind Z.eqb andb]. exact IHf.
  - (* no more elements *)
    intros al p d e Hmore. exists 0%nat.
    intros f g _ _ sub (Hsp & Htb & Hal & Hdp & Hr).
    exists sub.
    destruct g; simpl; rewrite Hdp; unfold ptr_pair.lt, both;
      cbn [ptr_pair.fst ptr_pair.snd]; rewrite Hmore; reflexivity.
  - (* one more element *)
    intros al p d e p1 d1 Hmore _ [N1 IHv] _ [N2 IHe].
    exists (S (Nat.max N1 N2)).
    intros f [|g] Hf Hg sub Hc; [lia|].
    destruct (IHv f ltac:(lia) sub Hc) as [c1 (Hw & Hsp1 & Htb1 & Hdp1 & Hr1)].
    destruct Hc as (Hsp & Htb & Hal & Hdp & Hr).
    specialize (IHe f g ltac:(lia) ltac:(lia)
                  (set_align (set_sp c1 (sp sub)) true)
                  ltac:(repeat split; assumption)).
    cbn [walk_vec2_loop Z.eqb andb]. rewrite Hdp.
    assert (Hlt : ptr_pair.lt (both d) (both e) = true)
      by (unfold ptr_pair.lt, both; cbn [ptr_pair.fst ptr_pair.snd];
          rewrite Hmore; reflexivity).
    rewrite Hlt. unfold walk_reset. rewrite Hw.
    cbn [bind result set_sp]. rewrite Hr1. exact IHe.
Qed.



End ReflexiveWalk.

(** C8, for a NaN.  A 32-bit float that holds a NaN is neither less than
    nor equal to itself: the walk of the instance against itself returns 1
    and the mode EQ writes false. *)
Lemma nan_differs_from_itself :
  load_number nan_mem F32 0 = Float S754_nan
  /\ option_map cmp.result
       (cmp.walk target64 layout64 shape_f32 nan_mem 1
          (cmp.make true 0 no_tables 0 0)) = Some 1
  /\ shape_cmp_type target64 layout64 shape_f32 nan_mem 1 0 tydesc_f32 0 0 CMP_EQ
     = Some 0.
Proof. repeat split; vm_compute; reflexivity. Qed.

(** C8, amended.  For a well-formed instance of the descriptor's type none
    of whose floating-point scalars is a NaN, the comparison of the instance
    with itself returns, with enough fuel, the three-way result 0, and the
    mode EQ of the entry point writes true. *)
Theorem compare_with_itself tgt lay rom m tydesc a old :
  instance_ok tgt lay rom m tydesc a ->
  exists N, forall fuel, (N <= fuel)%nat ->
    option_map cmp.result
      (cmp.walk tgt lay rom m fuel
         (cmp.make true (shape tydesc) (shape_tables tydesc) a a)) = Some 0
    /\ shape_cmp_type tgt lay rom m fuel old tydesc a a CMP_EQ = Some 1.
Proof.
  intros [p' [d' Hok]].
  destruct (proj1 (value_ok_ties tgt lay rom m (shape_tables tydesc))
              true (shape tydesc) a p' d' Hok) as [N HN].
  exists N. intros fuel Hf.
  destruct (HN fuel Hf (cmp.make true (shape tydesc) (shape_tables tydesc) a a))
    as [c' (Hw & _ & _ & _ & Hr)].
  { repeat split. }
  unfold shape_cmp_type. rewrite Hw. simpl. rewrite Hr. split; reflexivity.
Qed.

(** The pair (1, 5) at address 0 is an instance of [struct { u8, u8 }]. *)
Lemma pair_instance_ok :
  instance_ok target64 layout64 shape_u8_u8 three_pairs tydesc_u8_u8 0.
Proof.
  exists 5, 2. unfold tydesc_u8_u8. cbn [shape shape_tables].
  apply ok_struct with (body := 3); [reflexivity | reflexivity |].
  apply fields_next with (p1 := 4) (d1 := 1); [reflexivity | |].
  - apply (ok_number target64 layout64 shape_u8_u8 three_pairs no_tables
             true 3 0 U8); reflexivity.
  - apply fields_next with (p1 := 5) (d1 := 2); [reflexivity | |].
    + apply (ok_number target64 layout64 shape_u8_u8 three_pairs no_tables
               true 4 1 U8); reflexivity.
    + apply fields_done. reflexivity.
Defined.

Lemma compare_with_itself_witness :
  instance_ok target64 layout64 shape_u8_u8 three_pairs tydesc_u8_u8 0
  /\ exists N, forall fuel, (N <= fuel)%nat ->
       option_map cmp.result
         (cmp.walk target64 layout64 shape_u8_u8 three_pairs fuel
            (cmp.make true (shape tydesc_u8_u8) (shape_tables tydesc_u8_u8)
               0 0)) = Some 0
       /\ shape_cmp_type target64 layout64 shape_u8_u8 three_pairs fuel 0
            tydesc_u8_u8 0 0 CMP_EQ = Some 1.
Proof.
  split; [exact pair_instance_ok|].
  exact (compare_with_itself target64 layout64 shape_u8_u8 three_pairs
           tydesc_u8_u8 0 0 pair_instance_ok).
Defined.

(** The byte vector [1, 2] behind the slot at address 0 is an instance of
    [vec of u8], and the four bytes at address 0 are an instance of the
    single-variant tag of [tag_rom], whose variant holds a [u32]. *)
Lemma vec_instance_ok :
  instance_ok target64 layout64 shape_vec_u8 (two_vecs [1; 2] [1; 2; 3])
    tydesc_vec_u8 0.
Proof.
  exists 5, 8. unfold tydesc_vec_u8. cbn [shape shape_tables].
  apply ok_vec with (body := 4) (s := 24) (e := 26);
    [reflexivity | reflexivity | reflexivity |].
  apply elems_next with (p1 := 5) (d1 := 25); [reflexivity | |].
  - apply (ok_number target64 layout64 shape_vec_u8 (two_vecs [1; 2] [1; 2; 3])
             no_tables true 4 24 U8); reflexivity.
  - apply elems_next with (p1 := 5) (d1 := 26); [reflexivity | |].
    + apply (ok_number target64 layout64 shape_vec_u8
               (two_vecs [1; 2] [1; 2; 3]) no_tables true 4 25 U8);
        reflexivity.
    + apply elems_done. reflexivity.
Qed.

Lemma tag_instance_ok :
  instance_ok target64 layout64 tag_rom three_pairs (mk_tydesc 0 tag_tables) 0.
Proof.
  exists 3, 4. cbn [shape shape_tables].
  apply (ok_tag target64 layout64 tag_rom three_pairs tag_tables true 0 0
           tag_rom_info 3 2
           (mk_tinfo 0 12 1 18 (mk_sa 4 4)) 20 21 4);
    [reflexivity | reflexivity | reflexivity | reflexivity |].
  apply fields_next with (p1 := 21) (d1 := 4); [reflexivity | |].
  - apply (ok_number target64 layout64 tag_rom three_pairs tag_tables
             true 20 0 U32); reflexivity.
  - apply fields_done. reflexivity.
Qed.

(** * Further properties *)

(** ** The result of a comparison is one of three values *)

Section ResultRange.

Import cmp.

Lemma three_way_three_valued nums : three_valued (three_way nums).
Proof.
  unfold three_way, three_valued.
  destruct (number_ltb _ _); [auto|]. destruct (number_eqb _ _); auto.
Qed.

Lemma cmp_two_pointers_three_valued tgt m c :
  three_valued (result (cmp_two_pointers tgt m c)).
Proof.
  unfold cmp_two_pointers, bump_dp_word, cmp_number.
  destruct (result _ =? 0); cbn [result set_result];
    apply three_way_three_valued.
Qed.

Lemma walk_struct2_range w fuel :
  keeps_range w ->
  forall end_sp, keeps_range (walk_struct2 w fuel end_sp).
Proof.
  intros Hw. induction fuel as [|fuel IH]; intros end_sp c c' Hc H; simpl in H.
  - destruct (_ && _); [discriminate|]. injection H as <-. exact Hc.
  - destruct (_ && _); [| injection H as <-; exact Hc].
    apply bind_Some in H as [c1 [H1 H2]].
    apply (IH end_sp (set_align c1 true) c'); [|exact H2].
    apply (Hw c c1 Hc H1).
Qed.

Lemma walk_variant2_loop_range w fuel :
  keeps_range w ->
  forall e res sub r,
    three_valued res -> three_valued (result sub) ->
    walk_variant2_loop w fuel e res sub = Some r ->
    three_valued (fst r).
Proof.
  intros Hw. induction fuel as [|fuel IH]; intros e res sub r Hres Hsub H;
    simpl in H.
  - destruct (_ && _); [discriminate|]. injection H as <-. exact Hres.
  - destruct (_ && _); [| injection H as <-; exact Hres].
    apply bind_Some in H as [sub1 [H1 H2]].
    pose proof (Hw sub sub1 Hsub H1) as Hr1.
    apply (IH e (result sub1) (set_align sub1 true) r Hr1 Hr1 H2).
Qed.

Lemma walk_vec2_loop_range w fuel :
  keeps_range w ->
  forall e res sub r,
    three_valued res -> three_valued (result sub) ->
    walk_vec2_loop w fuel e res sub = Some r ->
    three_valued (fst r).
Proof.
  intros Hw. induction fuel as [|fuel IH]; intros e res sub r Hres Hsub H;
    simpl in H.
  - destruct (_ && _); [discriminate|]. injection H as <-. exact Hres.
  - destruct (_ && _); [| injection H as <-; exact Hres].
    apply bind_Some in H as [sub1 [H1 H2]].
    unfold walk_reset in H1. apply bind_Some in H1 as [sub0 [H0 [= <-]]].
    pose proof (Hw sub sub0 Hsub H0) as Hr1.
    apply (IH e (result sub0) (set_align (set_sp sub0 (sp sub)) true) r
             Hr1 Hr1 H2).
Qed.

Lemma walk_vec2_range w fuel is_pod range :
  keeps_range w -> keeps_range (walk_vec2 w fuel is_pod range).
Proof.
  intros Hw c c' Hc H. unfold walk_vec2 in H.
  apply bind_Some in H as [r [H1 H2]].
  apply walk_vec2_loop_range in H1; [| exact Hw | exact Hc | right; left; reflexivity].
  cbn [result set_result] in H2.
  destruct (fst r =? 0); injection H2 as <-.
  - apply three_way_three_valued.
  - exact H1.
Qed.

Lemma walk_tag2_range rom w fuel tinfo tv :
  keeps_range w -> keeps_range (walk_tag2 rom w fuel tinfo tv).
Proof.
  intros Hw c c' Hc H. unfold walk_tag2 in H.
  destruct (negb _).
  - injection H as <-. apply three_way_three_valued.
  - unfold walk_variant1, walk_variant2 in H.
    apply bind_Some in H as [r [H1 [= <-]]].
    apply walk_variant2_loop_range in H1;
      [exact H1 | exact Hw | apply three_way_three_valued
       | right; left; reflexivity].
Qed.

Lemma walk_box_contents2_range w sub c c' :
  keeps_range w -> result sub = 0 ->
  walk_box_contents2 w sub c = Some c' ->
  three_valued (result c').
Proof.
  intros Hw Hs H. unfold walk_box_contents2 in H.
  apply bind_Some in H as [sub1 [H1 [= <-]]]. cbn [result set_result].
  apply (Hw _ sub1) in H1; [exact H1|].
  cbn [result set_align]. rewrite Hs. right; left; reflexivity.
Qed.

Lemma walk_keeps_range tgt lay rom m fuel :
  keeps_range (walk tgt lay rom m fuel).
Proof.
  induction fuel as [|fuel IH]; intros c c' Hc H; [discriminate|].
  cbn [walk] in H.
  destruct (decode (get_u8 rom (sp c))) as [op|]; [|discriminate].
  cbn [bind] in H. unfold get_u16_bump, delimited, get_u16_bump in H.
  destruct op.
  4: { (* tag *)
       destruct (read_tag_info rom _ _) as [tinfo p1].
       apply bind_Some in H as [tinfo1 [_ H]].
       match type of H with
       | (let '(_, _) := ?x in _) = _ => destruct x as [tv c1] eqn:E
       end.
       apply bind_Some in H as [c2 [H2 [= <-]]].
       cbn [result set_dp].
       apply (walk_tag2_range rom _ fuel tinfo1 tv IH c1 c2); [|exact H2].
       destruct (1 <? variant_count tinfo1); injection E as _ <-;
         cbn [result set_dp set_sp bump_dp_word];
         rewrite ?ALIGN_TO_result; exact Hc. }
  12: { (* fixed vector *)
        apply bind_Some in H as [elt [_ H]].
        apply bind_Some in H as [c1 [H1 [= <-]]].
        cbn [result set_sp set_dp]. unfold walk_fixedvec2 in H1.
        apply (walk_vec2_range _ fuel _ _ IH) in H1;
          [exact H1 | rewrite ALIGN_TO_result; exact Hc]. }
  all: try (injection H as <-;
            unfold walk_number2, walk_fn2, walk_obj2, walk_tydesc2,
              walk_res2, cmp_pointer, bump_dp_word, cmp_number;
            cbn [result set_dp set_sp set_result];
            first [apply three_way_three_valued
                  | apply cmp_two_pointers_three_valued]).
  all: apply bind_Some in H as [c1 [H1 [= <-]]]; cbn [result set_sp set_dp].
  all: try (apply (walk_box_contents2_range _ _ _ _ IH) in H1;
            [exact H1 | reflexivity]).
  all: try unfold walk_vec2_boxed in H1; try unfold walk_unboxed_vec2 in H1;
    try unfold walk_slice2 in H1.
  all: try (apply (walk_vec2_range _ fuel _ _ IH) in H1;
            [exact H1 | cbn [result set_sp]; rewrite ?ALIGN_TO_result;
                        exact Hc]).
  apply (walk_struct2_range _ fuel IH) in H1; [exact H1 | exact Hc].
Qed.

End ResultRange.

(** X1.  The result of a comparison stays among the three values: a walk of
    any shape that starts from a result of -1, 0 or 1 and returns, returns
    with a result of -1, 0 or 1, whatever the memory and the tables
    hold. *)
Theorem walk_result_three_valued tgt lay rom m fuel c c' :
  three_valued (cmp.result c) ->
  cmp.walk tgt lay rom m fuel c = Some c' ->
  three_valued (cmp.result c').
Proof. apply walk_keeps_range. Qed.

Lemma walk_result_three_valued_witness :
  three_valued (cmp.result (cmp.make true 0 no_tables 0 2))
  /\ cmp.walk target64 layout64 shape_u8_u8 three_pairs 3
       (cmp.make true 0 no_tables 0 2)
     = Some (cmp.mk 5 no_tables true (ptr_pair.make 1 3) cmp.null_pair (-1))
  /\ three_valued (-1).
Proof.
  assert (H0 : three_valued (cmp.result (cmp.make true 0 no_tables 0 2)))
    by (right; left; reflexivity).
  assert (H1 : cmp.walk target64 layout64 shape_u8_u8 three_pairs 3
                 (cmp.make true 0 no_tables 0 2)
               = Some (cmp.mk 5 no_tables true (ptr_pair.make 1 3)
                         cmp.null_pair (-1))) by reflexivity.
  split; [exact H0|]. split; [exact H1|].
  exact (walk_result_three_valued target64 layout64 shape_u8_u8 three_pairs 3
           _ _ H0 H1).
Defined.

(** ** Exchanging the two instances *)

Section Exchange.

Import cmp.

Lemma eqb_opp_0 (r : Z) : (- r =? 0) = (r =? 0).
Proof. destruct r; reflexivity. Qed.

Lemma three_way_ints_swap (p : data_pair.t Z) :
  three_way (ints (swap_data p)) = - three_way (ints p).
Proof.
  destruct p as [a b]. unfold swap_data. cbn [data_pair.fst data_pair.snd].
  rewrite !three_way_ints, (Z.compare_antisym a b).
  destruct (a ?= b); reflexivity.
Qed.

Lemma three_way_ints_tie (p : data_pair.t Z) :
  three_way (ints p) = 0 -> data_pair.fst p = data_pair.snd p.
Proof.
  destruct p as [a b]. rewrite three_way_ints. cbn [data_pair.fst data_pair.snd].
  destruct (a ?= b) eqn:E; try discriminate. intros _.
  apply Z.compare_eq. exact E.
Qed.

Lemma ALIGN_TO_swap al c : ALIGN_TO al (swap c) = swap (ALIGN_TO al c).
Proof. unfold ALIGN_TO. cbn [align swap]. destruct (align c); reflexivity. Qed.

Lemma cmp_number_ints_swap p c :
  cmp_number (ints (swap_data p)) (swap c) = swap (cmp_number (ints p) c).
Proof.
  unfold cmp_number, swap, set_result. cbn [sp tables align dp end_dp result].
  rewrite three_way_ints_swap. reflexivity.
Qed.

Lemma cmp_two_pointers_swap tgt m c :
  cmp_two_pointers tgt m (swap c) = swap (cmp_two_pointers tgt m c).
Proof.
  unfold cmp_two_pointers. rewrite ALIGN_TO_swap.
  set (c0 := ALIGN_TO (alignof_ptr tgt) c).
  unfold bump_dp_word.
  set (w1 := data_pair.make (load_word m (sizeof_ptr tgt) (ptr_pair.fst (dp c0)))
                            (load_word m (sizeof_ptr tgt) (ptr_pair.snd (dp c0)))).
  set (c1 := set_dp c0 (ptr_pair.add (dp c0) (sizeof_ptr tgt))).
  set (w2 := data_pair.make (load_word m (sizeof_ptr tgt) (ptr_pair.fst (dp c1)))
                            (load_word m (sizeof_ptr tgt) (ptr_pair.snd (dp c1)))).
  set (c2 := set_dp c1 (ptr_pair.add (dp c1) (sizeof_ptr tgt))).
  change (let c3 := cmp_number (ints (swap_data w1)) (swap c2) in
          (if result c3 =? 0 then cmp_number (ints (swap_data w2)) c3 else c3)
          = swap (let c3 := cmp_number (ints w1) c2 in
                  if result c3 =? 0 then cmp_number (ints w2) c3 else c3)).
  cbn zeta. rewrite cmp_number_ints_swap.
  replace (result (swap (cmp_number (ints w1) c2)) =? 0)
    with (result (cmp_number (ints w1) c2) =? 0)
    by (symmetry; apply eqb_opp_0).
  destruct (result (cmp_number (ints w1) c2) =? 0); [|reflexivity].
  apply cmp_number_ints_swap.
Qed.

Lemma cmp_pointer_swap tgt m c :
  cmp_pointer tgt m (swap c) = swap (cmp_pointer tgt m c).
Proof.
  unfold cmp_pointer. rewrite ALIGN_TO_swap.
  set (c0 := ALIGN_TO (alignof_ptr tgt) c). unfold bump_dp_word.
  apply (cmp_number_ints_swap
           (data_pair.make (load_word m (sizeof_ptr tgt) (ptr_pair.fst (dp c0)))
                           (load_word m (sizeof_ptr tgt) (ptr_pair.snd (dp c0))))
           (set_dp c0 (ptr_pair.add (dp c0) (sizeof_ptr tgt)))).
Qed.

Lemma lt_swap a b :
  ptr_pair.lt (swap_pair a) (swap_pair b) = ptr_pair.lt a b.
Proof. unfold ptr_pair.lt, swap_pair. cbn. apply andb_comm. Qed.

(** The walk leaves the tables where they are. *)
Lemma walk_struct2_tables (w : t -> option t) :
  (forall c c', w c = Some c' -> tables c' = tables c) ->
  forall fuel end_sp c c',
    walk_struct2 w fuel end_sp c = Some c' -> tables c' = tables c.
Proof.
  intros Hw. induction fuel as [|fuel IH]; intros end_sp c c'; simpl;
    destruct (_ && _); try discriminate; try (intros [= <-]; reflexivity).
  intros H. apply bind_Some in H as [c1 [H1 H2]].
  apply IH in H2. apply Hw in H1. cbn [tables set_align] in H2. congruence.
Qed.

Lemma walk_tables tgt lay rom m fuel :
  forall c c', walk tgt lay rom m fuel c = Some c' -> tables c' = tables c.
Proof.
  induction fuel as [|fuel IH]; intros c c'; [discriminate|].
  cbn [walk].
  destruct (decode (get_u8 rom (sp c))) as [op|]; [|discriminate].
  cbn [bind]. unfold delimited, get_u16_bump.
  destruct op; intros H.
  4: { unfold read_tag_info, get_u16_bump in H.
       apply bind_Some in H as [tinfo1 [_ H]].
       match type of H with
       | (let '(_, _) := ?x in _) = _ => destruct x as [tv c1] eqn:E
       end.
       apply bind_Some in H as [c2 [H2 [= <-]]].
       apply walk_tag2_frame in H2. rewrite H2.
       destruct (1 <? variant_count tinfo1); injection E as _ <-;
         cbn [tables set_sp set_dp set_result];
         rewrite ?ALIGN_TO_tables; reflexivity. }
  4: { apply bind_Some in H as [c1 [H1 [= <-]]].
       apply (walk_struct2_tables _ IH) in H1. exact H1. }
  11: { apply bind_Some in H as [elt [_ H]].
        apply bind_Some in H as [c1 [H1 [= <-]]].
        unfold walk_fixedvec2 in H1. apply walk_vec2_frame in H1.
        rewrite H1. cbn [tables set_sp set_dp set_result].
        rewrite ALIGN_TO_tables. reflexivity. }
  all: try (injection H as <-);
    try (apply bind_Some in H as [c1 [H1 [= <-]]]).
  all: try (unfold walk_vec2_boxed, walk_unboxed_vec2, walk_slice2 in H1;
            apply walk_vec2_frame in H1; rewrite H1).
  all: try (unfold walk_box_contents2 in H1;
            apply bind_Some in H1 as [sub1 [_ [= <-]]]).
  all: unfold walk_res2, walk_fn2, walk_obj2, walk_tydesc2, walk_number2,
         cmp_number, bump_dp_word;
    cbn [tables set_sp set_dp set_result snd fst];
    rewrite ?cmp_two_pointers_tables, ?cmp_pointer_tables, ?ALIGN_TO_tables;
    reflexivity.
Qed.

(** [compute_tag_size] leaves the pointer to the tag's variants alone. *)
Lemma largest_variants_loop_info_ptr rom walk fuel c n :
  forall tinfo tinfo2,
    size_of.largest_variants_loop rom walk fuel c n tinfo = Some tinfo2 ->
    info_ptr tinfo2 = info_ptr tinfo.
Proof.
  induction n as [|n IH]; intros tinfo tinfo2; cbn [size_of.largest_variants_loop].
  - intros [= <-]. reflexivity.
  - unfold get_u16_bump.
    destruct (get_variant_sp rom _ _ _) as [vp ve].
    intros H. apply bind_Some in H as [[vsa sub1] [_ H]].
    apply IH in H. rewrite H. destruct (_ <? _); reflexivity.
Qed.

Lemma compute_tag_size_info_ptr tgt rom walk fuel c tinfo tinfo1 :
  size_of.compute_tag_size tgt rom walk fuel c tinfo = Some tinfo1 ->
  info_ptr tinfo1 = info_ptr tinfo.
Proof.
  unfold size_of.compute_tag_size.
  destruct (is_set (tag_sa tinfo)); [intros [= <-]; reflexivity|].
  unfold get_u16_bump. intros H.
  apply bind_Some in H as [t2 [H1 H2]].
  apply largest_variants_loop_info_ptr in H1. cbn in H1.
  destruct (variant_count t2 =? 1); [destruct (_ =? 0)|];
    injection H2 as <-; exact H1.
Qed.

Lemma compute_tag_size_variant_count tgt rom walk fuel c tinfo tinfo1 :
  size_of.compute_tag_size tgt rom walk fuel c tinfo = Some tinfo1 ->
  variant_count tinfo1 = variant_count tinfo.
Proof.
  unfold size_of.compute_tag_size.
  destruct (is_set (tag_sa tinfo)); [intros [= <-]; reflexivity|].
  unfold get_u16_bump. intros H.
  apply bind_Some in H as [t2 [H1 H2]].
  apply (proj2 (largest_variants_loop_fold rom walk fuel c _ _)) in H1.
  cbn in H1.
  destruct (variant_count t2 =? 1); [destruct (_ =? 0)|];
    injection H2 as <-; exact H1.
Qed.

Section Loops.

Variable rom : shape_mem.
Variable tb : rust_shape_tables.
Variable P : Z -> Prop.

(** A walker that exchanges at the addresses of [P], ends where the shape
    stream says and keeps the tables. *)
Variable w : t -> option t.
Hypothesis w_exchanges :
  forall c, P (sp c) -> tables c = tb -> w (swap c) = option_map swap (w c).
Hypothesis w_shape_end :
  forall c c', w c = Some c' -> shape_end rom (sp c) = Some (sp c').
Hypothesis w_tables : forall c c', w c = Some c' -> tables c' = tables c.

Lemma more_fields_struct c end_sp :
  (result c =? 0) && negb (sp c =? end_sp) = true ->
  more_fields false (sp c) end_sp = true.
Proof. intros H. apply andb_prop in H as [_ H]. exact H. Qed.

Lemma fields_in_next strict p e c1 :
  fields_in rom P strict p e ->
  more_fields strict p e = true ->
  shape_end rom p = Some (sp c1) ->
  P p /\ fields_in rom P strict (sp c1) e.
Proof.
  intros Hf Hm He. inversion Hf as [? ? Hd | ? ? _ Hp Hn]; subst.
  - congruence.
  - split; [exact Hp | apply Hn, He].
Qed.

Lemma walk_struct2_swap fuel :
  forall end_sp c,
    fields_in rom P false (sp c) end_sp -> tables c = tb ->
    walk_struct2 w fuel end_sp (swap c)
    = option_map swap (walk_struct2 w fuel end_sp c).
Proof.
  induction fuel as [|fuel IH]; intros end_sp c Hf Ht; simpl;
    rewrite eqb_opp_0.
  - destruct (_ && _); reflexivity.
  - destruct ((result c =? 0) && negb (sp c =? end_sp)) eqn:E;
      [|reflexivity].
    pose proof (more_fields_struct c end_sp E) as Hm.
    assert (Hp : P (sp c)).
    { inversion Hf; subst; [congruence | assumption]. }
    rewrite (w_exchanges c Hp Ht).
    destruct (w c) as [c1|] eqn:Ew; [|reflexivity]. simpl.
    destruct (fields_in_next false (sp c) end_sp c1 Hf Hm
                (w_shape_end c c1 Ew)) as [_ Hn].
    apply (IH end_sp (set_align c1 true)); [exact Hn|].
    cbn [tables set_align]. rewrite (w_tables c c1 Ew). exact Ht.
Qed.

Lemma walk_variant2_loop_swap fuel :
  forall e res sub,
    fields_in rom P true (sp sub) e -> tables sub = tb ->
    walk_variant2_loop w fuel e (- res) (swap sub)
    = option_map swap_loop (walk_variant2_loop w fuel e res sub).
Proof.
  induction fuel as [|fuel IH]; intros e res sub Hf Ht; simpl;
    rewrite eqb_opp_0.
  - destruct (_ && _); reflexivity.
  - destruct ((res =? 0) && (sp sub <? e)) eqn:E; [|reflexivity].
    assert (Hm : more_fields true (sp sub) e = true).
    { apply andb_prop in E as [_ E]. exact E. }
    assert (Hp : P (sp sub)).
    { inversion Hf; subst; [congruence | assumption]. }
    rewrite (w_exchanges sub Hp Ht).
    destruct (w sub) as [s1|] eqn:Ew; [|reflexivity]. simpl.
    destruct (fields_in_next true (sp sub) e s1 Hf Hm
                (w_shape_end sub s1 Ew)) as [_ Hn].
    apply (IH e (result s1) (set_align s1 true)); [exact Hn|].
    cbn [tables set_align]. rewrite (w_tables sub s1 Ew). exact Ht.
Qed.

Lemma walk_vec2_loop_swap fuel :
  forall e res sub,
    P (sp sub) -> tables sub = tb ->
    walk_vec2_loop w fuel (swap_pair e) (- res) (swap sub)
    = option_map swap_loop (walk_vec2_loop w fuel e res sub).
Proof.
  induction fuel as [|fuel IH]; intros e res sub Hp Ht; simpl;
    rewrite eqb_opp_0, lt_swap.
  - destruct (_ && _); reflexivity.
  - destruct (_ && _); [|reflexivity].
    unfold walk_reset. rewrite (w_exchanges sub Hp Ht).
    destruct (w sub) as [s1|] eqn:Ew; [|reflexivity]. simpl.
    apply (IH e (result s1) (set_align (set_sp s1 (sp sub)) true));
      [exact Hp|].
    cbn [tables set_align set_sp]. rewrite (w_tables sub s1 Ew). exact Ht.
Qed.

Lemma walk_vec2_swap fuel is_pod s e :
  forall c,
    P (sp c) -> tables c = tb ->
    walk_vec2 w fuel is_pod (swap_pair s, swap_pair e) (swap c)
    = option_map swap (walk_vec2 w fuel is_pod (s, e) c).
Proof.
  intros c Hp Ht. unfold walk_vec2. cbn [fst snd].
  change (set_end_dp (make_dp (swap c) (swap_pair s)) (swap_pair e))
    with (swap (set_end_dp (make_dp c s) e)).
  change (result (swap c)) with (- result c).
  rewrite walk_vec2_loop_swap by assumption.
  destruct (walk_vec2_loop w fuel e (result c) _) as [[r sub1]|];
    [|reflexivity].
  cbn [option_map bind swap_loop fst snd result set_result swap].
  rewrite eqb_opp_0. destruct (r =? 0); [|reflexivity].
  cbn [option_map]. f_equal.
  apply (cmp_number_ints_swap
           (data_pair.make
              (int_of_ptrdiff (ptr_pair.fst e - ptr_pair.fst s))
              (int_of_ptrdiff (ptr_pair.snd e - ptr_pair.snd s)))
           (set_result c r)).
Qed.

Lemma walk_tag2_swap fuel tinfo tv :
  forall c,
    fields_in rom P true
      (fst (get_variant_sp rom tb tinfo (data_pair.fst tv)))
      (snd (get_variant_sp rom tb tinfo (data_pair.fst tv))) ->
    tables c = tb ->
    walk_tag2 rom w fuel tinfo (swap_data tv) (swap c)
    = option_map swap (walk_tag2 rom w fuel tinfo tv c).
Proof.
  intros c Hv Ht. unfold walk_tag2. rewrite cmp_number_ints_swap.
  set (c1 := cmp_number (ints tv) c).
  change (result (swap c1)) with (- result c1). rewrite eqb_opp_0.
  destruct (result c1 =? 0) eqn:E; [|reflexivity]. cbn [negb].
  apply Z.eqb_eq in E.
  assert (Hid : data_pair.fst (swap_data tv) = data_pair.fst tv).
  { unfold swap_data. cbn [data_pair.fst]. symmetry.
    apply three_way_ints_tie. exact E. }
  rewrite Hid. unfold walk_variant1, walk_variant2.
  change (tables (swap c1)) with (tables c1).
  assert (Ht1 : tables c1 = tb) by exact Ht.
  rewrite Ht1.
  destruct (get_variant_sp rom tb tinfo (data_pair.fst tv)) as [vp ve].
  cbn [fst snd] in *.
  change (make_sp (swap c1) vp) with (swap (make_sp c1 vp)).
  change (result (swap c1)) with (- result c1).
  rewrite walk_variant2_loop_swap; [| exact Hv | exact Ht1].
  destruct (walk_variant2_loop w fuel ve (result c1) _) as [[r sub1]|];
    reflexivity.
Qed.

Lemma walk_box_contents2_swap sub :
  forall c,
    P (sp sub) -> tables sub = tb ->
    walk_box_contents2 w (swap sub) (swap c)
    = option_map swap (walk_box_contents2 w sub c).
Proof.
  intros c Hp Ht. unfold walk_box_contents2.
  change (set_align (swap sub) true) with (swap (set_align sub true)).
  rewrite (w_exchanges (set_align sub true) Hp Ht).
  destruct (w (set_align sub true)); reflexivity.
Qed.

End Loops.

Lemma pair_range_swap f d :
  pair_range f (swap_pair d)
  = (swap_pair (fst (pair_range f d)), swap_pair (snd (pair_range f d))).
Proof.
  unfold pair_range, swap_pair. cbn [ptr_pair.fst ptr_pair.snd].
  destruct (f (ptr_pair.fst d)) as [s0 e0].
  destruct (f (ptr_pair.snd d)) as [s1 e1]. reflexivity.
Qed.

Lemma walk_number2_swap m k c :
  is_float k = false ->
  walk_number2 m k (swap c) = swap (walk_number2 m k c).
Proof.
  intros Hk. unfold walk_number2, get_dp.
  change (dp (swap c)) with (swap_pair (dp c)).
  cbn [swap_pair ptr_pair.fst ptr_pair.snd].
  assert (Hint : forall a, exists z, load_number m k a = Int z).
  { intros a. unfold load_number. destruct k; try discriminate Hk; eauto. }
  destruct (Hint (ptr_pair.fst (dp c))) as [x ->].
  destruct (Hint (ptr_pair.snd (dp c))) as [y ->].
  apply (cmp_number_ints_swap (data_pair.make x y) c).
Qed.

Lemma get_variant_sp_info_ptr rom tb t1 t2 id :
  info_ptr t1 = info_ptr t2 ->
  get_variant_sp rom tb t1 id = get_variant_sp rom tb t2 id.
Proof. intros H. unfold get_variant_sp. rewrite H. reflexivity. Qed.

Lemma walk_swap tgt lay rom m tb P :
  float_free rom tb P ->
  forall fuel c,
    P (sp c) -> tables c = tb ->
    walk tgt lay rom m fuel (swap c)
    = option_map swap (walk tgt lay rom m fuel c).
Proof.
  intros Hff. induction fuel as [|fuel IH]; intros c Hp Ht; [reflexivity|].
  pose proof (fun c c' => walk_shape_end tgt lay rom m fuel c c') as Hend.
  pose proof (walk_tables tgt lay rom m fuel) as Htb.
  cbn [walk]. change (sp (swap c)) with (sp c).
  pose proof (Hff (sp c) Hp) as Hat. unfold float_free_at in Hat.
  cbv zeta in Hat.
  destruct (decode (get_u8 rom (sp c))) as [op|]; [|reflexivity].
  cbn [bind].
  change (set_sp (swap c) (sp c + 1)) with (swap (set_sp c (sp c + 1))).
  set (c0 := set_sp c (sp c + 1)).
  assert (Ht0 : tables c0 = tb) by exact Ht.
  change (sp c + 1) with (sp c0) in Hat.
  change (sp (swap c0)) with (sp c0).
  change (tables (swap c0)) with (tables c0).
  unfold get_u16_bump.
  assert (indirection :
    P (fst (delimited rom (sp c0))) ->
    (let '(body, end_sp) := delimited rom (sp c0) in
     let c1 := ALIGN_TO (alignof_ptr tgt) (set_sp (swap c0) body) in
     let next_dp := ptr_pair.add (dp c1) (sizeof_ptr tgt) in
     let '(box_ptr, c2) := bump_dp_word m (sizeof_ptr tgt) c1 in
     let body_dp :=
       ptr_pair.make (box_body lay (data_pair.fst box_ptr))
                     (box_body lay (data_pair.snd box_ptr)) in
     let sub := make_at c2 (sp c2) (tables c2) body_dp in
     c3 <- walk_box_contents2 (walk tgt lay rom m fuel) sub c2 ;;
     Some (set_sp (set_dp c3 next_dp) end_sp))
    = option_map swap
        (let '(body, end_sp) := delimited rom (sp c0) in
         let c1 := ALIGN_TO (alignof_ptr tgt) (set_sp c0 body) in
         let next_dp := ptr_pair.add (dp c1) (sizeof_ptr tgt) in
         let '(box_ptr, c2) := bump_dp_word m (sizeof_ptr tgt) c1 in
         let body_dp :=
           ptr_pair.make (box_body lay (data_pair.fst box_ptr))
                         (box_body lay (data_pair.snd box_ptr)) in
         let sub := make_at c2 (sp c2) (tables c2) body_dp in
         c3 <- walk_box_contents2 (walk tgt lay rom m fuel) sub c2 ;;
         Some (set_sp (set_dp c3 next_dp) end_sp))).
  { destruct (delimited rom (sp c0)) as [body end_sp]. cbn [fst]. intros Hb.
    cbn zeta.
    change (set_sp (swap c0) body) with (swap (set_sp c0 body)).
    rewrite ALIGN_TO_swap. set (c1 := ALIGN_TO _ _).
    unfold bump_dp_word.
    set (c2 := set_dp c1 (ptr_pair.add (dp c1) (sizeof_ptr tgt))).
    set (sub := make_at c2 (sp c2) (tables c2)
                  (ptr_pair.make
                     (box_body lay (load_word m (sizeof_ptr tgt)
                                      (ptr_pair.fst (dp c1))))
                     (box_body lay (load_word m (sizeof_ptr tgt)
                                      (ptr_pair.snd (dp c1)))))).
    assert (Hsub : sp sub = body /\ tables sub = tb).
    { unfold sub, c2, c1. cbn [sp tables make_at set_dp].
      rewrite ALIGN_TO_sp, ALIGN_TO_tables. split; [reflexivity | exact Ht0]. }
    destruct Hsub as [Hs1 Hs2].
    pose proof (walk_box_contents2_swap tb P _ IH sub c2
                  ltac:(rewrite Hs1; exact Hb) Hs2) as E.
    match goal with
    | |- bind ?x _ = _ =>
        change x with (walk_box_contents2 (walk tgt lay rom m fuel)
                         (swap sub) (swap c2))
    end.
    match goal with
    | |- _ = option_map swap (bind ?y _) =>
        change y with (walk_box_contents2 (walk tgt lay rom m fuel) sub c2)
    end.
    rewrite E.
    destruct (walk_box_contents2 _ sub c2); reflexivity. }
  destruct op.
  - (* number *)
    rewrite ALIGN_TO_swap, walk_number2_swap by exact Hat. reflexivity.
  - (* box *) apply indirection, Hat.
  - (* vector *)
    clear indirection.
    destruct (delimited rom _) as [body end_sp]. cbn [fst] in Hat. cbv zeta.
    change (set_sp (swap c0) body) with (swap (set_sp c0 body)).
    rewrite ALIGN_TO_swap. set (c1 := ALIGN_TO _ _).
    assert (Hc1 : P (sp c1) /\ tables c1 = tb).
    { unfold c1. rewrite ALIGN_TO_sp, ALIGN_TO_tables. split; assumption. }
    unfold walk_vec2_boxed. change (dp (swap c1)) with (swap_pair (dp c1)).
    rewrite pair_range_swap,
      (walk_vec2_swap tb P _ IH (walk_tables tgt lay rom m fuel))
      by apply Hc1.
    destruct (pair_range _ (dp c1)) as [s e]. cbn [fst snd].
    destruct (walk_vec2 _ _ _ _ c1); reflexivity.
  - (* tag *)
    clear indirection.
    destruct (read_tag_info rom (tables c0) (sp c0)) as [tinfo p1] eqn:Er.
    rewrite Ht0 in Er. rewrite Er in Hat. cbn [fst] in Hat.
    change (set_sp (swap c0) p1) with (swap (set_sp c0 p1)).
    set (c1 := set_sp c0 p1). change (tables (swap c1)) with (tables c1).
    destruct (size_of.compute_tag_size_for tgt rom fuel (tables c1) tinfo)
      as [tinfo1|] eqn:Ec; [|reflexivity].
    pose proof (compute_tag_size_variant_count _ _ _ _ _ _ _ Ec) as Ecount.
    apply compute_tag_size_info_ptr in Ec.
    cbn [bind]. rewrite ALIGN_TO_swap.
    set (c2 := if 1 <? variant_count tinfo1 then ALIGN_TO _ c1 else c1).
    replace (if 1 <? variant_count tinfo1
             then swap (ALIGN_TO (alignof_tag_align_t tgt) c1) else swap c1)
      with (swap c2) by (unfold c2; destruct (1 <? _); reflexivity).
    assert (Hpair :
      (if 1 <? variant_count tinfo1
       then bump_dp_word m (sizeof_tag_variant_t tgt) (swap c2)
       else (data_pair.make 0 0, swap c2))
      = (swap_data
           (fst (if 1 <? variant_count tinfo1
                 then bump_dp_word m (sizeof_tag_variant_t tgt) c2
                 else (data_pair.make 0 0, c2))),
         swap
           (snd (if 1 <? variant_count tinfo1
                 then bump_dp_word m (sizeof_tag_variant_t tgt) c2
                 else (data_pair.make 0 0, c2))))).
    { destruct (1 <? variant_count tinfo1); reflexivity. }
    rewrite Hpair.
    assert (Ht3 : tables
                    (snd (if 1 <? variant_count tinfo1
                          then bump_dp_word m (sizeof_tag_variant_t tgt) c2
                          else (data_pair.make 0 0, c2))) = tb).
    { unfold c2. destruct (1 <? variant_count tinfo1);
        cbn [snd bump_dp_word tables set_dp];
        rewrite ?ALIGN_TO_tables; exact Ht0. }
    assert (Hid :
      data_pair.fst
        (fst (if 1 <? variant_count tinfo1
              then bump_dp_word m (sizeof_tag_variant_t tgt) c2
              else (data_pair.make 0 0, c2))) = 0
      \/ 1 < variant_count tinfo).
    { rewrite <- Ecount. destruct (Z.ltb_spec 1 (variant_count tinfo1));
        [right; assumption | left; reflexivity]. }
    destruct (if 1 <? variant_count tinfo1
              then bump_dp_word m (sizeof_tag_variant_t tgt) c2
              else (data_pair.make 0 0, c2)) as [tv c3].
    cbn [fst snd] in *.
    rewrite (walk_tag2_swap rom tb P _ IH Hend Htb fuel tinfo1 tv c3);
      [| | exact Ht3].
    + destruct (walk_tag2 rom _ fuel tinfo1 tv c3); reflexivity.
    + rewrite (get_variant_sp_info_ptr rom tb tinfo1 tinfo _ Ec).
      apply Hat, Hid.
  - (* struct *)
    clear indirection.
    destruct (delimited rom _) as [body end_sp]. cbn [fst snd] in Hat.
    cbv zeta.
    change (set_sp (swap c0) body) with (swap (set_sp c0 body)).
    rewrite (walk_struct2_swap rom tb P _ IH Hend Htb fuel end_sp
               (set_sp c0 body) Hat Ht0).
    destruct (walk_struct2 _ _ _ _); reflexivity.
  - (* function *)
    rewrite ALIGN_TO_swap. unfold walk_fn2.
    rewrite cmp_two_pointers_swap. reflexivity.
  - (* object *)
    rewrite ALIGN_TO_swap. unfold walk_obj2.
    rewrite cmp_two_pointers_swap. reflexivity.
  - (* resource *)
    unfold delimited, get_u16_bump. unfold walk_res2. cbv beta iota zeta.
    match goal with
    | |- context [cmp_two_pointers tgt m (set_sp (swap c0) ?b)] =>
        change (set_sp (swap c0) b) with (swap (set_sp c0 b))
    end.
    rewrite cmp_two_pointers_swap. reflexivity.
  - (* unique box *) apply indirection, Hat.
  - (* trait *) apply indirection, Hat.
  - (* type descriptor *)
    rewrite ALIGN_TO_swap. unfold walk_tydesc2.
    rewrite cmp_pointer_swap. reflexivity.
  - (* borrowed pointer *) apply indirection, Hat.
  - (* fixed vector *)
    clear indirection.
    destruct (delimited rom _) as [body end_sp]. cbn [fst] in Hat. cbv zeta.
    destruct (size_of.walk tgt rom fuel _) as [elt|]; [|reflexivity].
    cbn [bind].
    change (set_sp (swap c0) body) with (swap (set_sp c0 body)).
    rewrite ALIGN_TO_swap. set (c1 := ALIGN_TO _ _).
    assert (Hc1 : P (sp c1) /\ tables c1 = tb).
    { unfold c1. rewrite ALIGN_TO_sp, ALIGN_TO_tables. split; assumption. }
    unfold walk_fixedvec2, get_fixedvec_data_range.
    change (dp (swap c1)) with (swap_pair (dp c1)).
    change (ptr_pair.add (swap_pair (dp c1))
              (get_u16 rom (sp c0) * size (size_of.sa elt)))
      with (swap_pair (ptr_pair.add (dp c1)
                         (get_u16 rom (sp c0) * size (size_of.sa elt)))).
    rewrite (walk_vec2_swap tb P _ IH (walk_tables tgt lay rom m fuel))
      by apply Hc1.
    destruct (walk_vec2 _ _ _ _ c1); reflexivity.
  - (* slice *)
    clear indirection.
    destruct (delimited rom _) as [body end_sp]. cbn [fst] in Hat. cbv zeta.
    change (set_sp (swap c0) body) with (swap (set_sp c0 body)).
    rewrite ALIGN_TO_swap. set (c1 := ALIGN_TO _ _).
    assert (Hc1 : P (sp c1) /\ tables c1 = tb).
    { unfold c1. rewrite ALIGN_TO_sp, ALIGN_TO_tables. split; assumption. }
    unfold walk_slice2. change (dp (swap c1)) with (swap_pair (dp c1)).
    rewrite pair_range_swap,
      (walk_vec2_swap tb P _ IH (walk_tables tgt lay rom m fuel))
      by apply Hc1.
    destruct (pair_range _ (dp c1)) as [s e]. cbn [fst snd].
    destruct (walk_vec2 _ _ _ _ c1); reflexivity.
  - (* unboxed vector *)
    clear indirection.
    destruct (delimited rom _) as [body end_sp]. cbn [fst] in Hat. cbv zeta.
    change (set_sp (swap c0) body) with (swap (set_sp c0 body)).
    set (c1 := set_sp c0 body).
    assert (Hc1 : P (sp c1) /\ tables c1 = tb) by (split; assumption).
    unfold walk_unboxed_vec2. change (dp (swap c1)) with (swap_pair (dp c1)).
    rewrite pair_range_swap,
      (walk_vec2_swap tb P _ IH (walk_tables tgt lay rom m fuel))
      by apply Hc1.
    destruct (pair_range _ (dp c1)) as [s e]. cbn [fst snd].
    destruct (walk_vec2 _ _ _ _ c1); reflexivity.
Qed.

End Exchange.

(** X2.  For a descriptor whose shape has no floating-point scalar,
    exchanging the two instances negates the three-way result: the walk of
    (b, a) returns when the walk of (a, b) does, with the opposite result.
    So the entry point finds [b < a] exactly when it does not find
    [a <= b], and equality does not depend on the order of the instances.
    The condition is on the opcodes alone, the set [P] of the addresses of
    those that the walk can reach: the operands and the tables may hold
    any byte. *)
Theorem compare_exchanged tgt lay rom m fuel old tydesc a b
    (P : Z -> Prop) :
  float_free rom (shape_tables tydesc) P ->
  P (shape tydesc) ->
  option_map cmp.result
    (cmp.walk tgt lay rom m fuel
       (cmp.make true (shape tydesc) (shape_tables tydesc) b a))
  = option_map (fun c => - cmp.result c)
      (cmp.walk tgt lay rom m fuel
         (cmp.make true (shape tydesc) (shape_tables tydesc) a b))
  /\ shape_cmp_type tgt lay rom m fuel old tydesc b a CMP_LT
     = option_map (fun le => 1 - le)
         (shape_cmp_type tgt lay rom m fuel old tydesc a b CMP_LE)
  /\ shape_cmp_type tgt lay rom m fuel old tydesc b a CMP_EQ
     = shape_cmp_type tgt lay rom m fuel old tydesc a b CMP_EQ.
Proof.
  intros Hff Hp.
  pose proof (walk_swap tgt lay rom m (shape_tables tydesc) P Hff fuel
                (cmp.make true (shape tydesc) (shape_tables tydesc) a b)
                Hp eq_refl) as E.
  change (swap (cmp.make true (shape tydesc) (shape_tables tydesc) a b))
    with (cmp.make true (shape tydesc) (shape_tables tydesc) b a) in E.
  unfold shape_cmp_type. rewrite E.
  destruct (cmp.walk tgt lay rom m fuel
              (cmp.make true (shape tydesc) (shape_tables tydesc) a b))
    as [c'|]; [|repeat split].
  cbn [option_map bind swap cmp.result]. change (CMP_LT =? CMP_EQ) with false.
  change (CMP_LT =? CMP_LT) with true. change (CMP_LE =? CMP_EQ) with false.
  change (CMP_LE =? CMP_LT) with false. change (CMP_LE =? CMP_LE) with true.
  change (CMP_EQ =? CMP_EQ) with true. cbv iota.
  repeat split.
  - destruct (Z.ltb_spec (- cmp.result c') 0), (Z.leb_spec (cmp.result c') 0);
      try reflexivity; lia.
  - rewrite eqb_opp_0. reflexivity.
Qed.

Lemma eight_u8_float_free :
  float_free shape_eight_u8 no_tables eight_u8_opcodes.
Proof.
  intros p [-> | H].
  - change (fields_in shape_eight_u8 eight_u8_opcodes false 3 11).
    do 8 (apply fields_in_more;
          [reflexivity | right; lia
          | intros p' E; vm_compute in E; injection E as <-]).
    apply fields_in_done. reflexivity.
  - assert (Hp : p = 3 \/ p = 4 \/ p = 5 \/ p = 6 \/ p = 7 \/ p = 8 \/ p = 9
                 \/ p = 10) by lia.
    repeat (destruct Hp as [-> | Hp]; [reflexivity|]).
    subst p. reflexivity.
Qed.

Lemma compare_exchanged_witness :
  float_free shape_eight_u8 (shape_tables tydesc_eight_u8) eight_u8_opcodes
  /\ eight_u8_opcodes (shape tydesc_eight_u8)
  /\ option_map cmp.result
       (cmp.walk target64 layout64 shape_eight_u8 two_eights 9
          (cmp.make true 0 no_tables 8 0)) = Some 1
  /\ shape_cmp_type target64 layout64 shape_eight_u8 two_eights 9 0
       tydesc_eight_u8 8 0 CMP_LT = Some 0.
Proof.
  assert (H1 : float_free shape_eight_u8 (shape_tables tydesc_eight_u8)
                 eight_u8_opcodes) by exact eight_u8_float_free.
  assert (H2 : eight_u8_opcodes (shape tydesc_eight_u8))
    by (left; reflexivity).
  split; [exact H1|]. split; [exact H2|].
  destruct (compare_exchanged target64 layout64 shape_eight_u8 two_eights 9
              0 tydesc_eight_u8 0 8 eight_u8_opcodes H1 H2)
    as (E1 & E2 & _).
  split; [exact E1 | exact E2].
Defined.

(** ** Byte vectors are ordered as lists *)

Section ByteLists.

Import cmp vec_spec log_spec.

Variable m : data_mem.

Lemma length_order_succ (n1 n2 : nat) :
  length_order (Z.of_nat (S n1)) (Z.of_nat (S n2))
  = length_order (Z.of_nat n1) (Z.of_nat n2).
Proof.
  unfold length_order. rewrite !Nat2Z.inj_compare. reflexivity.
Qed.

Lemma elements_bytes (n : nat) :
  forall a, map (load_u8 m) (elements 1 a (a + Z.of_nat n)) = data_bytes m a n.
Proof.
  induction n as [|n IH]; intros a.
  - rewrite elements_nil by lia. reflexivity.
  - rewrite elements_cons by lia. cbn [map data_bytes]. f_equal.
    replace (a + Z.of_nat (S n)) with (a + 1 + Z.of_nat n) by lia. apply IH.
Qed.

Lemma vec_order_bytes (n1 : nat) :
  forall n2 a b,
    vec_order 1 (byte_order m) (ptr_pair.make a b)
      (ptr_pair.make (a + Z.of_nat n1) (b + Z.of_nat n2))
    = lex_order (data_bytes m a n1) (data_bytes m b n2).
Proof.
  unfold vec_order, compared_pairs.
  cbn [ptr_pair.fst ptr_pair.snd].
  induction n1 as [|n1 IH]; intros [|n2] a b;
    replace (a + Z.of_nat 0) with a by lia;
    replace (b + Z.of_nat 0) with b by lia;
    rewrite ?(elements_nil 1 ltac:(lia) a a) by lia;
    rewrite ?(elements_nil 1 ltac:(lia) b b) by lia.
  - simpl. unfold length_order. rewrite !Z.sub_diag. reflexivity.
  - simpl. unfold length_order.
    replace (b + Z.pos (Pos.of_succ_nat n2) - b)
      with (Z.pos (Pos.of_succ_nat n2)) by lia.
    rewrite Z.sub_diag. reflexivity.
  - rewrite (elements_cons 1 ltac:(lia) a) by lia. simpl.
    unfold length_order.
    replace (a + Z.pos (Pos.of_succ_nat n1) - a)
      with (Z.pos (Pos.of_succ_nat n1)) by lia.
    rewrite Z.sub_diag. reflexivity.
  - rewrite (elements_cons 1 ltac:(lia) a), (elements_cons 1 ltac:(lia) b)
      by lia.
    cbn [combine first_mismatch data_bytes lex_order].
    specialize (IH n2 (a + 1) (b + 1)).
    replace (a + 1 + Z.of_nat n1) with (a + Z.of_nat (S n1)) in IH by lia.
    replace (b + 1 + Z.of_nat n2) with (b + Z.of_nat (S n2)) in IH by lia.
    replace (a + Z.of_nat (S n1) - (a + 1)) with (Z.of_nat n1) in IH by lia.
    replace (b + Z.of_nat (S n2) - (b + 1)) with (Z.of_nat n2) in IH by lia.
    replace (a + Z.of_nat (S n1) - a) with (Z.of_nat (S n1)) by lia.
    replace (b + Z.of_nat (S n2) - b) with (Z.of_nat (S n2)) by lia.
    rewrite length_order_succ.
    assert (Hbo : byte_order m a b
                  = if load_u8 m a <? load_u8 m b then -1
                    else if load_u8 m a =? load_u8 m b then 0 else 1).
    { unfold byte_order, length_order.
      destruct (Z.ltb_spec (load_u8 m a) (load_u8 m b)) as [Hlt|Hge].
      - rewrite (proj2 (Z.compare_lt_iff _ _) Hlt). reflexivity.
      - destruct (Z.eqb_spec (load_u8 m a) (load_u8 m b)) as [He|Hne].
        + rewrite He, Z.compare_refl. reflexivity.
        + rewrite (proj2 (Z.compare_gt_iff _ _)) by lia. reflexivity. }
    rewrite Hbo.
    destruct (load_u8 m a <? load_u8 m b); [reflexivity|].
    destruct (load_u8 m a =? load_u8 m b); [|reflexivity].
    cbn [Z.eqb]. exact IH.
Qed.

Lemma compared_pairs_length (n1 n2 : nat) a b :
  List.length
    (compared_pairs 1 (ptr_pair.make a b)
       (ptr_pair.make (a + Z.of_nat n1) (b + Z.of_nat n2)))
  = Nat.min n1 n2.
Proof.
  unfold compared_pairs. cbn [ptr_pair.fst ptr_pair.snd].
  rewrite length_combine.
  rewrite <- (length_map (load_u8 m) (elements 1 a _)).
  rewrite <- (length_map (load_u8 m) (elements 1 b _)).
  rewrite !elements_bytes.
  assert (Hl : forall n x, List.length (data_bytes m x n) = n).
  { induction n as [|n IHn]; intros x; simpl; [reflexivity|].
    rewrite IHn. reflexivity. }
  rewrite !Hl. reflexivity.
Qed.

End ByteLists.

(** X3.  Two vectors of bytes, of fewer than 2^31 bytes each, are ordered as
    the lists of their bytes are in the lexicographic order, a proper
    prefix being before the longer vector; fuel for the shorter length is
    enough. *)
Theorem byte_vectors_lexicographic lay rom m fuel is_pod a b n1 n2 c :
  decode (get_u8 rom (cmp.sp c)) = Some (SHAPE_NUMBER U8) ->
  cmp.result c = 0 ->
  Z.of_nat n1 < 2 ^ 31 -> Z.of_nat n2 < 2 ^ 31 ->
  (Nat.min n1 n2 <= fuel)%nat ->
  option_map cmp.result
    (cmp.walk_vec2 (cmp.walk target64 lay rom m (S fuel)) fuel is_pod
       (ptr_pair.make a b,
        ptr_pair.make (a + Z.of_nat n1) (b + Z.of_nat n2)) c)
  = Some (lex_order (log_spec.data_bytes m a n1) (log_spec.data_bytes m b n2)).
Proof.
  intros Hop Hr H1 H2 Hf.
  rewrite <- vec_order_bytes.
  apply walk_vec2_bytes; try assumption;
    cbn [ptr_pair.fst ptr_pair.snd]; try lia.
  rewrite (compared_pairs_length m). exact Hf.
Qed.

Lemma byte_vectors_lexicographic_witness :
  decode (get_u8 shape_vec_u8 (cmp.sp (cmp.make true 4 no_tables 0 8)))
  = Some (SHAPE_NUMBER U8)
  /\ cmp.result (cmp.make true 4 no_tables 0 8) = 0
  /\ Z.of_nat 2 < 2 ^ 31 /\ Z.of_nat 3 < 2 ^ 31
  /\ (Nat.min 2 3 <= 2)%nat
  /\ option_map cmp.result
       (cmp.walk_vec2
          (cmp.walk target64 layout64 shape_vec_u8
             (two_vecs [1; 2] [1; 2; 3]) 3) 2 true
          (ptr_pair.make 24 40,
           ptr_pair.make (24 + Z.of_nat 2) (40 + Z.of_nat 3))
          (cmp.make true 4 no_tables 0 8))
     = Some (-1).
Proof.
  assert (H1 : Z.of_nat 2 < 2 ^ 31) by (simpl; lia).
  assert (H2 : Z.of_nat 3 < 2 ^ 31) by (simpl; lia).
  assert (H3 : (Nat.min 2 3 <= 2)%nat) by (simpl; lia).
  split; [reflexivity|]. split; [reflexivity|]. split; [exact H1|].
  split; [exact H2|]. split; [exact H3|].
  exact (byte_vectors_lexicographic layout64 shape_vec_u8
           (two_vecs [1; 2] [1; 2; 3]) 2 true 24 40 2 3
           (cmp.make true 4 no_tables 0 8) eq_refl eq_refl H1 H2 H3).
Defined.

(** ** The fields of a struct *)

(** X4.  Over fields whose comparisons give the results [rs], the loop of
    [walk_struct2] returns the first result that is not a tie (a tie when
    there is none) and walks no field after the one that decided. *)
Theorem walk_struct2_first_decided rs extra c :
  exists c',
    cmp.walk_struct2 (result_walker rs) (List.length rs + extra)
      (Z.of_nat (List.length rs)) (cmp.set_result (cmp.set_sp c 0) 0)
    = Some c'
    /\ cmp.result c' = first_decided rs
    /\ cmp.sp c' = Z.of_nat (fields_walked rs).
Proof.
  exact (walk_struct2_fields rs [] extra
           (cmp.set_result (cmp.set_sp c 0) 0) eq_refl eq_refl).
Qed.

(** ** Type-descriptor slots *)

(** X5.  A type-descriptor slot is compared as one word: the result is the
    order of the words under the two cursors, aligned by the skeleton and
    again by [cmp_pointer], and it is the same in every memory that holds
    the same word under each cursor. *)
Theorem walk_tydesc_compares_word tgt lay rom m fuel c :
  decode (get_u8 rom (cmp.sp c)) = Some SHAPE_TYDESC ->
  let d := cmp.dp (cmp.ALIGN_TO (alignof_ptr tgt)
                     (cmp.ALIGN_TO (alignof_ptr tgt) c)) in
  let n := sizeof_ptr tgt in
  option_map cmp.result (cmp.walk tgt lay rom m (S fuel) c)
  = Some (vec_spec.length_order
            (load_le m (ptr_pair.fst d) (Z.to_nat n))
            (load_le m (ptr_pair.snd d) (Z.to_nat n)))
  /\ forall m' : data_mem,
       (forall a,
          ptr_pair.fst d <= a < ptr_pair.fst d + n
          \/ ptr_pair.snd d <= a < ptr_pair.snd d + n ->
          m' a = m a) ->
       option_map cmp.result (cmp.walk tgt lay rom m' (S fuel) c)
       = option_map cmp.result (cmp.walk tgt lay rom m (S fuel) c).
Proof.
  intros Hop d n.
  assert (Hw : forall m0,
             option_map cmp.result (cmp.walk tgt lay rom m0 (S fuel) c)
             = Some (vec_spec.length_order
                       (load_le m0 (ptr_pair.fst d) (Z.to_nat n))
                       (load_le m0 (ptr_pair.snd d) (Z.to_nat n)))).
  { intros m0. cbn [cmp.walk]. rewrite Hop. cbn [bind option_map].
    unfold cmp.walk_tydesc2, cmp.cmp_pointer, cmp.bump_dp_word,
      cmp.cmp_number, cmp.load_word.
    cbn [cmp.result cmp.set_dp cmp.set_result].
    rewrite three_way_ints. unfold vec_spec.length_order, d, n.
    unfold cmp.ALIGN_TO. cbn [cmp.align cmp.dp cmp.set_sp cmp.set_dp].
    destruct (cmp.align c) eqn:Ea;
      cbn [cmp.align cmp.dp cmp.set_sp cmp.set_dp]; rewrite ?Ea;
      reflexivity. }
  split; [apply Hw|].
  intros m' Hm. rewrite !Hw.
  assert (Hl : forall a,
             a = ptr_pair.fst d \/ a = ptr_pair.snd d ->
             load_le m' a (Z.to_nat n) = load_le m a (Z.to_nat n)).
  { intros a Ha. apply load_le_ext. intros x Hx. apply Hm.
    destruct (Z_lt_le_dec n 0) as [Hn|Hn].
    - replace (Z.to_nat n) with O in Hx by (destruct n; simpl; lia).
      simpl in Hx. lia.
    - rewrite Z2Nat.id in Hx by lia. lia. }
  rewrite !Hl by auto. reflexivity.
Qed.

Lemma walk_tydesc_compares_word_witness :
  decode (get_u8 shape_tydesc 0) = Some SHAPE_TYDESC
  /\ option_map cmp.result
       (cmp.walk target64 layout64 shape_tydesc two_words 1
          (cmp.make true 0 no_tables 0 8))
     = Some (-1).
Proof.
  split; [reflexivity|].
  destruct (walk_tydesc_compares_word target64 layout64 shape_tydesc
              two_words 0 (cmp.make true 0 no_tables 0 8) eq_refl)
    as [H _].
  exact H.
Defined.

(** ** The layout of a struct *)

Section StructLayout.

Import size_of.

Lemma field_walker_at pre f fs c :
  sp c = Z.of_nat (List.length pre) ->
  field_walker (pre ++ f :: fs) c = Some (set_sa (set_sp c (sp c + 1)) f).
Proof.
  intros Hsp. unfold field_walker. rewrite Hsp.
  destruct (Z.ltb_spec (Z.of_nat (List.length pre)) 0); [lia|].
  rewrite Nat2Z.id, nth_error_app2, Nat.sub_diag by lia. reflexivity.
Qed.

Lemma walk_struct1_loop_rest fs :
  forall pre extra acc c,
    sp c = Z.of_nat (List.length pre) ->
    exists c',
      walk_struct1_loop (field_walker (pre ++ fs)) (List.length fs + extra)
        (Z.of_nat (List.length (pre ++ fs))) false acc c
      = Some (layout_rest (alignment (sa c)) acc fs, c').
Proof.
  induction fs as [|f fs IH]; intros pre extra acc c Hsp.
  - exists c. rewrite app_nil_r.
    destruct (List.length [] + extra)%nat; simpl; rewrite Hsp, Z.eqb_refl;
      reflexivity.
  - cbn [List.length Nat.add walk_struct1_loop].
    assert (Hne : (sp c =? Z.of_nat (List.length (pre ++ f :: fs))) = false).
    { apply Z.eqb_neq. rewrite Hsp, length_app. simpl. lia. }
    rewrite Hne, (field_walker_at pre f fs c Hsp). cbn [bind].
    destruct (IH (pre ++ [f]) extra
                (sa_add (mk_sa (align_to (size acc) (alignment (sa c)))
                           (alignment acc))
                   (size f) (alignment f))
                (set_align (set_sa (set_sp c (sp c + 1)) f) true))
      as [c' Hw].
    { cbn [sp set_align set_sa set_sp]. rewrite Hsp, length_app. simpl. lia. }
    rewrite <- app_assoc in Hw. cbn [app] in Hw.
    exists c'. exact Hw.
Qed.

Lemma walk_struct1_layout fs extra c :
  option_map sa
    (walk_struct1 (field_walker fs) (List.length fs + extra)
       (Z.of_nat (List.length fs)) (set_sp c 0))
  = Some (struct_layout fs).
Proof.
  unfold walk_struct1. destruct fs as [|f fs].
  - destruct (List.length [] + extra)%nat; reflexivity.
  - cbn [List.length Nat.add walk_struct1_loop sp set_sp].
    replace (0 =? Z.of_nat (S (List.length fs))) with false
      by (symmetry; apply Z.eqb_neq; lia).
    pose proof (field_walker_at [] f fs (set_sp c 0) eq_refl) as E.
    cbn [app] in E. rewrite E. cbn [bind].
    destruct (walk_struct1_loop_rest fs [f] extra
                (sa_add (mk_sa 0 1) (size f) (alignment f))
                (set_align (set_sa (set_sp (set_sp c 0) (0 + 1)) f) true)
                eq_refl) as [c' Hw].
    cbn [app List.length] in Hw. cbn [sp set_sp sa set_sa set_align] in *.
    rewrite Hw. reflexivity.
Qed.

Lemma align_to_ge (s a : Z) : 0 < a -> s <= align_to s a.
Proof.
  intros Ha. unfold align_to.
  pose proof (Z.mod_pos_bound (s + a - 1) a Ha).
  pose proof (Z.div_mod (s + a - 1) a ltac:(lia)). nia.
Qed.

Lemma layout_rest_alignment fs :
  forall p acc,
    alignment (layout_rest p acc fs)
    = fold_left Z.max (map alignment fs) (alignment acc).
Proof.
  induction fs as [|f fs IH]; intros p acc; [reflexivity|].
  cbn [layout_rest map fold_left]. rewrite IH. reflexivity.
Qed.

Lemma layout_rest_size fs :
  forall p acc,
    0 < p -> Forall (fun f => 0 < alignment f) fs ->
    size acc + sum_sizes fs <= size (layout_rest p acc fs).
Proof.
  unfold sum_sizes.
  induction fs as [|f fs IH]; intros p acc Hp Hall; simpl; [lia|].
  inversion Hall as [|? ? Hf Hfs]; subst.
  specialize (IH (alignment f)
                (sa_add (mk_sa (align_to (size acc) p) (alignment acc))
                   (size f) (alignment f)) Hf Hfs).
  cbn [size sa_add] in IH. pose proof (align_to_ge (size acc) p Hp). lia.
Qed.

End StructLayout.

(** X6.  A struct is laid out field by field, the running size padded before
    every field but the first to the alignment of the field before it.
    Its alignment is the largest of 1 and of the fields' alignments, and
    when these are positive its size is at least the sum of the fields'
    sizes.  A struct without fields has size 0 and alignment 1. *)
Theorem walk_struct1_layout_bounds fs extra c :
  Forall (fun f => 0 < alignment f) fs ->
  option_map size_of.sa
    (size_of.walk_struct1 (field_walker fs) (List.length fs + extra)
       (Z.of_nat (List.length fs)) (size_of.set_sp c 0))
  = Some (struct_layout fs)
  /\ alignment (struct_layout fs) = max_alignment fs
  /\ sum_sizes fs <= size (struct_layout fs)
  /\ struct_layout [] = mk_sa 0 1.
Proof.
  intros Hall. split; [apply walk_struct1_layout|].
  split; [| split; [| reflexivity]].
  - destruct fs as [|f fs]; [reflexivity|].
    unfold struct_layout, max_alignment. rewrite layout_rest_alignment.
    reflexivity.
  - destruct fs as [|f fs]; [unfold sum_sizes; simpl; lia|].
    inversion Hall as [|? ? Hf Hfs]; subst.
    pose proof (layout_rest_size fs (alignment f)
                  (sa_add (mk_sa 0 1) (size f) (alignment f)) Hf Hfs) as H.
    unfold struct_layout. unfold sum_sizes in *. simpl in *. lia.
Qed.

Lemma walk_struct1_layout_bounds_witness :
  Forall (fun f => 0 < alignment f) [mk_sa 8 8; mk_sa 1 1; mk_sa 4 4]
  /\ option_map size_of.sa
       (size_of.walk_struct1
          (field_walker [mk_sa 8 8; mk_sa 1 1; mk_sa 4 4]) 3 3
          (size_of.set_sp (size_of_start no_tables 7) 0))
     = Some (mk_sa 13 8).
Proof.
  assert (H : Forall (fun f => 0 < alignment f)
                [mk_sa 8 8; mk_sa 1 1; mk_sa 4 4]).
  { repeat constructor. }
  split; [exact H|].
  exact (proj1 (walk_struct1_layout_bounds [mk_sa 8 8; mk_sa 1 1; mk_sa 4 4]
                  0 (size_of_start no_tables 7) H)).
Defined.

(** ** The size of a tagged union and its variants *)

Section TagBounds.

Import size_of tag_size_spec.

Variable tgt : target.
Variable rom : shape_mem.
Variable walk : size_of.t -> option size_of.t.

Lemma map_option_In {A B : Type} (f : A -> option B) (l : list A) :
  forall bs a b,
    map_option f l = Some bs -> In a l -> f a = Some b -> In b bs.
Proof.
  induction l as [|x l IH]; intros bs a b H Hin Hf; [destruct Hin|].
  simpl in H. apply bind_Some in H as [y [Hy H]].
  apply bind_Some in H as [ys [Hys [= <-]]].
  destruct Hin as [->|Hin].
  - left. congruence.
  - right. apply (IH ys a b Hys Hin Hf).
Qed.

Lemma map_option_Forall {A B : Type} (f : A -> option B) (P : B -> Prop)
    (l : list A) :
  (forall a b, f a = Some b -> P b) ->
  forall bs, map_option f l = Some bs -> Forall P bs.
Proof.
  intros HP. induction l as [|x l IH]; intros bs H.
  - injection H as <-. constructor.
  - simpl in H. apply bind_Some in H as [y [Hy H]].
    apply bind_Some in H as [ys [Hys [= <-]]].
    constructor; [apply (HP x y Hy) | apply (IH ys Hys)].
Qed.

(** The fold keeps a pair at least as large as its start and as every
    pair of the list. *)
Lemma keep_larger_fold sas :
  forall best,
    size best <= size (fold_left keep_larger sas best)
    /\ forall s, In s sas -> size s <= size (fold_left keep_larger sas best).
Proof.
  induction sas as [|v sas IH]; intros best; simpl.
  - split; [lia | intros s []].
  - destruct (IH (keep_larger best v)) as [H1 H2].
    assert (Hk : size best <= size (keep_larger best v)
                 /\ size v <= size (keep_larger best v)).
    { unfold keep_larger. destruct (Z.ltb_spec (size best) (size v)); lia. }
    split; [lia|]. intros s [->|Hin]; [lia | apply (H2 s Hin)].
Qed.

(** The pair kept is set as soon as it has a size: every pair of the list
    has an alignment of at least 1. *)
Lemma keep_larger_fold_set sas :
  Forall (fun s => 1 <= alignment s) sas ->
  forall best,
    (0 <= size best /\ (0 < size best -> 1 <= alignment best)) ->
    0 <= size (fold_left keep_larger sas best)
    /\ (0 < size (fold_left keep_larger sas best) ->
        1 <= alignment (fold_left keep_larger sas best)).
Proof.
  induction 1 as [|v sas Hv Hall IH]; intros best Hb; simpl; [exact Hb|].
  apply IH. unfold keep_larger.
  destruct (Z.ltb_spec (size best) (size v)); [|exact Hb].
  split; [lia | intros _; exact Hv].
Qed.

Lemma walk_struct1_loop_alignment fuel :
  forall end_sp first acc c r,
    walk_struct1_loop walk fuel end_sp first acc c = Some r ->
    alignment acc <= alignment (fst r).
Proof.
  induction fuel as [|fuel IH]; intros end_sp first acc c r H; simpl in H.
  - destruct (sp c =? end_sp); [|discriminate]. injection H as <-. simpl. lia.
  - destruct (sp c =? end_sp); [injection H as <-; simpl; lia|].
    apply bind_Some in H as [c1 [_ H]].
    apply IH in H. cbn [alignment sa_add] in H.
    destruct first; cbn [alignment] in H; lia.
Qed.

Lemma variant_as_struct_alignment fuel c tinfo id s :
  variant_as_struct rom walk fuel c tinfo id = Some s -> 1 <= alignment s.
Proof.
  unfold variant_as_struct, walk_struct1. intros H.
  destruct (get_variant_sp rom (tables c) tinfo id) as [vp ve].
  apply bind_Some in H as [c1 [H [= <-]]].
  apply bind_Some in H as [r [H [= <-]]].
  apply walk_struct1_loop_alignment in H. cbn [sa set_sa alignment] in *.
  exact H.
Qed.

Lemma tag_size_of_payload fuel c tinfo r :
  is_set (tag_sa tinfo) = false ->
  compute_tag_size tgt rom walk fuel c tinfo = Some r ->
  exists sas,
    map_option (variant_as_struct rom walk fuel c tinfo)
      (table_ids rom (largest_variants_ptr tinfo + 2)
         (Z.to_nat (get_u16 rom (largest_variants_ptr tinfo)))) = Some sas
    /\ tag_sa r
       = let payload := fold_left keep_larger sas (mk_sa 0 0) in
         if variant_count tinfo =? 1 then
           if size payload =? 0 then mk_sa 1 1 else payload
         else sa_add payload (sizeof_tag_variant_t tgt)
                (alignof_tag_align_t tgt).
Proof.
  intros Hs H.
  pose proof (compute_tag_size_refines tgt rom walk fuel c tinfo) as E.
  rewrite H in E. unfold tag_size, largest_payload in E. rewrite Hs in E.
  cbn [option_map] in E.
  destruct (map_option _ _) as [sas|]; [|discriminate].
  exists sas. split; [reflexivity|]. cbn [bind] in E.
  injection E as E. exact E.
Qed.

End TagBounds.

(** X7.  A tagged union holds every variant that its largest-variants table
    lists: its size is at least the size of each of them, and, when it has
    a discriminant, at least that size plus the discriminant's. *)
Theorem tag_holds_listed_variants tgt rom walk fuel c tinfo r id s :
  is_set (tag_sa tinfo) = false ->
  size_of.compute_tag_size tgt rom walk fuel c tinfo = Some r ->
  In id (tag_size_spec.table_ids rom (largest_variants_ptr tinfo + 2)
           (Z.to_nat (get_u16 rom (largest_variants_ptr tinfo)))) ->
  tag_size_spec.variant_as_struct rom walk fuel c tinfo id = Some s ->
  size s + (if variant_count tinfo =? 1 then 0 else sizeof_tag_variant_t tgt)
  <= size (tag_sa r).
Proof.
  intros Hs H Hin Hv.
  destruct (tag_size_of_payload tgt rom walk fuel c tinfo r Hs H)
    as [sas [Hm ->]].
  pose proof (map_option_In _ _ sas id s Hm Hin Hv) as Hs_in.
  destruct (keep_larger_fold sas (mk_sa 0 0)) as [H0 Hall].
  specialize (Hall s Hs_in). cbn [size] in H0. cbv zeta.
  destruct (variant_count tinfo =? 1).
  - destruct (Z.eqb_spec
                (size (fold_left tag_size_spec.keep_larger sas (mk_sa 0 0))) 0);
      cbn [size]; lia.
  - cbn [size sa_add]. lia.
Qed.

Lemma tag_holds_listed_variants_witness :
  is_set (tag_sa (fst (read_tag_info two_variant_rom tag_tables 1))) = false
  /\ size_of.compute_tag_size target32 two_variant_rom
       (size_of.walk target32 two_variant_rom 3) 3
       (size_of_start tag_tables 0)
       (fst (read_tag_info two_variant_rom tag_tables 1))
     = Some (mk_tinfo 0 12 2 22 (mk_sa 12 4))
  /\ In 1 (tag_size_spec.table_ids two_variant_rom 18 2)
  /\ tag_size_spec.variant_as_struct two_variant_rom
       (size_of.walk target32 two_variant_rom 3) 3
       (size_of_start tag_tables 0)
       (fst (read_tag_info two_variant_rom tag_tables 1)) 1
     = Some (mk_sa 8 4)
  /\ size (mk_sa 8 4) + 4 <= size (mk_sa 12 4).
Proof.
  assert (Hin : In 1 (tag_size_spec.table_ids two_variant_rom 18 2))
    by (right; left; reflexivity).
  split; [reflexivity|]. split; [reflexivity|]. split; [exact Hin|].
  split; [reflexivity|].
  exact (tag_holds_listed_variants target32 two_variant_rom
           (size_of.walk target32 two_variant_rom 3) 3
           (size_of_start tag_tables 0)
           (fst (read_tag_info two_variant_rom tag_tables 1))
           (mk_tinfo 0 12 2 22 (mk_sa 12 4)) 1 (mk_sa 8 4)
           eq_refl eq_refl Hin eq_refl).
Defined.

(** X8.  A computed tag size is never empty: with a discriminant of positive
    size and alignment, the size and the alignment that [compute_tag_size]
    stores are at least 1, so the pair is set and a second call returns it
    as it is. *)
Theorem computed_tag_size_is_set tgt rom walk fuel c tinfo r :
  0 < sizeof_tag_variant_t tgt -> 0 < alignof_tag_align_t tgt ->
  is_set (tag_sa tinfo) = false ->
  size_of.compute_tag_size tgt rom walk fuel c tinfo = Some r ->
  1 <= size (tag_sa r) /\ 1 <= alignment (tag_sa r)
  /\ size_of.compute_tag_size tgt rom walk fuel c r = Some r.
Proof.
  intros Hsz Hal Hs H.
  destruct (tag_size_of_payload tgt rom walk fuel c tinfo r Hs H)
    as [sas [Hm Hr]].
  assert (Hall : Forall (fun s => 1 <= alignment s) sas).
  { apply (map_option_Forall _ _ _
             (fun a b => variant_as_struct_alignment rom walk fuel c tinfo a b)
             sas Hm). }
  destruct (keep_larger_fold_set sas Hall (mk_sa 0 0)) as [H0 H1].
  { cbn. split; lia. }
  assert (Hb : 1 <= size (tag_sa r) /\ 1 <= alignment (tag_sa r)).
  { rewrite Hr. cbv zeta. destruct (variant_count tinfo =? 1).
    - destruct (Z.eqb_spec
                  (size (fold_left tag_size_spec.keep_larger sas (mk_sa 0 0)))
                  0); cbn [size alignment]; [lia|].
      split; [lia | apply H1; lia].
    - cbn [size alignment sa_add]. lia. }
  split; [apply Hb|]. split; [apply Hb|].
  unfold size_of.compute_tag_size, is_set.
  destruct (Z.eqb_spec (alignment (tag_sa r)) 0); [lia | reflexivity].
Qed.

Lemma computed_tag_size_is_set_witness :
  0 < sizeof_tag_variant_t target64 /\ 0 < alignof_tag_align_t target64
  /\ is_set (tag_sa empty_tag_rom_info) = false
  /\ size_of.compute_tag_size target64 empty_tag_rom
       (size_of.walk target64 empty_tag_rom 2) 2
       (size_of_start tag_tables 0) empty_tag_rom_info
     = Some (mk_tinfo 0 12 1 18 (mk_sa 1 1))
  /\ 1 <= size (mk_sa 1 1) /\ 1 <= alignment (mk_sa 1 1)
  /\ size_of.compute_tag_size target64 empty_tag_rom
       (size_of.walk target64 empty_tag_rom 2) 2
       (size_of_start tag_tables 0) (mk_tinfo 0 12 1 18 (mk_sa 1 1))
     = Some (mk_tinfo 0 12 1 18 (mk_sa 1 1)).
Proof.
  assert (H1 : 0 < sizeof_tag_variant_t target64) by (simpl; lia).
  assert (H2 : 0 < alignof_tag_align_t target64) by (simpl; lia).
  split; [exact H1|]. split; [exact H2|]. split; [reflexivity|].
  split; [reflexivity|].
  exact (computed_tag_size_is_set target64 empty_tag_rom
           (size_of.walk target64 empty_tag_rom 2) 2
           (size_of_start tag_tables 0) empty_tag_rom_info
           (mk_tinfo 0 12 1 18 (mk_sa 1 1)) H1 H2 eq_refl eq_refl).
Defined.

(** ** The logger's aggregates *)

Section LogAggregates.

Import log_data.

Local Open Scope string_scope.

Lemma members_concat (sep : string) (ts : list string) :
  members sep EmptyString ts = String.concat sep ts.
Proof.
  destruct ts as [|t ts]; [reflexivity|]. unfold members. cbn [append].
  revert t. induction ts as [|u ts IH]; intros t.
  - apply string_app_nil_r.
  - change (String.concat sep (t :: u :: ts))
      with (t ++ sep ++ String.concat sep (u :: ts)).
    rewrite <- (IH u). unfold later_members, log_spec.flatten.
    cbn [map fold_right append].
    rewrite !string_app_assoc. reflexivity.
Qed.

Lemma text_walker_at base pre t ts c :
  sp c = (base + Z.of_nat (List.length pre))%Z ->
  text_walker base (pre ++ t :: ts) c
  = Some (set_sp (put (put c (prefix c)) t) (sp c + 1)).
Proof.
  intros Hsp. unfold text_walker. rewrite Hsp.
  destruct (Z.ltb_spec (base + Z.of_nat (List.length pre)) base); [lia|].
  replace (base + Z.of_nat (List.length pre) - base)%Z
    with (Z.of_nat (List.length pre)) by lia.
  rewrite Nat2Z.id, nth_error_app2, Nat.sub_diag by lia. reflexivity.
Qed.

(** The loop over the fields after the first: every field is written
    after a comma and the walker's prefix. *)
Lemma walk_fields_later base ts :
  forall pre extra c,
    sp c = (base + Z.of_nat (List.length pre))%Z ->
    exists c',
      walk_fields (text_walker base (pre ++ ts)) (List.length ts + extra)
        (base + Z.of_nat (List.length (pre ++ ts))) false c = Some c'
      /\ out c' = out c ++ later_members ", " (prefix c) ts
      /\ prefix c' = prefix c
      /\ sp c' = (base + Z.of_nat (List.length (pre ++ ts)))%Z
      /\ dp c' = dp c.
Proof.
  induction ts as [|t ts IH]; intros pre extra c Hsp.
  - exists c. rewrite app_nil_r. split.
    + destruct (List.length [] + extra)%nat; simpl; rewrite Hsp, Z.eqb_refl;
        reflexivity.
    + unfold later_members. simpl. rewrite string_app_nil_r. auto.
  - cbn [List.length Nat.add walk_fields].
    assert (Hne : (sp c =? base + Z.of_nat (List.length (pre ++ t :: ts)))%Z
                  = false).
    { apply Z.eqb_neq. rewrite Hsp, length_app. simpl. lia. }
    rewrite Hne.
    rewrite (text_walker_at base pre t ts (put c ", ")) by (simpl; lia).
    cbn [bind].
    match goal with
    | |- context [walk_fields _ _ _ false ?c1] =>
        destruct (IH (pre ++ [t])%list extra c1)
          as [c' (Hw & Hout & Hpre & Hsp' & Hdp)]
    end.
    { cbn. rewrite Hsp, length_app. simpl. lia. }
    rewrite <- app_assoc in Hw, Hsp'. cbn [app] in Hw, Hsp'.
    exists c'. split; [exact Hw|].
    split; [| split; [exact Hpre | split; [exact Hsp' | exact Hdp]]].
    rewrite Hout. cbn [out prefix put set_out set_sp set_align].
    unfold later_members. cbn [map log_spec.flatten fold_right].
    rewrite !string_app_assoc. reflexivity.
Qed.

(** The loop from the first field on. *)
Lemma walk_fields_members base ts extra c :
  sp c = base ->
  exists c',
    walk_fields (text_walker base ts) (List.length ts + extra)
      (base + Z.of_nat (List.length ts)) true c = Some c'
    /\ out c' = out c ++ members ", " (prefix c) ts
    /\ prefix c' = prefix c
    /\ sp c' = (base + Z.of_nat (List.length ts))%Z
    /\ dp c' = dp c.
Proof.
  intros Hsp. destruct ts as [|t ts].
  - exists c. split.
    + destruct (List.length [] + extra)%nat; simpl; rewrite Hsp, Z.add_0_r,
        Z.eqb_refl; reflexivity.
    + simpl. rewrite string_app_nil_r. repeat split; auto. lia.
  - cbn [List.length Nat.add walk_fields]. rewrite Hsp.
    replace (base =? base + Z.of_nat (S (List.length ts)))%Z with false
      by (symmetry; apply Z.eqb_neq; lia).
    assert (Hsp0 : sp c = (base + Z.of_nat (List.length (@nil string)))%Z)
      by (simpl; lia).
    pose proof (text_walker_at base [] t ts c Hsp0) as E. cbn [app] in E.
    rewrite E. cbn [bind].
    match goal with
    | |- context [walk_fields _ _ _ false ?c1] =>
        destruct (walk_fields_later base ts [t] extra c1)
          as [c' (Hw & Hout & Hpre & Hsp' & Hdp)]
    end.
    { cbn. rewrite Hsp. reflexivity. }
    cbn [app] in Hw, Hsp'.
    exists c'. split; [exact Hw|].
    split; [| split; [exact Hpre | split; [exact Hsp' | exact Hdp]]].
    rewrite Hout. cbn [out prefix put set_out set_sp set_align members].
    rewrite !string_app_assoc. reflexivity.
Qed.

(** X9.  [log::walk_struct2]: a record is written as the walker's separator, an
    opening parenthesis, the fields with a comma and a space between them,
    and a closing parenthesis; the walker's separator is empty from then
    on, and the shape cursor is at the end of the fields. *)
Theorem log_walk_struct2_renders (ts : list string) (extra : nat) (c : t) :
  exists c',
    walk_struct2 (text_walker (sp c) ts) (List.length ts + extra)
      (sp c + Z.of_nat (List.length ts)) c = Some c'
    /\ out c' = out c ++ prefix c ++ "(" ++ String.concat ", " ts ++ ")"
    /\ prefix c' = EmptyString
    /\ sp c' = (sp c + Z.of_nat (List.length ts))%Z
    /\ dp c' = dp c.
Proof.
  unfold walk_struct2.
  match goal with
  | |- context [walk_fields _ _ _ true ?c0] =>
      destruct (walk_fields_members (sp c) ts extra c0 eq_refl)
        as [c1 (Hw & Hout & Hpre & Hsp & Hdp)]
  end.
  cbn [sp set_prefix put set_out] in Hw. cbn [sp set_prefix put set_out].
  rewrite Hw. cbn [bind]. eexists. split; [reflexivity|].
  cbn [out prefix sp dp put set_out]. rewrite Hout, Hpre, Hsp, Hdp.
  cbn [out prefix sp dp set_prefix put set_out].
  rewrite members_concat, !string_app_assoc. auto.
Qed.

(** X10.  [log::walk_res2]: a resource is written as the walker's separator and
    [res], then, if it has fields, these between parentheses with a comma
    and a space between them.  The separator is not cleared as it is for a
    record: every field is written after it, and it is there after the
    call. *)
Theorem log_walk_res2_renders (ts : list string) (extra : nat) (dtor : Z)
    (c : t) :
  exists c',
    walk_res2 (text_walker (sp c) ts) (List.length ts + extra) dtor
      (sp c + Z.of_nat (List.length ts)) c = Some c'
    /\ out c'
       = out c ++ prefix c ++ "res" ++ parenthesized ", " (prefix c) ts
    /\ prefix c' = prefix c
    /\ sp c' = (sp c + Z.of_nat (List.length ts))%Z.
Proof.
  unfold walk_res2. cbn [sp put set_out].
  destruct ts as [|t ts].
  - cbn [List.length]. rewrite Z.add_0_r, Z.eqb_refl.
    eexists. split; [reflexivity|].
    cbn [out prefix sp put set_out parenthesized].
    rewrite string_app_nil_r, !string_app_assoc. auto.
  - replace (sp c =? sp c + Z.of_nat (List.length (t :: ts)))%Z with false
      by (symmetry; apply Z.eqb_neq; cbn [List.length]; lia).
    match goal with
    | |- context [walk_fields _ _ _ true ?c0] =>
        destruct (walk_fields_members (sp c) (t :: ts) extra c0 eq_refl)
          as [c1 (Hw & Hout & Hpre & Hsp & Hdp)]
    end.
    rewrite Hw. cbn [bind]. eexists. split; [reflexivity|].
    cbn [out prefix sp put set_out]. rewrite Hout, Hpre, Hsp.
    cbn [out prefix sp put set_out parenthesized].
    rewrite !string_app_assoc. auto.
Qed.

Lemma count_length k a e : List.length (vec_spec.elements k a e)
                           = vec_spec.count k a e.
Proof. unfold vec_spec.elements. rewrite length_map, length_seq. reflexivity. Qed.

(** The loop over the elements after the first, which the sub-walker
    writes after the separator [", "]. *)
Lemma walk_elements_later (k : Z) (k_pos : (0 < k)%Z) (text : Z -> string)
    (e : Z) :
  forall fuel sub,
    (vec_spec.count k (dp sub) e <= fuel)%nat ->
    prefix sub = ", " ->
    exists sub',
      walk_elements (element_walker k text) fuel e sub = Some sub'
      /\ out sub'
         = out sub
           ++ later_members ", " EmptyString
                (map text (vec_spec.elements k (dp sub) e)).
Proof.
  induction fuel as [|fuel IH]; intros sub Hn Hp.
  - assert (Hle : (e <= dp sub)%Z).
    { destruct (Z.le_gt_cases e (dp sub)) as [H|H]; [exact H|].
      rewrite <- count_length, (elements_cons k k_pos _ _ H) in Hn.
      simpl in Hn. lia. }
    simpl. replace (dp sub <? e)%Z with false
      by (symmetry; apply Z.ltb_ge; exact Hle).
    exists sub. split; [reflexivity|].
    rewrite (elements_nil k k_pos _ _ Hle). symmetry. apply string_app_nil_r.
  - cbn [walk_elements]. destruct (Z.ltb_spec (dp sub) e) as [H|H].
    + unfold walk_reset, element_walker. cbn [bind].
      match goal with
      | |- context [walk_elements _ fuel e ?s1] =>
          destruct (IH s1) as [sub' (Hw & Hout)]
      end.
      * cbn. rewrite <- count_length in *.
        rewrite (elements_cons k k_pos _ _ H) in Hn. simpl in Hn. lia.
      * reflexivity.
      * exists sub'. split; [exact Hw|]. rewrite Hout.
        cbn [out dp prefix sp set_prefix set_align set_sp set_dp put set_out].
        rewrite (elements_cons k k_pos _ _ H), Hp.
        unfold later_members. cbn [map log_spec.flatten fold_right append].
        rewrite !string_app_assoc. reflexivity.
    + exists sub. split; [reflexivity|].
      rewrite (elements_nil k k_pos _ _ H). symmetry. apply string_app_nil_r.
Qed.

(** The loop from the first element on, which the sub-walker writes
    without a separator. *)
Lemma walk_elements_members (k : Z) (k_pos : (0 < k)%Z) (text : Z -> string)
    (e : Z) fuel sub :
  (vec_spec.count k (dp sub) e <= fuel)%nat ->
  prefix sub = EmptyString ->
  exists sub',
    walk_elements (element_walker k text) fuel e sub = Some sub'
    /\ out sub'
       = out sub
         ++ String.concat ", " (map text (vec_spec.elements k (dp sub) e)).
Proof.
  intros Hn Hp. destruct (Z.ltb_spec (dp sub) e) as [H|H].
  - rewrite <- count_length, (elements_cons k k_pos _ _ H) in Hn.
    destruct fuel as [|fuel]; [simpl in Hn; lia|].
    cbn [walk_elements].
    replace (dp sub <? e)%Z with true by (symmetry; apply Z.ltb_lt; exact H).
    unfold walk_reset, element_walker. cbn [bind].
    match goal with
    | |- context [walk_elements _ fuel e ?s1] =>
        destruct (walk_elements_later k k_pos text e fuel s1)
          as [sub' (Hw & Hout)]
    end.
    + cbn. rewrite <- count_length. simpl in Hn. lia.
    + reflexivity.
    + exists sub'. split; [exact Hw|]. rewrite Hout.
      cbn [out dp prefix sp set_prefix set_align set_sp set_dp put set_out].
      rewrite (elements_cons k k_pos _ _ H), Hp, <- members_concat.
      cbn [map members append]. rewrite !string_app_assoc. reflexivity.
  - exists sub. split.
    + destruct fuel; simpl;
        replace (dp sub <? e)%Z with false
          by (symmetry; apply Z.ltb_ge; exact H); reflexivity.
    + rewrite (elements_nil k k_pos _ _ H). symmetry.
      apply string_app_nil_r.
Qed.

(** X11.  [log::walk_vec2], when the element is not a byte: the vector is
    written as the walker's separator, an opening bracket, the elements
    with a comma and a space between them, and a closing bracket.  The
    elements are written by a sub-walker: the walker's own cursors and
    separator are as before the call. *)
Theorem log_walk_vec2_renders (rom : shape_mem) (m : data_mem) (k : Z)
    (text : Z -> string) (fuel : nat) (is_pod : bool) (a e : Z) (c : t) :
  (0 < k)%Z ->
  peek_is_u8 rom c = false ->
  (vec_spec.count k a e <= fuel)%nat ->
  walk_vec2 rom m (element_walker k text) fuel is_pod (a, e) c
  = Some (set_out c
            (out c ++ prefix c ++ "["
             ++ String.concat ", " (map text (vec_spec.elements k a e))
             ++ "]")).
Proof.
  intros k_pos Hpeek Hn. unfold walk_vec2. rewrite Hpeek. cbn [fst snd].
  match goal with
  | |- context [walk_elements _ fuel e ?s0] =>
      destruct (walk_elements_members k k_pos text e fuel s0 Hn eq_refl)
        as [sub' (Hw & Hout)]
  end.
  rewrite Hw. cbn [bind]. rewrite Hout.
  unfold set_end_dp, make_dp, put, set_out.
  cbn [sp tables align dp end_dp prefix out].
  rewrite !string_app_assoc. reflexivity.
Qed.

(** X12.  [log::walk_vec2], when the element is a byte: the vector is written
    as a string, whatever the walker of the elements is, which is never
    called; the shape cursor moves over the element's opcode. *)
Theorem log_walk_vec2_string (rom : shape_mem) (m : data_mem)
    (walk : t -> option t) (fuel : nat) (is_pod : bool) (a : Z) (n : nat)
    (c : t) :
  peek_is_u8 rom c = true ->
  walk_vec2 rom m walk fuel is_pod (a, a + Z.of_nat n)%Z c
  = Some (set_out (set_sp c (sp c + 1))
            (out c ++ prefix c
             ++ log_spec.render (log_spec.data_bytes m a n))).
Proof.
  intros Hpeek. unfold walk_vec2. rewrite Hpeek.
  unfold log.walk_string2, log_spec.render. cbn [fst snd].
  replace (a + Z.of_nat n - a)%Z with (Z.of_nat n) by lia.
  rewrite Nat2Z.id, walk_string2_loop_flatten.
  cbn [out prefix set_sp]. rewrite !string_app_assoc. reflexivity.
Qed.

(** The loop of [walk_variant2] after the first field. *)
Lemma walk_variant_fields_later base ts :
  forall pre extra sub,
    sp sub = (base + Z.of_nat (List.length pre))%Z ->
    exists sub',
      walk_variant_fields (text_walker base (pre ++ ts))
        (List.length ts + extra)
        (base + Z.of_nat (List.length (pre ++ ts))) false sub
      = Some (false, sub')
      /\ out sub' = out sub ++ later_members ", " (prefix sub) ts.
Proof.
  induction ts as [|t ts IH]; intros pre extra sub Hsp.
  - exists sub. rewrite app_nil_r. split.
    + destruct (List.length [] + extra)%nat; simpl; rewrite Hsp, Z.ltb_irrefl;
        reflexivity.
    + unfold later_members. simpl. symmetry. apply string_app_nil_r.
  - cbn [List.length Nat.add walk_variant_fields].
    assert (Hlt : (sp sub <? base + Z.of_nat (List.length (pre ++ t :: ts)))%Z
                  = true).
    { apply Z.ltb_lt. rewrite Hsp, length_app. simpl. lia. }
    rewrite Hlt.
    rewrite (text_walker_at base pre t ts (put sub ", ")) by (simpl; lia).
    cbn [bind].
    match goal with
    | |- context [walk_variant_fields _ _ _ false ?s1] =>
        destruct (IH (pre ++ [t])%list extra s1) as [sub' (Hw & Hout)]
    end.
    { cbn. rewrite Hsp, length_app. simpl. lia. }
    rewrite <- app_assoc in Hw. cbn [app] in Hw.
    exists sub'. split; [exact Hw|].
    rewrite Hout. cbn [out prefix put set_out set_sp set_align].
    unfold later_members. cbn [map log_spec.flatten fold_right].
    rewrite !string_app_assoc. reflexivity.
Qed.

(** X13.  [log::walk_variant2]: the fields of a variant are written between
    parentheses with a comma and a space between them, and nothing at all
    is written for a variant without fields.  The fields are written by a
    sub-walker: the walker's own cursors and separator are as before the
    call, and the separator is not written. *)
Theorem log_walk_variant2_renders (ts : list string) (extra : nat)
    (tinfo : tag_info) (variant_id base : Z) (c : t) :
  walk_variant2 (text_walker base ts) (List.length ts + extra) tinfo
    variant_id (base, base + Z.of_nat (List.length ts))%Z c
  = Some (set_out c
            (out c
             ++ match ts with
                | [] => EmptyString
                | _ => "(" ++ String.concat ", " ts ++ ")"
                end)).
Proof.
  unfold walk_variant2. cbn [fst snd].
  assert (Hmk : sp (make_sp c base) = base) by reflexivity.
  destruct ts as [|t ts].
  - cbn [List.length Nat.add]. rewrite Z.add_0_r.
    replace (walk_variant_fields (text_walker base []) extra base true
               (make_sp c base))
      with (Some (true, make_sp c base)).
    + cbn [bind fst snd]. unfold make_sp. cbn [out].
      rewrite string_app_nil_r. destruct c; reflexivity.
    + destruct extra; cbn [walk_variant_fields]; rewrite Hmk, Z.ltb_irrefl;
        reflexivity.
  - cbn [List.length Nat.add walk_variant_fields]. rewrite Hmk.
    replace (base <? base + Z.of_nat (S (List.length ts)))%Z with true
      by (symmetry; apply Z.ltb_lt; lia).
    assert (Hsp0 : sp (put (make_sp c base) "(")
                   = (base + Z.of_nat (List.length (@nil string)))%Z)
      by (cbn [sp put set_out]; rewrite Hmk; simpl; lia).
    pose proof (text_walker_at base [] t ts _ Hsp0) as E. cbn [app] in E.
    rewrite E. cbn [bind].
    match goal with
    | |- context [walk_variant_fields _ _ _ false ?s1] =>
        destruct (walk_variant_fields_later base ts [t] extra s1)
          as [sub' (Hw & Hout)]
    end.
    { cbn [sp set_align set_sp put set_out]. rewrite Hmk. simpl. lia. }
    cbn [app List.length] in Hw. rewrite Hw. cbn [bind fst snd].
    rewrite Hout. rewrite <- members_concat.
    unfold make_sp, set_align, set_sp, put, set_out.
    cbn [sp tables align dp end_dp prefix out members append].
    rewrite !string_app_assoc. reflexivity.
Qed.

Lemma log_walk_vec2_renders_witness :
  (0 < 4)%Z
  /\ peek_is_u8 shape_vec_u32 (log_start 4 ", ") = false
  /\ (vec_spec.count 4 100 108 <= 2)%nat
  /\ walk_vec2 shape_vec_u32 (mem_of_bytes 100 [1; 0; 0; 0; 2; 0; 0; 0])
       (element_walker 4 (digit_text (mem_of_bytes 100 [1; 0; 0; 0; 2; 0; 0; 0])))
       2 true (100, 108)%Z (log_start 4 ", ")
     = Some (set_out (log_start 4 ", ") ", [1, 2]").
Proof.
  assert (H1 : (0 < 4)%Z) by lia.
  assert (H2 : peek_is_u8 shape_vec_u32 (log_start 4 ", ") = false)
    by reflexivity.
  assert (H3 : (vec_spec.count 4 100 108 <= 2)%nat) by (vm_compute; lia).
  split; [exact H1|]. split; [exact H2|]. split; [exact H3|].
  exact (log_walk_vec2_renders shape_vec_u32
           (mem_of_bytes 100 [1; 0; 0; 0; 2; 0; 0; 0]) 4
           (digit_text (mem_of_bytes 100 [1; 0; 0; 0; 2; 0; 0; 0]))
           2 true 100 108 (log_start 4 ", ") H1 H2 H3).
Defined.

Lemma log_walk_vec2_string_witness :
  peek_is_u8 shape_vec_u8 (log_start 4 ", ") = true
  /\ walk_vec2 shape_vec_u8 sample_string (fun _ => None) 0 true
       (100, 100 + Z.of_nat 3)%Z (log_start 4 ", ")
     = Some (set_out (set_sp (log_start 4 ", ") 5)
               (", " ++ log_spec.render [65; 10; 34]%Z)).
Proof.
  assert (H1 : peek_is_u8 shape_vec_u8 (log_start 4 ", ") = true)
    by reflexivity.
  split; [exact H1|].
  exact (log_walk_vec2_string shape_vec_u8 sample_string (fun _ => None) 0
           true 100 3 (log_start 4 ", ") H1).
Defined.

End LogAggregates.

(** ** The shape printer *)

Section PrintAggregates.

Import print.

Local Open Scope string_scope.

Variable fmt_p : Z -> string.

Lemma print_walker_at base pre t ts c :
  sp c = (base + Z.of_nat (List.length pre))%Z ->
  print_walker base (pre ++ t :: ts) c
  = Some (set_sp (DPRINT c t) (sp c + 1)).
Proof.
  intros Hsp. unfold print_walker. rewrite Hsp.
  destruct (Z.ltb_spec (base + Z.of_nat (List.length pre)) base); [lia|].
  replace (base + Z.of_nat (List.length pre) - base)%Z
    with (Z.of_nat (List.length pre)) by lia.
  rewrite Nat2Z.id, nth_error_app2, Nat.sub_diag by lia. reflexivity.
Qed.

Lemma print_fields_later base ts :
  forall pre extra c,
    sp c = (base + Z.of_nat (List.length pre))%Z ->
    exists c',
      walk_fields (print_walker base (pre ++ ts)) (List.length ts + extra)
        (base + Z.of_nat (List.length (pre ++ ts))) false c = Some c'
      /\ out c' = out c ++ later_members "," EmptyString ts
      /\ sp c' = (base + Z.of_nat (List.length (pre ++ ts)))%Z.
Proof.
  induction ts as [|t ts IH]; intros pre extra c Hsp.
  - exists c. rewrite app_nil_r. split.
    + destruct (List.length [] + extra)%nat; simpl; rewrite Hsp, Z.eqb_refl;
        reflexivity.
    + unfold later_members. simpl. rewrite string_app_nil_r. auto.
  - cbn [List.length Nat.add walk_fields].
    assert (Hne : (sp c =? base + Z.of_nat (List.length (pre ++ t :: ts)))%Z
                  = false).
    { apply Z.eqb_neq. rewrite Hsp, length_app. simpl. lia. }
    rewrite Hne.
    rewrite (print_walker_at base pre t ts (DPRINT c ",")) by (simpl; lia).
    cbn [bind].
    match goal with
    | |- context [walk_fields _ _ _ false ?c1] =>
        destruct (IH (pre ++ [t])%list extra c1) as [c' (Hw & Hout & Hsp')]
    end.
    { cbn. rewrite Hsp, length_app. simpl. lia. }
    rewrite <- app_assoc in Hw, Hsp'. cbn [app] in Hw, Hsp'.
    exists c'. split; [exact Hw|]. split; [| exact Hsp'].
    rewrite Hout. unfold set_sp, DPRINT. cbn [sp tables out].
    unfold later_members. cbn [map log_spec.flatten fold_right append].
    rewrite !string_app_assoc. reflexivity.
Qed.

Lemma print_fields_members base ts extra c :
  sp c = base ->
  exists c',
    walk_fields (print_walker base ts) (List.length ts + extra)
      (base + Z.of_nat (List.length ts)) true c = Some c'
    /\ out c' = out c ++ String.concat "," ts
    /\ sp c' = (base + Z.of_nat (List.length ts))%Z.
Proof.
  intros Hsp. destruct ts as [|t ts].
  - exists c. split.
    + destruct (List.length [] + extra)%nat; simpl; rewrite Hsp, Z.add_0_r,
        Z.eqb_refl; reflexivity.
    + simpl. rewrite string_app_nil_r. split; [reflexivity | lia].
  - cbn [List.length Nat.add walk_fields]. rewrite Hsp.
    replace (base =? base + Z.of_nat (S (List.length ts)))%Z with false
      by (symmetry; apply Z.eqb_neq; lia).
    assert (Hsp0 : sp c = (base + Z.of_nat (List.length (@nil string)))%Z)
      by (simpl; lia).
    pose proof (print_walker_at base [] t ts c Hsp0) as E. cbn [app] in E.
    rewrite E. cbn [bind].
    match goal with
    | |- context [walk_fields _ _ _ false ?c1] =>
        destruct (print_fields_later base ts [t] extra c1)
          as [c' (Hw & Hout & Hsp')]
    end.
    { cbn. rewrite Hsp. reflexivity. }
    cbn [app] in Hw, Hsp'.
    exists c'. split; [exact Hw|]. split; [| exact Hsp'].
    rewrite Hout, <- members_concat. unfold set_sp, DPRINT.
    cbn [sp tables out members append].
    rewrite !string_app_assoc. reflexivity.
Qed.

(** X14.  [print::walk_struct1] and [print::walk_res1]: a record is printed as
    its fields between parentheses with a comma between them; a resource
    as [res@] and its destructor, then its fields as those of a record if
    it has any, and nothing more if it has none.  Both leave the shape
    cursor at the end of the fields. *)
Theorem print_aggregates_render (ts : list string) (extra : nat) (dtor : Z)
    (c : t) :
  (exists c',
     walk_struct1 (print_walker (sp c) ts) (List.length ts + extra)
       (sp c + Z.of_nat (List.length ts)) c = Some c'
     /\ out c' = out c ++ "(" ++ String.concat "," ts ++ ")"
     /\ sp c' = (sp c + Z.of_nat (List.length ts))%Z)
  /\ (exists c',
        walk_res1 fmt_p (print_walker (sp c) ts) (List.length ts + extra)
          dtor (sp c + Z.of_nat (List.length ts)) c = Some c'
        /\ out c'
           = out c ++ "res@" ++ fmt_p dtor
             ++ match ts with
                | [] => EmptyString
                | _ => "(" ++ String.concat "," ts ++ ")"
                end
        /\ sp c' = (sp c + Z.of_nat (List.length ts))%Z).
Proof.
  split.
  - unfold walk_struct1.
    destruct (print_fields_members (sp c) ts extra (DPRINT c "(") eq_refl)
      as [c1 (Hw & Hout & Hsp)].
    rewrite Hw. cbn [bind]. eexists. split; [reflexivity|].
    unfold DPRINT in *. cbn [sp tables out] in *. rewrite Hout, Hsp.
    rewrite !string_app_assoc. auto.
  - unfold walk_res1. destruct ts as [|t ts].
    + cbn [List.length]. unfold DPRINT at 1. cbn [sp].
      rewrite Z.add_0_r, Z.eqb_refl.
      eexists. split; [reflexivity|]. unfold DPRINT. cbn [sp tables out].
      rewrite string_app_nil_r. auto.
    + unfold DPRINT at 1. cbn [sp].
      replace (sp c =? sp c + Z.of_nat (List.length (t :: ts)))%Z with false
        by (symmetry; apply Z.eqb_neq; cbn [List.length]; lia).
      destruct (print_fields_members (sp c) (t :: ts) extra
                  (DPRINT (DPRINT c ("res@" ++ fmt_p dtor)) "(") eq_refl)
        as [c1 (Hw & Hout & Hsp)].
      rewrite Hw. cbn [bind]. eexists. split; [reflexivity|].
      unfold DPRINT in *. cbn [sp tables out] in *. rewrite Hout, Hsp.
      rewrite !string_app_assoc. auto.
Qed.

End PrintAggregates.

(** ** The text of a logged string *)

Section LoggedText.

Import log log_spec.

Local Open Scope string_scope.

Lemma printable_text_app (s1 s2 : string) :
  printable_text (s1 ++ s2) = printable_text s1 && printable_text s2.
Proof.
  induction s1 as [|ch s1 IH]; simpl; [reflexivity|].
  rewrite IH, andb_assoc. reflexivity.
Qed.

Lemma string_length_app (s1 s2 : string) :
  String.length (s1 ++ s2) = (String.length s1 + String.length s2)%nat.
Proof. induction s1 as [|ch s1 IH]; simpl; [reflexivity | rewrite IH; reflexivity]. Qed.

Lemma string_app_inv_head (s x y : string) : s ++ x = s ++ y -> x = y.
Proof.
  induction s as [|ch s IH]; simpl; intros H; [exact H|].
  injection H as H. exact (IH H).
Qed.

Lemma load_u8_range (m : data_mem) (a : Z) : (0 <= load_u8 m a < 256)%Z.
Proof. unfold load_u8. apply Z.mod_pos_bound. lia. Qed.

(** What one iteration writes is printable and at most four characters
    long, for each of the 256 bytes. *)
Lemma escape_byte_printable_table :
  forallb (fun n => printable_text (escape_byte (Z.of_nat n))
                    && (String.length (escape_byte (Z.of_nat n)) <=? 4)%nat)
          (seq 0 256) = true.
Proof. vm_compute. reflexivity. Qed.

Lemma escape_byte_printable (b : Z) :
  (0 <= b < 256)%Z ->
  printable_text (escape_byte b) = true
  /\ (String.length (escape_byte b) <= 4)%nat.
Proof.
  intros Hb. pose proof escape_byte_printable_table as Ht.
  rewrite forallb_forall in Ht. specialize (Ht (Z.to_nat b)).
  rewrite Z2Nat.id in Ht by lia.
  destruct (andb_prop _ _ (Ht ltac:(apply in_seq; lia))) as [H1 H2].
  split; [exact H1 | apply Nat.leb_le, H2].
Qed.

Lemma walk_string2_loop_escapes (m : data_mem) (n : nat) :
  forall a out,
    walk_string2_loop m a n out
    = out ++ flatten (map escape_byte (data_bytes m a n)).
Proof.
  induction n as [|n IH]; intros a out; simpl.
  - symmetry. apply string_app_nil_r.
  - rewrite IH, string_app_assoc. reflexivity.
Qed.

Lemma walk_string2_escapes (m : data_mem) (prefix out : string) (a : Z)
    (n : nat) :
  walk_string2 m prefix (a, a + Z.of_nat n)%Z out
  = out ++ prefix ++ str1 quote_char
    ++ flatten (map escape_byte (data_bytes m a n)) ++ str1 quote_char.
Proof.
  unfold walk_string2. cbn [fst snd].
  replace (a + Z.of_nat n - a)%Z with (Z.of_nat n) by lia.
  rewrite Nat2Z.id, walk_string2_loop_escapes.
  rewrite !string_app_assoc. reflexivity.
Qed.

Lemma escapes_printable (m : data_mem) (n : nat) :
  forall a,
    printable_text (flatten (map escape_byte (data_bytes m a n))) = true
    /\ (String.length (flatten (map escape_byte (data_bytes m a n)))
        <= 4 * n)%nat.
Proof.
  induction n as [|n IH]; intros a; [split; [reflexivity | simpl; lia]|].
  cbn [data_bytes map flatten fold_right].
  destruct (escape_byte_printable _ (load_u8_range m a)) as [H1 H2].
  destruct (IH (a + 1)%Z) as [H3 H4]. unfold flatten in H3, H4.
  rewrite printable_text_app, string_length_app, H1, H3.
  split; [reflexivity | lia].
Qed.

(** X15.  [log::walk_string2]: whatever the bytes of the string are, what is
    written after the separator is made of printable characters only, from
    the space to the tilde, and its length is between two characters, the
    quotes, and four for each byte and two. *)
Theorem walk_string2_text_printable (m : data_mem) (prefix out : string)
    (a : Z) (n : nat) :
  exists s,
    walk_string2 m prefix (a, a + Z.of_nat n)%Z out = out ++ prefix ++ s
    /\ printable_text s = true
    /\ (2 <= String.length s <= 4 * n + 2)%nat.
Proof.
  eexists. split; [apply walk_string2_escapes|].
  destruct (escapes_printable m n a) as [H1 H2].
  rewrite !printable_text_app, !string_length_app, H1.
  split; [reflexivity|]. simpl String.length. lia.
Qed.

(** Reading back the first byte, for each of the bytes but zero. *)
Lemma head_byte_table :
  Forall (fun n => forall r,
            head_byte (escape_byte (Z.of_nat n) ++ r) = Some (Z.of_nat n, r))
         (seq 1 255).
Proof.
  let l := eval vm_compute in (seq 1 255) in change (seq 1 255) with l.
  repeat (apply Forall_cons; [intros r; reflexivity|]).
  apply Forall_nil.
Qed.

Lemma head_byte_escape (b : Z) (r : string) :
  (1 <= b < 256)%Z -> head_byte (escape_byte b ++ r) = Some (b, r).
Proof.
  intros Hb. pose proof head_byte_table as Ht.
  rewrite Forall_forall in Ht. specialize (Ht (Z.to_nat b)).
  rewrite Z2Nat.id in Ht by lia. apply Ht, in_seq. lia.
Qed.

Lemma escapes_injective (bs : list Z) :
  forall bs',
    Forall (fun b => 1 <= b < 256)%Z bs ->
    Forall (fun b => 1 <= b < 256)%Z bs' ->
    flatten (map escape_byte bs) ++ str1 quote_char
    = flatten (map escape_byte bs') ++ str1 quote_char ->
    bs = bs'.
Proof.
  induction bs as [|b bs IH]; intros [|b' bs'] H1 H2 E.
  - reflexivity.
  - exfalso. inversion H2 as [|? ? Hb' ?]; subst.
    cbn [map flatten fold_right] in E. rewrite string_app_assoc in E.
    apply (f_equal head_byte) in E. rewrite head_byte_escape in E by exact Hb'.
    discriminate E.
  - exfalso. inversion H1 as [|? ? Hb ?]; subst.
    cbn [map flatten fold_right] in E. rewrite string_app_assoc in E.
    apply (f_equal head_byte) in E. rewrite head_byte_escape in E by exact Hb.
    discriminate E.
  - inversion H1 as [|? ? Hb Hbs]; inversion H2 as [|? ? Hb' Hbs']; subst.
    cbn [map flatten fold_right] in E. rewrite !string_app_assoc in E.
    apply (f_equal head_byte) in E.
    rewrite !head_byte_escape in E by assumption.
    injection E as Eb Er. subst b'. f_equal. apply IH; assumption.
Qed.

Lemma data_bytes_nonzero (m : data_mem) (n : nat) :
  forall a,
    Forall (fun b => b <> 0%Z) (data_bytes m a n) ->
    Forall (fun b => 1 <= b < 256)%Z (data_bytes m a n).
Proof.
  induction n as [|n IH]; intros a H; [constructor|].
  cbn [data_bytes] in *. inversion H; subst. constructor.
  - pose proof (load_u8_range m a). lia.
  - apply IH. assumption.
Qed.

(** X16.  [log::walk_string2] loses nothing but the zero bytes: two strings
    without a zero byte that are written as the same text have the same
    bytes, and so the same length. *)
Theorem walk_string2_injective (m1 m2 : data_mem) (prefix out : string)
    (a1 a2 : Z) (n1 n2 : nat) :
  Forall (fun b => b <> 0%Z) (data_bytes m1 a1 n1) ->
  Forall (fun b => b <> 0%Z) (data_bytes m2 a2 n2) ->
  walk_string2 m1 prefix (a1, a1 + Z.of_nat n1)%Z out
  = walk_string2 m2 prefix (a2, a2 + Z.of_nat n2)%Z out ->
  data_bytes m1 a1 n1 = data_bytes m2 a2 n2.
Proof.
  intros H1 H2 E. rewrite !walk_string2_escapes in E.
  do 3 apply string_app_inv_head in E.
  apply escapes_injective;
    [apply data_bytes_nonzero, H1 | apply data_bytes_nonzero, H2 | exact E].
Qed.

Lemma walk_string2_injective_witness :
  Forall (fun b => b <> 0%Z) (data_bytes sample_string 100 3)
  /\ Forall (fun b => b <> 0%Z)
       (data_bytes (mem_of_bytes 200 [65; 10; 34]%Z) 200 3)
  /\ walk_string2 sample_string ", " (100, 100 + Z.of_nat 3)%Z "("
     = walk_string2 (mem_of_bytes 200 [65; 10; 34]%Z) ", "
         (200, 200 + Z.of_nat 3)%Z "("
  /\ data_bytes sample_string 100 3
     = data_bytes (mem_of_bytes 200 [65; 10; 34]%Z) 200 3.
Proof.
  assert (H1 : Forall (fun b => b <> 0%Z) (data_bytes sample_string 100 3))
    by (repeat constructor; vm_compute; discriminate).
  assert (H2 : Forall (fun b => b <> 0%Z)
                 (data_bytes (mem_of_bytes 200 [65; 10; 34]%Z) 200 3))
    by (repeat constructor; vm_compute; discriminate).
  assert (H3 : walk_string2 sample_string ", " (100, 100 + Z.of_nat 3)%Z "("
               = walk_string2 (mem_of_bytes 200 [65; 10; 34]%Z) ", "
                   (200, 200 + Z.of_nat 3)%Z "(")
    by reflexivity.
  split; [exact H1|]. split; [exact H2|]. split; [exact H3|].
  exact (walk_string2_injective sample_string
           (mem_of_bytes 200 [65; 10; 34]%Z) ", " "(" 100 200 3 3 H1 H2 H3).
Defined.

End LoggedText.

(** ** Instances of different variants *)

Section TagOrder.

Import cmp.

(** X17.  Two instances of a tag that are of different variants are ordered as
    the numbers of their variants: the payloads are not looked at, the
    walker of the fields is not called and no fuel is needed, and the
    cursors are left where they were. *)
Theorem walk_tag2_orders_variants (rom : shape_mem)
    (walk : t -> option t) (fuel : nat) (tinfo : tag_info) (v1 v2 : Z)
    (c : t) :
  v1 <> v2 ->
  walk_tag2 rom walk fuel tinfo (data_pair.make v1 v2) c
  = Some (set_result c (if v1 <? v2 then -1 else 1)).
Proof.
  intros Hne. unfold walk_tag2, cmp_number.
  rewrite three_way_ints. cbn [result set_result].
  destruct (Z.compare_spec v1 v2) as [He|Hlt|Hgt]; [contradiction | |].
  - replace (v1 <? v2) with true by (symmetry; apply Z.ltb_lt; exact Hlt).
    reflexivity.
  - replace (v1 <? v2) with false by (symmetry; apply Z.ltb_ge; lia).
    reflexivity.
Qed.

Lemma walk_tag2_orders_variants_witness :
  2 <> 1
  /\ walk_tag2 tag_rom (fun _ => None) 0 tag_rom_info (data_pair.make 2 1)
       (make false 0 tag_tables 100 200)
     = Some (set_result (make false 0 tag_tables 100 200) 1).
Proof.
  assert (H : 2 <> 1) by lia.
  split; [exact H|].
  exact (walk_tag2_orders_variants tag_rom (fun _ => None) 0 tag_rom_info
           2 1 (make false 0 tag_tables 100 200) H).
Defined.

End TagOrder.
